(** * The constraint solver's resolver (packages/constraint-solver/resolver.js)

    A shallow embedding of the resolver: the registry of unit versions, the
    constraints, exact-constraint propagation, neighbour expansion and the
    best-first search driver, followed by the properties of the
    specification that are stated about them. *)

From Stdlib Require Import Ascii String NArith ZArith.
From stdpp Require Import gmap strings list fin_maps.

Local Open Scope string_scope.
Local Open Scope list_scope.

#[local] Set Warnings "-clear-no-such-hyp".

(** ** Results of effectful code

    The JavaScript functions either return a value or throw [new Error(msg)].
    Recursion and loops whose termination is not structural are run on fuel;
    [OutOfFuel] says that the given fuel was too small. *)

Inductive outcome (A : Type) : Type :=
| Return (a : A)
| Throw (msg : string)
| OutOfFuel.

Arguments Return {A} a.
Arguments Throw {A} msg.
Arguments OutOfFuel {A}.

#[global] Instance outcome_ret : MRet outcome := fun A a => Return a.

#[global] Instance outcome_bind : MBind outcome := fun A B f m =>
  match m with
  | Return a => f a
  | Throw msg => Throw msg
  | OutOfFuel => OutOfFuel
  end.

(** [m'] is [m] unless [m] ran out of fuel. *)
Definition settles {A} (m m' : outcome A) : Prop := m = OutOfFuel \/ m' = m.

(** [_.each] / [.each] with a body that may throw and that updates a local
    variable: a left fold in the error monad. *)
Fixpoint foldM {A B : Type} (f : B -> A -> outcome B) (acc : B) (l : list A)
  : outcome B :=
  match l with
  | [] => Return acc
  | x :: l' => acc' ← f acc x; foldM f acc' l'
  end.

(** ** The semver library

    [semver] is an npm module. The resolver uses [semver.lt] and
    [semver.lte], both defined by the library from its three-way
    [compare]; version strings are assumed to be valid semver, on which
    [compare] is a total preorder. *)

Class SemVer : Type := {
  semver_compare : string -> string -> comparison;
  semver_compare_antisym :
    forall a b, semver_compare b a = CompOpp (semver_compare a b);
  semver_compare_trans :
    forall a b c,
      semver_compare a b <> Gt -> semver_compare b c <> Gt ->
      semver_compare a c <> Gt
}.

Definition semver_lt `{SemVer} (a b : string) : bool :=
  match semver_compare a b with Lt => true | _ => false end.

Definition semver_lte `{SemVer} (a b : string) : bool :=
  match semver_compare a b with Gt => false | _ => true end.

(** A concrete instance on dotted numeric versions ("1.2.3"), used to run
    the resolver on examples. *)
Module Dotted.

Definition digit (c : ascii) : N :=
  let n := N_of_ascii c in
  if ((48 <=? n) && (n <=? 57))%N then (n - 48)%N else 0%N.

Fixpoint parse (s : string) (cur : N) (acc : list N) : list N :=
  match s with
  | EmptyString => acc ++ [cur]
  | String c s' =>
      if Ascii.eqb c "."%char then parse s' 0%N (acc ++ [cur])
      else parse s' (10 * cur + digit c)%N acc
  end.

Definition key (s : string) : N * N * N :=
  let l := parse s 0%N [] in
  (nth 0 l 0%N, nth 1 l 0%N, nth 2 l 0%N).

Definition compare3 (x y : N * N * N) : comparison :=
  match x, y with
  | (a1, a2, a3), (b1, b2, b3) =>
      match N.compare a1 b1 with
      | Eq => match N.compare a2 b2 with
              | Eq => N.compare a3 b3
              | c => c
              end
      | c => c
      end
  end.

Definition compare (a b : string) : comparison := compare3 (key a) (key b).

#[export] Instance semver : SemVer.
Proof.
  refine {| semver_compare := compare |}.
  - intros a b. unfold compare.
    destruct (key a) as [[a1 a2] a3], (key b) as [[b1 b2] b3]; simpl.
    rewrite (N.compare_antisym a1 b1), (N.compare_antisym a2 b2),
      (N.compare_antisym a3 b3).
    destruct (N.compare a1 b1), (N.compare a2 b2), (N.compare a3 b3);
      reflexivity.
  - intros a b c. unfold compare.
    destruct (key a) as [[a1 a2] a3], (key b) as [[b1 b2] b3],
      (key c) as [[c1 c2] c3]; simpl.
    destruct (N.compare_spec a1 b1), (N.compare_spec b1 c1),
      (N.compare_spec a1 c1); try lia; try congruence;
      destruct (N.compare_spec a2 b2), (N.compare_spec b2 c2),
        (N.compare_spec a2 c2); try lia; try congruence;
      destruct (N.compare_spec a3 b3), (N.compare_spec b3 c3),
        (N.compare_spec a3 c3); try lia; congruence.
Defined.

End Dotted.

(** ** Constraint *)

(** The fields [PackageVersion.parseVersionConstraint] fills in, and [name]. *)
Record Constraint : Type := mkConstraint {
  c_name : string;
  c_exact : bool;
  c_version : string
}.

#[global] Instance Constraint_eq_dec : EqDecision Constraint.
Proof. solve_decision. Defined.

(** [Constraint.prototype.toString] *)
Definition Constraint_toString (self : Constraint) : string :=
  c_name self +:+ "@" +:+ (if c_exact self then "=" else EmptyString)
  +:+ c_version self.

(** ** DependenciesList *)

Module DependenciesList.

(** Modelled from the spec: the class DependenciesList (datatypes.js) is
    missing. An ordered collection of unique package names; operations
    return a new list. *)
Definition t : Type := list string.

(** Modelled from the spec: [new DependenciesList()], the list without
    names. *)
Definition empty : t := [].

(** Modelled from the spec: [contains(name)]. *)
Definition contains (self : t) (d : string) : bool := bool_decide (d ∈ self).

(** Modelled from the spec: [push(name)]; names are unique and kept in the
    order of insertion. *)
Definition push (self : t) (d : string) : t :=
  if contains self d then self else self ++ [d].

(** Modelled from the spec: [union(other)] preserves left-side order, then
    appends the right-side names not already present. *)
Definition union (self other : t) : t := foldl push self other.

(** Modelled from the spec: [fromArray], the names of the array in its
    order. *)
Definition fromArray (a : list string) : t := foldl push empty a.

(** Modelled from the spec: [isEmpty()]. *)
Definition isEmpty (self : t) : bool :=
  match self with [] => true | _ => false end.

(** Modelled from the spec: [peek()] returns the head under the insertion
    order ([undefined], here [None], on the empty list). *)
Definition peek (self : t) : option string := head self.

(** Modelled from the spec: [remove(name)]. *)
Definition remove (self : t) (d : string) : t :=
  List.filter (fun x => negb (String.eqb x d)) self.

End DependenciesList.

(** ** ConstraintsList *)

Module ConstraintsList.

(** Modelled from the spec: the class ConstraintsList (datatypes.js) is
    missing. A set of constraints, enumerated by [each] in insertion
    order. Constraints are interned by the resolver: a constraint is
    identified with its field values. *)
Definition t : Type := list Constraint.

(** Modelled from the spec: [new ConstraintsList()]. *)
Definition empty : t := [].

(** Modelled from the spec: [contains(c)]. *)
Definition contains (self : t) (c : Constraint) : bool :=
  bool_decide (c ∈ self).

(** Modelled from the spec: [push(c)]. *)
Definition push (self : t) (c : Constraint) : t :=
  if contains self c then self else self ++ [c].

(** Modelled from the spec: [union(other)]. *)
Definition union (self other : t) : t := foldl push self other.

(** Modelled from the spec: [fromArray]. *)
Definition fromArray (a : list Constraint) : t := foldl push empty a.

(** Modelled from the spec: [exactDependenciesIntersection(deps)], the
    constraints that are exact and whose name appears in [deps]. *)
Definition exactDependenciesIntersection (self : t) (deps : DependenciesList.t)
  : t :=
  List.filter (fun c => c_exact c && DependenciesList.contains deps (c_name c))
    self.

End ConstraintsList.

(** Modelled from the spec: [DependenciesList.prototype.exactConstraintsIntersection]
    is missing. The constraints of [constraintsList] that are exact and whose
    name is in the dependencies list. *)
Definition exactConstraintsIntersection (self : DependenciesList.t)
  (constraintsList : ConstraintsList.t) : ConstraintsList.t :=
  List.filter (fun c => c_exact c && DependenciesList.contains self (c_name c))
    constraintsList.

(** ** UnitVersion *)

(** Unit versions are not mutated once the resolver runs, and the resolver
    relies on equal unit versions being the same object (source, lines
    5-11): an object is identified with its field values, and [===] on
    unit versions is equality of records. *)
Record UnitVersion : Type := mkUnitVersion {
  uv_name : string;
  uv_version : string;
  uv_ecv : string;
  uv_dependencies : DependenciesList.t;
  uv_constraints : ConstraintsList.t
}.

#[global] Instance UnitVersion_eq_dec : EqDecision UnitVersion.
Proof. solve_decision. Defined.

(** [new ConstraintSolver.UnitVersion(name, unitVersion, ecv)] *)
Definition newUnitVersion (name unitVersion ecv : string) : UnitVersion :=
  {| uv_name := name; uv_version := unitVersion; uv_ecv := ecv;
     uv_dependencies := DependenciesList.empty;
     uv_constraints := ConstraintsList.empty |}.

(** [UnitVersion.prototype.toString] *)
Definition UnitVersion_toString (self : UnitVersion) : string :=
  uv_name self +:+ "@" +:+ uv_version self.

(** [addDependency] and [addConstraint] throw on a repeated addition. *)
Definition addDependency (self : UnitVersion) (name : string)
  : outcome UnitVersion :=
  if DependenciesList.contains (uv_dependencies self) name
  then Throw ("Dependency already exists -- " +:+ name)
  else Return {| uv_name := uv_name self; uv_version := uv_version self;
                 uv_ecv := uv_ecv self;
                 uv_dependencies :=
                   DependenciesList.push (uv_dependencies self) name;
                 uv_constraints := uv_constraints self |}.

Definition addConstraint (self : UnitVersion) (constraint : Constraint)
  : outcome UnitVersion :=
  if ConstraintsList.contains (uv_constraints self) constraint
  then Throw ("Constraint already exists -- " +:+ Constraint_toString constraint)
  else Return {| uv_name := uv_name self; uv_version := uv_version self;
                 uv_ecv := uv_ecv self;
                 uv_dependencies := uv_dependencies self;
                 uv_constraints :=
                   ConstraintsList.push (uv_constraints self) constraint |}.

(** ** Underscore helpers on arrays of unit versions *)

(** [_.uniq]: the first occurrence of every element, in order. *)
Fixpoint uniq_aux (seen l : list UnitVersion) : list UnitVersion :=
  match l with
  | [] => []
  | x :: l' =>
      if bool_decide (x ∈ seen) then uniq_aux seen l'
      else x :: uniq_aux (seen ++ [x]) l'
  end.

Definition uniq (l : list UnitVersion) : list UnitVersion := uniq_aux [] l.

(** [_.union(a, b)] is [_.uniq(_.flatten([a, b], true))]. *)
Definition js_union (a b : list UnitVersion) : list UnitVersion :=
  uniq (a ++ b).

(** ** Costs and the priority queue *)

(** The numbers the cost callbacks return: integers, or [Infinity], which
    [resolve] tests for. *)
Inductive number : Type :=
| Finite (z : Z)
| Infinity.

#[global] Instance number_eq_dec : EqDecision number.
Proof. solve_decision. Defined.

(** [+] on these numbers *)
Definition number_add (a b : number) : number :=
  match a, b with
  | Finite x, Finite y => Finite (x + y)
  | _, _ => Infinity
  end.

Definition number_compare (a b : number) : comparison :=
  match a, b with
  | Finite x, Finite y => Z.compare x y
  | Finite _, Infinity => Lt
  | Infinity, Finite _ => Gt
  | Infinity, Infinity => Eq
  end.

Module PriorityQueue.

(** Modelled from the spec: the class PriorityQueue (priority-queue.js) is
    missing. The key an item is pushed with, a two-element array. *)
Definition priority : Type := number * Z.

(** Modelled from the spec: the queue, its items with their keys in the
    order they were pushed. *)
Definition t (A : Type) : Type := list (A * priority).

(** Modelled from the spec: [new PriorityQueue()]. *)
Definition new {A} : t A := [].

(** Modelled from the spec: [empty()]. *)
Definition empty {A} (self : t A) : bool :=
  match self with [] => true | _ => false end.

(** Modelled from the spec: [push(item, key)]. *)
Definition push {A} (self : t A) (item : A) (cost : priority) : t A :=
  self ++ [(item, cost)].

(** Modelled from the spec: the order of the keys, component by component;
    smaller is first. *)
Definition compare (p q : priority) : comparison :=
  match number_compare p.1 q.1 with
  | Eq => Z.compare p.2 q.2
  | c => c
  end.

Definition ltb (p q : priority) : bool :=
  match compare p q with Lt => true | _ => false end.

Definition leb (p q : priority) : bool :=
  match compare p q with Gt => false | _ => true end.

(** Modelled from the spec: the first item of smallest key among
    [best :: rest], and the others in their order. *)
Fixpoint extractMin {A} (best : A * priority) (rest : t A)
  : (A * priority) * t A :=
  match rest with
  | [] => (best, [])
  | y :: rest' =>
      if ltb y.2 best.2
      then let r := extractMin y rest' in (r.1, best :: r.2)
      else let r := extractMin best rest' in (r.1, y :: r.2)
  end.

(** Modelled from the spec: [pop()] removes an item of the smallest key
    (among equal keys, the one pushed first) and returns it. *)
Definition pop {A} (self : t A) : option ((A * priority) * t A) :=
  match self with
  | [] => None
  | x :: rest => Some (extractMin x rest)
  end.

End PriorityQueue.

(** ** Search states *)

Module State.
Record t : Type := mk {
  dependencies : DependenciesList.t;
  constraints : ConstraintsList.t;
  choices : list UnitVersion
}.
End State.

(** The second argument of the cost callbacks. *)
Record Opts : Type := mkOpts { rootDependencies : list string }.

(** The [options] argument of [resolve]; a callback that is not given is
    [None]. *)
Record Options : Type := mkOptions {
  costFunction : option (list UnitVersion -> Opts -> number);
  estimateCostFunction : option (State.t -> Opts -> number);
  combineCostFunction : option (number -> number -> number);
  stopAfterFirstPropagation : bool
}.

Definition noOptions : Options :=
  {| costFunction := None; estimateCostFunction := None;
     combineCostFunction := None; stopAfterFirstPropagation := false |}.

(** The defaults [_.extend] starts from (lines 76-84). *)
Definition defaultCostFunction : list UnitVersion -> Opts -> number :=
  fun _ _ => Finite 0.
Definition defaultEstimateCostFunction : State.t -> Opts -> number :=
  fun _ _ => Finite 0.
Definition defaultCombineCostFunction : number -> number -> number :=
  fun cost anotherCost => number_add cost anotherCost.

Section Resolver.

Context `{SemVer}.

(** [Constraint.prototype.isSatisfied] *)
Definition isSatisfied (self : Constraint) (unitVersion : UnitVersion) : bool :=
  if c_exact self
  then bool_decide (c_version self = uv_version unitVersion)
  else semver_lte (c_version self) (uv_version unitVersion)
       && semver_lte (uv_ecv unitVersion) (c_version self).

(** Modelled from the spec: [ConstraintsList.prototype.violated] is missing.
    True iff some contained constraint with the unit version's name is not
    satisfied by it. *)
Definition violated (self : ConstraintsList.t) (uv : UnitVersion) : bool :=
  existsb (fun c => bool_decide (c_name c = uv_name uv) && negb (isSatisfied c uv))
    self.

(** ** The registry *)

(** Objects used as dictionaries are finite maps over their own keys. *)
Record Resolver : Type := mkResolver {
  unitsVersions : gmap string (list UnitVersion);
  _unitsVersionsMap : gmap string UnitVersion;
  _latestVersion : gmap string string;
  _constraints : gmap string Constraint
}.

(** [new ConstraintSolver.Resolver()] *)
Definition newResolver : Resolver :=
  {| unitsVersions := ∅; _unitsVersionsMap := ∅; _latestVersion := ∅;
     _constraints := ∅ |}.

(** [Resolver.prototype.addUnitVersion], statement by statement. The array
    [unitsVersions[name]] exists when [push] is called, line 33 has created
    it otherwise. [semver.lt] reads [_latestVersion[name]], which line 34
    sets together with [unitsVersions[name]]; on a registry where it is
    unset (not one built from [newResolver] by this function) nothing is
    compared. *)
Definition addUnitVersion (self : Resolver) (unitVersion : UnitVersion)
  : Resolver :=
  let name := uv_name unitVersion in
  let self1 :=
    match unitsVersions self !! name with
    | Some _ => self
    | None =>
        {| unitsVersions := <[name := []]> (unitsVersions self);
           _unitsVersionsMap := _unitsVersionsMap self;
           _latestVersion := <[name := uv_version unitVersion]> (_latestVersion self);
           _constraints := _constraints self |}
    end in
  let self2 :=
    match _unitsVersionsMap self1 !! UnitVersion_toString unitVersion with
    | Some _ => self1
    | None =>
        {| unitsVersions :=
             alter (fun l => l ++ [unitVersion]) name (unitsVersions self1);
           _unitsVersionsMap :=
             <[UnitVersion_toString unitVersion := unitVersion]>
               (_unitsVersionsMap self1);
           _latestVersion := _latestVersion self1;
           _constraints := _constraints self1 |}
    end in
  match _latestVersion self2 !! name with
  | Some latest =>
      if semver_lt latest (uv_version unitVersion)
      then {| unitsVersions := unitsVersions self2;
              _unitsVersionsMap := _unitsVersionsMap self2;
              _latestVersion :=
                <[name := uv_version unitVersion]> (_latestVersion self2);
              _constraints := _constraints self2 |}
      else self2
  | None => self2
  end.

(** The registry after a sequence of [addUnitVersion] calls on a new
    resolver. *)
Definition registry (uvs : list UnitVersion) : Resolver :=
  foldl addUnitVersion newResolver uvs.

(** [String.prototype.replace] of "=" by the empty string: the first "=" is
    removed. *)
Fixpoint replace_first_eq (s : string) : string :=
  match s with
  | EmptyString => EmptyString
  | String c s' =>
      if Ascii.eqb c "="%char then s' else String c (replace_first_eq s')
  end.

(** [_.find] *)
Definition js_find {A} (l : option (list A)) (p : A -> bool) : option A :=
  match l with
  | Some l => List.find p l
  | None => None
  end.

(** [Constraint.prototype.getSatisfyingUnitVersion]; [undefined] is [None]. *)
Definition getSatisfyingUnitVersion (self : Constraint) (resolver : Resolver)
  : option UnitVersion :=
  if c_exact self
  then _unitsVersionsMap resolver !! replace_first_eq (Constraint_toString self)
  else js_find (unitsVersions resolver !! c_name self) (isSatisfied self).

(** ** Transitive exact dependencies of a unit version *)

Definition noUnitVersionMsg (c : Constraint) : string :=
  "No unit version was found for the constraint -- " +:+ Constraint_toString c.

(** [c.getSatisfyingUnitVersion(resolver)] followed by the [throw] on a
    falsy result. *)
Definition satisfyingOrThrow (resolver : Resolver) (c : Constraint)
  : outcome UnitVersion :=
  match getSatisfyingUnitVersion c resolver with
  | Some unitVersion => Return unitVersion
  | None => Throw (noUnitVersionMsg c)
  end.

(** [UnitVersion.prototype._exactTransitiveConstraints]. The recursion is on
    the registry's exact constraints and need not end; it runs on fuel.
    [each] enumerates the list computed first while the variable is
    reassigned. *)
Fixpoint _exactTransitiveConstraints (fuel : nat) (resolver : Resolver)
  (self : UnitVersion) : outcome ConstraintsList.t :=
  match fuel with
  | O => OutOfFuel
  | S fuel' =>
      let exactTransitiveConstraints :=
        exactConstraintsIntersection (uv_dependencies self) (uv_constraints self) in
      foldM (fun acc c =>
               unitVersion ← satisfyingOrThrow resolver c;
               sub ← _exactTransitiveConstraints fuel' resolver unitVersion;
               Return (ConstraintsList.union acc sub))
        exactTransitiveConstraints exactTransitiveConstraints
  end.

(** [UnitVersion.prototype.exactTransitiveDependenciesVersions] *)
Definition exactTransitiveDependenciesVersions (fuel : nat)
  (resolver : Resolver) (self : UnitVersion) : outcome (list UnitVersion) :=
  cs ← _exactTransitiveConstraints fuel resolver self;
  foldM (fun uvs c =>
           unitVersion ← satisfyingOrThrow resolver c;
           Return (uvs ++ [unitVersion]))
    [] cs.

(** [UnitVersion.prototype.inexactTransitiveDependencies] *)
Definition inexactTransitiveDependencies (fuel : nat) (resolver : Resolver)
  (self : UnitVersion) : outcome DependenciesList.t :=
  exactTransitiveConstraints ← _exactTransitiveConstraints fuel resolver self;
  deps ← foldM (fun deps c =>
                  unitVersion ← satisfyingOrThrow resolver c;
                  Return (DependenciesList.union deps (uv_dependencies unitVersion)))
         (uv_dependencies self) exactTransitiveConstraints;
  Return (foldl (fun deps c => DependenciesList.remove deps (c_name c))
            deps exactTransitiveConstraints).

(** ** Exact-constraint propagation *)

(** Lines 269-271: the exact constraints that the dequeued unit version
    newly combines with. *)
Definition newExactConstraintsList (uv : UnitVersion)
  (constraints : ConstraintsList.t) : ConstraintsList.t :=
  ConstraintsList.union
    (exactConstraintsIntersection (uv_dependencies uv) constraints)
    (ConstraintsList.exactDependenciesIntersection (uv_constraints uv)
       (uv_dependencies uv)).

(** Lines 273-280: [exactDeps], or the error of the first constraint without
    a unit version. *)
Definition collectExactDeps (resolver : Resolver) (l : ConstraintsList.t)
  : outcome (list UnitVersion) :=
  foldM (fun exactDeps c =>
           uv ← satisfyingOrThrow resolver c;
           Return (exactDeps ++ [uv]))
    [] l.

(** Lines 283-288: enqueue the exact dependencies whose name was not
    enqueued before. *)
Definition enqueueAll (queue : list UnitVersion) (isEnqueued : gset string)
  (exactDeps : list UnitVersion) : list UnitVersion * gset string :=
  foldl (fun qe dep =>
           if bool_decide (uv_name dep ∈ qe.2) then qe
           else (qe.1 ++ [dep], {[uv_name dep]} ∪ qe.2))
    (queue, isEnqueued) exactDeps.

(** Lines 249-252: the constraints of the dequeued unit version and of its
    exact transitive dependencies. *)
Definition transitiveConstraintsOf
  (exactTransitiveDepsVersions : list UnitVersion) (uv : UnitVersion)
  : ConstraintsList.t :=
  foldl (fun transitiveConstraints u =>
           ConstraintsList.union transitiveConstraints (uv_constraints u))
    ConstraintsList.empty (js_union exactTransitiveDepsVersions [uv]).

(** Lines 243-280, the body of the loop for the dequeued [uv]: the new
    dependencies, constraints and choices, and the exact dependencies to
    enqueue. *)
Definition propagateBody (fuel : nat) (resolver : Resolver) (uv : UnitVersion)
  (dependencies : DependenciesList.t) (constraints : ConstraintsList.t)
  (choices : list UnitVersion) : outcome (State.t * list UnitVersion) :=
  let choices := choices ++ [uv] in
  exactTransitiveDepsVersions ←
    exactTransitiveDependenciesVersions fuel resolver uv;
  inexactTransitiveDeps ← inexactTransitiveDependencies fuel resolver uv;
  let transitiveConstraints :=
    transitiveConstraintsOf exactTransitiveDepsVersions uv in
  let dependencies := DependenciesList.union dependencies inexactTransitiveDeps in
  let constraints := ConstraintsList.union constraints transitiveConstraints in
  let choices := js_union choices exactTransitiveDepsVersions in
  let dependencies :=
    foldl (fun deps u => DependenciesList.remove deps (uv_name u))
      dependencies choices in
  exactDeps ← collectExactDeps resolver (newExactConstraintsList uv constraints);
  Return ({| State.dependencies := dependencies; State.constraints := constraints;
             State.choices := choices |}, exactDeps).

(** The [while (queue.length > 0)] loop of [_propagateExactTransDeps]. *)
Fixpoint propagateLoop (fuel : nat) (resolver : Resolver)
  (queue : list UnitVersion) (isEnqueued : gset string)
  (dependencies : DependenciesList.t) (constraints : ConstraintsList.t)
  (choices : list UnitVersion) : outcome State.t :=
  match queue with
  | [] => Return {| State.dependencies := dependencies; State.constraints := constraints;
                    State.choices := choices |}
  | uv :: queue =>
      match fuel with
      | O => OutOfFuel
      | S fuel' =>
          r ← propagateBody fuel' resolver uv dependencies constraints choices;
          let qe := enqueueAll queue isEnqueued r.2 in
          propagateLoop fuel' resolver qe.1 qe.2
            (State.dependencies r.1) (State.constraints r.1) (State.choices r.1)
      end
  end.

(** [Resolver.prototype._propagateExactTransDeps] *)
Definition _propagateExactTransDeps (fuel : nat) (resolver : Resolver)
  (uv : UnitVersion) (dependencies : DependenciesList.t)
  (constraints : ConstraintsList.t) (choices : list UnitVersion)
  : outcome State.t :=
  propagateLoop fuel resolver [uv] {[uv_name uv]} dependencies constraints choices.

Definition choicesDontViolateConstraints (choices : list UnitVersion)
  (constraints : ConstraintsList.t) : bool :=
  forallb (fun uv => negb (violated constraints uv)) choices.

(** ** Neighbour expansion *)

(** The object [_stateNeighbors] returns; a field the source leaves out is
    [None]. *)
Record NeighborsObj : Type := mkNeighborsObj {
  success : bool;
  failureMsg : option string;
  neighbors : list State.t;
  triedUnitVersions : option (list UnitVersion);
  lastInvalidNeighbor : option State.t
}.

Definition stateIsValid (state : State.t) : bool :=
  choicesDontViolateConstraints (State.choices state) (State.constraints state).

(** Line 179. On an empty dependencies list [peek] gives [undefined], which
    as a property name and in the message is the string "undefined";
    [resolve] never calls [_stateNeighbors] there. *)
Definition candidateNameOf (state : State.t) : string :=
  default "undefined" (DependenciesList.peek (State.dependencies state)).

(** Lines 182-185; [_.filter(undefined, f)] is the empty array. *)
Definition candidateVersionsOf (resolver : Resolver) (state : State.t)
  : list UnitVersion :=
  List.filter (fun uv => negb (violated (State.constraints state) uv))
    (default [] (unitsVersions resolver !! candidateNameOf state)).

(** Lines 195-198: the state built for the candidate [uv]. *)
Definition neighborOf (fuel : nat) (resolver : Resolver) (state : State.t)
  (uv : UnitVersion) : outcome State.t :=
  let dependencies :=
    DependenciesList.remove (State.dependencies state) (candidateNameOf state) in
  let nChoices := State.choices state ++ [uv] in
  _propagateExactTransDeps fuel resolver uv dependencies
    (State.constraints state) nChoices.

(** [Resolver.prototype._stateNeighbors]. [_.chain(..).map(..)] builds the
    states of all candidates before [filter] looks at them. *)
Definition _stateNeighbors (fuel : nat) (resolver : Resolver) (state : State.t)
  : outcome NeighborsObj :=
  let candidateName := candidateNameOf state in
  let candidateVersions := candidateVersionsOf resolver state in
  match candidateVersions with
  | [] =>
      Return {| success := false;
                failureMsg :=
                  Some ("Cannot choose satisfying versions of package -- "
                        +:+ candidateName);
                neighbors := []; triedUnitVersions := None;
                lastInvalidNeighbor := None |}
  | _ =>
      states ← mapM (neighborOf fuel resolver state) candidateVersions;
      let neighbors := List.filter stateIsValid states in
      match neighbors with
      | [] =>
          Return {| success := false;
                    failureMsg :=
                      Some ("None of the versions unit produces a sensible result -- "
                            +:+ candidateName);
                    neighbors := [];
                    triedUnitVersions := Some candidateVersions;
                    lastInvalidNeighbor :=
                      last (List.filter (fun s => negb (stateIsValid s)) states) |}
      | _ =>
          Return {| success := true; failureMsg := None; neighbors := neighbors;
                    triedUnitVersions := None; lastInvalidNeighbor := None |}
      end
  end.

(** ** The resolve driver *)

(** What the search works with once the options are read. *)
Record Search : Type := mkSearch {
  s_costFunction : list UnitVersion -> Opts -> number;
  s_estimateCostFunction : State.t -> Opts -> number;
  s_combineCostFunction : number -> number -> number;
  s_opts : Opts
}.

(** Lines 112-114 and 140-142: the combined cost a state is pushed with. *)
Definition combinedCost (sc : Search) (state : State.t) : number :=
  s_combineCostFunction sc
    (s_costFunction sc (State.choices state) (s_opts sc))
    (s_estimateCostFunction sc state (s_opts sc)).

(** Line 116 *)
Definition pushStart (sc : Search) (startState : State.t)
  : PriorityQueue.t State.t :=
  PriorityQueue.push PriorityQueue.new startState (combinedCost sc startState, 0%Z).

(** Lines 139-145 *)
Definition pushNeighbors (sc : Search) (pq : PriorityQueue.t State.t)
  (neighbors : list State.t) : PriorityQueue.t State.t :=
  foldl (fun pq state =>
           PriorityQueue.push pq state
             (combinedCost sc state, (- Z.of_nat (length (State.choices state)))%Z))
    pq neighbors.

(** Lines 149-156, when no solution was found. *)
Definition noSolution (someError : option string) : outcome (list UnitVersion) :=
  match someError with
  | Some msg => Throw msg
  | None => Throw "Couldn't resolve, I am sorry"
  end.

Inductive step : Type :=
| Done (result : outcome (list UnitVersion))
| Continue (pq : PriorityQueue.t State.t) (someError : option string).

(** One turn of the [while (! pq.empty())] loop, lines 120-147. *)
Definition resolveStep (fuel : nat) (resolver : Resolver) (sc : Search)
  (pq : PriorityQueue.t State.t) (someError : option string) : step :=
  match PriorityQueue.pop pq with
  | None => Done (noSolution someError)
  | Some (currentState, _, pq) =>
      let tentativeCost :=
        number_add (s_costFunction sc (State.choices currentState) (s_opts sc))
          (s_estimateCostFunction sc currentState (s_opts sc)) in
      if bool_decide (tentativeCost = Infinity) then Done (noSolution someError)
      else if DependenciesList.isEmpty (State.dependencies currentState)
      then Done (Return (State.choices currentState))
      else
        match _stateNeighbors fuel resolver currentState with
        | Throw msg => Done (Throw msg)
        | OutOfFuel => Done OutOfFuel
        | Return neighborsObj =>
            if negb (success neighborsObj)
            then Continue pq (match someError with
                              | Some e => Some e
                              | None => failureMsg neighborsObj
                              end)
            else Continue (pushNeighbors sc pq (neighbors neighborsObj)) someError
        end
  end.

Fixpoint resolveLoop (fuel : nat) (resolver : Resolver) (sc : Search)
  (pq : PriorityQueue.t State.t) (someError : option string)
  : outcome (list UnitVersion) :=
  match fuel with
  | O => OutOfFuel
  | S fuel' =>
      match resolveStep fuel' resolver sc pq someError with
      | Done result => result
      | Continue pq someError => resolveLoop fuel' resolver sc pq someError
      end
  end.

(** Lines 86-101: the start state, with the entry of the fake unit version
    filtered out of its choices. *)
Definition startState (fuel : nat) (resolver : Resolver)
  (dependencies : list string) (constraints : list Constraint)
  (choices : list UnitVersion) : outcome State.t :=
  let dependencies := DependenciesList.fromArray dependencies in
  let constraints := ConstraintsList.fromArray constraints in
  let appUV :=
    {| uv_name := "target"; uv_version := "1.0.0"; uv_ecv := "0.0.0";
       uv_dependencies := dependencies; uv_constraints := constraints |} in
  startState ← _propagateExactTransDeps fuel resolver appUV dependencies
                 constraints choices;
  Return {| State.dependencies := State.dependencies startState;
            State.constraints := State.constraints startState;
            State.choices :=
              List.filter (fun uv => negb (String.eqb (uv_name uv) "target"))
                (State.choices startState) |}.

(** [Resolver.prototype.resolve]. An argument that is omitted, [null] or
    [undefined] is [None]. *)
Definition resolve (fuel : nat) (resolver : Resolver)
  (dependencies : list string) (constraints : option (list Constraint))
  (choices : option (list UnitVersion)) (options : Options)
  : outcome (list UnitVersion) :=
  let constraints := default [] constraints in
  let choices := default [] choices in
  let sc :=
    {| s_costFunction := default defaultCostFunction (costFunction options);
       s_estimateCostFunction :=
         default defaultEstimateCostFunction (estimateCostFunction options);
       s_combineCostFunction :=
         default defaultCombineCostFunction (combineCostFunction options);
       s_opts := {| rootDependencies := dependencies |} |} in
  startState ← startState fuel resolver dependencies constraints choices;
  if stopAfterFirstPropagation options then Return (State.choices startState)
  else resolveLoop fuel resolver sc (pushStart sc startState) None.

(** ** Notions the specification is stated with *)

(** The versions added for [name] by a sequence of [addUnitVersion] calls. *)
Definition versionsAdded (name : string) (uvs : list UnitVersion) : list string :=
  uv_version <$> List.filter (fun uv => String.eqb (uv_name uv) name) uvs.

(** The maximum of a list of versions under the semver order (the earliest
    one among equals), from the specification's words "the max version
    added". *)
Definition maxVersion (l : list string) : option string :=
  match l with
  | [] => None
  | v :: l' => Some (foldl (fun m w => if semver_lt m w then w else m) v l')
  end.

(** The first unit version of a sequence printed as [key]. *)
Definition firstPrinted (key : string) (uvs : list UnitVersion)
  : option UnitVersion :=
  List.find (fun uv => String.eqb (UnitVersion_toString uv) key) uvs.

(** A semver string has no "@" in it. *)
Fixpoint noAt (s : string) : bool :=
  match s with
  | EmptyString => true
  | String c s' => negb (Ascii.eqb c "@"%char) && noAt s'
  end.

(** A name without "=". *)
Fixpoint noEq (s : string) : bool :=
  match s with
  | EmptyString => true
  | String c s' => negb (Ascii.eqb c "="%char) && noEq s'
  end.

(** ** Well-formed registries and search states *)

(** A constraint whose name has no "=" and whose version has no "@". *)
Definition wfConstraint (c : Constraint) : Prop :=
  noEq (c_name c) = true /\ noAt (c_version c) = true.

Definition wfUnitVersion (uv : UnitVersion) : Prop :=
  noAt (uv_version uv) = true /\ Forall wfConstraint (uv_constraints uv).

(** The unit version is the object interned under its printed form. *)
Definition interned (resolver : Resolver) (uv : UnitVersion) : Prop :=
  _unitsVersionsMap resolver !! UnitVersion_toString uv = Some uv.

(** What the resolver relies on (source, lines 5-11): the interning map is
    keyed by the printed form, the candidates listed under a name have that
    name and are the interned objects, and the strings are well formed. *)
Record wfResolver (resolver : Resolver) : Prop := {
  wf_key : forall key uv,
    _unitsVersionsMap resolver !! key = Some uv -> UnitVersion_toString uv = key;
  wf_listed : forall name listed uv,
    unitsVersions resolver !! name = Some listed -> uv ∈ listed ->
    uv_name uv = name /\ interned resolver uv;
  wf_strings : forall key uv,
    _unitsVersionsMap resolver !! key = Some uv -> wfUnitVersion uv
}.

(** A search state whose choices have pairwise different names, none of
    them left in the dependencies, all interned. *)
Record goodState (resolver : Resolver) (state : State.t) : Prop := {
  good_names : NoDup (uv_name <$> State.choices state);
  good_dependencies : forall uv,
    uv ∈ State.choices state -> uv_name uv ∉ State.dependencies state;
  good_interned : forall uv, uv ∈ State.choices state -> interned resolver uv;
  good_constraints : Forall wfConstraint (State.constraints state)
}.

(** The unit version is the one an exact constraint of [cs] is looked up
    to. *)
Definition pinned (resolver : Resolver) (cs : ConstraintsList.t)
  (uv : UnitVersion) : Prop :=
  exists c, c ∈ cs /\ c_exact c = true
            /\ getSatisfyingUnitVersion c resolver = Some uv.

(** Every state in the queue is good and has no violated choice. *)
Definition soundQueue (r : Resolver) (pq : PriorityQueue.t State.t) : Prop :=
  Forall (fun item => goodState r item.1 /\ stateIsValid item.1 = true) pq.

(** ** Notions the further properties are stated with *)

(** The unit versions of a sequence of registrations that are the first
    with their printed form, in the order of registration. *)
Definition firstRegistrations (uvs : list UnitVersion) : list UnitVersion :=
  foldl (fun kept uv =>
           match firstPrinted (UnitVersion_toString uv) kept with
           | Some _ => kept
           | None => kept ++ [uv]
           end)
    [] uvs.

(** Those of them with the given name. *)
Definition registeredUnder (name : string) (uvs : list UnitVersion)
  : list UnitVersion :=
  List.filter (fun uv => String.eqb (uv_name uv) name) (firstRegistrations uvs).

(** The name is pending, or chosen, or pinned to a chosen unit version. *)
Definition settledIn (r : Resolver) (deps : DependenciesList.t)
  (cs : ConstraintsList.t) (chs : list UnitVersion) (x : string) : Prop :=
  x ∈ deps
  \/ (exists w, w ∈ chs /\ uv_name w = x)
  \/ (exists c w, c ∈ cs /\ c_exact c = true /\ c_name c = x
                  /\ getSatisfyingUnitVersion c r = Some w /\ w ∈ chs).

(** The same on the fields of a state. *)
Definition settled (r : Resolver) (s : State.t) (x : string) : Prop :=
  settledIn r (State.dependencies s) (State.constraints s) (State.choices s) x.





(** The number of states of a search tree of depth [k] whose states have at
    most [B] neighbours. *)
Fixpoint searchSize (B k : nat) : nat :=
  match k with
  | O => 1
  | S k' => 1 + B * searchSize B k'
  end.

(** The bound on the states the search still visits below a queued state,
    when at most [size U] unit versions can be chosen. *)
Definition stateWeight (B : nat) (U : gset string)
  (item : State.t * PriorityQueue.priority) : nat :=
  searchSize B (size U - length (State.choices item.1)).

End Resolver.

(** The same for a turn of the search loop. *)
Inductive settlesStep : step -> step -> Prop :=
| settles_done r r' : settles r r' -> settlesStep (Done r) (Done r')
| settles_out s : settlesStep (Done OutOfFuel) s
| settles_continue pq e : settlesStep (Continue pq e) (Continue pq e).

(** ** Example registries

    Run with the dotted numeric semver instance. *)

Module Example.

Definition exactly (name version : string) : Constraint :=
  {| c_name := name; c_exact := true; c_version := version |}.

Definition atLeast (name version : string) : Constraint :=
  {| c_name := name; c_exact := false; c_version := version |}.

Definition A1 : UnitVersion := newUnitVersion "A" "1.0.0" "1.0.0".
Definition A2 : UnitVersion := newUnitVersion "A" "2.0.0" "2.0.0".
Definition B1 : UnitVersion := newUnitVersion "B" "1.0.0" "1.0.0".
Definition B2 : UnitVersion := newUnitVersion "B" "2.0.0" "2.0.0".

Definition A11 : UnitVersion := newUnitVersion "A" "1.1.0" "1.0.0".

(** A second object for A@1.0.0, with another ecv. *)
Definition A1' : UnitVersion := newUnitVersion "A" "1.0.0" "0.5.0".

(** A@1.0.0 depending on B and pinning B@=1.0.0 *)
Definition A_pins_B1 : UnitVersion :=
  {| uv_name := "A"; uv_version := "1.0.0"; uv_ecv := "1.0.0";
     uv_dependencies := ["B"]; uv_constraints := [exactly "B" "1.0.0"] |}.

(** C@1.0.0 depending on B and pinning B@=2.0.0 *)
Definition C_pins_B2 : UnitVersion :=
  {| uv_name := "C"; uv_version := "1.0.0"; uv_ecv := "1.0.0";
     uv_dependencies := ["B"]; uv_constraints := [exactly "B" "2.0.0"] |}.

(** A@1.0.0 depending on B, without a constraint on it *)
Definition A_needs_B : UnitVersion :=
  {| uv_name := "A"; uv_version := "1.0.0"; uv_ecv := "1.0.0";
     uv_dependencies := ["B"]; uv_constraints := [] |}.

(** A unit whose name has an "=" in it *)
Definition oddlyNamed : UnitVersion := newUnitVersion "a=b" "1.0.0" "1.0.0".

Definition twoVersions : Resolver := @registry Dotted.semver [A1; A2].

Definition conflicting : Resolver :=
  @registry Dotted.semver [A_pins_B1; C_pins_B2; B1; B2].

Definition pickThenPin : Resolver :=
  @registry Dotted.semver [B2; B1; A_pins_B1].

Definition missingB : Resolver := @registry Dotted.semver [A_needs_B; A2].

Definition oddNames : Resolver := @registry Dotted.semver [oddlyNamed].

(** The start state of [resolve(["A"])]: A is pending, nothing is chosen. *)
Definition pendingA : State.t :=
  {| State.dependencies := ["A"]; State.constraints := [];
     State.choices := [] |}.


Definition defaultSearch (rootDependencies : list string) : Search :=
  {| s_costFunction := defaultCostFunction;
     s_estimateCostFunction := defaultEstimateCostFunction;
     s_combineCostFunction := defaultCombineCostFunction;
     s_opts := {| rootDependencies := rootDependencies |} |}.

(** X@1.0.0 and Y@1.0.0 depend on and pin each other. *)
Definition X_pins_Y : UnitVersion :=
  {| uv_name := "X"; uv_version := "1.0.0"; uv_ecv := "1.0.0";
     uv_dependencies := ["Y"]; uv_constraints := [exactly "Y" "1.0.0"] |}.

Definition Y_pins_X : UnitVersion :=
  {| uv_name := "Y"; uv_version := "1.0.0"; uv_ecv := "1.0.0";
     uv_dependencies := ["X"]; uv_constraints := [exactly "X" "1.0.0"] |}.

Definition cyclic : Resolver := @registry Dotted.semver [X_pins_Y; Y_pins_X].

(** A rank for [pickThenPin]: B's unit versions pin nothing, A@1.0.0 pins
    one of them, any other unit version is above. *)
Definition pinRank (u : UnitVersion) : nat :=
  if bool_decide (u ∈ [B1; B2]) then 0
  else if bool_decide (u = A_pins_B1) then 1 else 2.

(** Options with a cost function that always answers [Infinity]. *)
Definition infiniteCost : Options :=
  {| costFunction := Some (fun _ _ => Infinity); estimateCostFunction := None;
     combineCostFunction := None; stopAfterFirstPropagation := false |}.

(** A is pending under the root's pin B@=2.0.0. *)
Definition pendingA_pinnedB2 : State.t :=
  {| State.dependencies := ["A"]; State.constraints := [exactly "B" "2.0.0"];
     State.choices := [] |}.

Definition firstPropagationOnly : Options :=
  {| costFunction := None; estimateCostFunction := None;
     combineCostFunction := None; stopAfterFirstPropagation := true |}.

End Example.

(** * Properties *)

(** ** The priority queue *)

Lemma number_compare_refl c : number_compare c c = Eq.
Proof. destruct c; simpl; [apply Z.compare_refl|done]. Qed.

Lemma priority_ltb_leb p q :
  PriorityQueue.ltb p q = true -> PriorityQueue.leb p q = true.
Proof.
  unfold PriorityQueue.ltb, PriorityQueue.leb.
  by destruct (PriorityQueue.compare p q).
Qed.

Lemma priority_not_ltb_leb p q :
  PriorityQueue.ltb p q = false -> PriorityQueue.leb q p = true.
Proof.
  unfold PriorityQueue.ltb, PriorityQueue.leb, PriorityQueue.compare.
  destruct p as [[x|] n], q as [[y|] m]; simpl; try done.
  - rewrite (Z.compare_antisym x y), (Z.compare_antisym n m).
    by destruct (x ?= y)%Z, (n ?= m)%Z.
  - rewrite (Z.compare_antisym n m). by destruct (n ?= m)%Z.
Qed.

Lemma priority_leb_trans p q r :
  PriorityQueue.leb p q = true -> PriorityQueue.leb q r = true ->
  PriorityQueue.leb p r = true.
Proof.
  unfold PriorityQueue.leb, PriorityQueue.compare.
  destruct p as [[x|] n], q as [[y|] m], r as [[z|] k]; simpl; try done;
    repeat match goal with
           | |- context [(?a ?= ?b)%Z] => destruct (Z.compare_spec a b)
           end; try done; lia.
Qed.

Lemma priority_leb_refl p : PriorityQueue.leb p p = true.
Proof.
  unfold PriorityQueue.leb, PriorityQueue.compare.
  by rewrite number_compare_refl, Z.compare_refl.
Qed.

Lemma extractMin_spec {A} (best : A * PriorityQueue.priority) rest :
  best :: rest ≡ₚ (PriorityQueue.extractMin best rest).1
                   :: (PriorityQueue.extractMin best rest).2
  /\ forall y, y ∈ best :: rest ->
       PriorityQueue.leb (PriorityQueue.extractMin best rest).1.2 y.2 = true.
Proof.
  revert best. induction rest as [|y rest IH]; intros best; simpl.
  - split; [done|]. intros z ->%list_elem_of_singleton. apply priority_leb_refl.
  - destruct (PriorityQueue.ltb y.2 best.2) eqn:Hlt; simpl;
      destruct (IH y) as [Py My], (IH best) as [Pb Mb].
    + split.
      * rewrite Py. apply Permutation_swap.
      * intros z [->|Hz]%elem_of_cons; [|by apply My].
        eapply priority_leb_trans; [apply My; left|by apply priority_ltb_leb].
    + split.
      * etrans; [apply Permutation_swap|]. rewrite Pb. apply Permutation_swap.
      * intros z [->|[->|Hz]%elem_of_cons]%elem_of_cons.
        -- apply Mb. left.
        -- eapply priority_leb_trans; [apply Mb; left|].
           by apply priority_not_ltb_leb.
        -- apply Mb. by right.
Qed.

Lemma pop_spec {A} (pq : PriorityQueue.t A) item rest :
  PriorityQueue.pop pq = Some (item, rest) ->
  pq ≡ₚ item :: rest
  /\ forall other, other ∈ pq -> PriorityQueue.leb item.2 other.2 = true.
Proof.
  destruct pq as [|x pq]; simpl; [done|]. intros [= E].
  pose proof (extractMin_spec x pq) as [P M]. rewrite E in P, M. done.
Qed.

Lemma pushNeighbors_spec sc pq ns :
  pushNeighbors sc pq ns =
  pq ++ ((fun state =>
            (state, (combinedCost sc state,
                     (- Z.of_nat (length (State.choices state)))%Z))) <$> ns).
Proof.
  unfold pushNeighbors. revert pq. induction ns as [|n ns IH]; intros pq; simpl.
  - by rewrite app_nil_r.
  - rewrite IH. unfold PriorityQueue.push. by rewrite <- app_assoc.
Qed.

(** ** Membership in the containers *)

Lemma ConstraintsList_elem_of_push l c x :
  x ∈ ConstraintsList.push l c <-> x ∈ l \/ x = c.
Proof.
  unfold ConstraintsList.push, ConstraintsList.contains.
  case_bool_decide; [|set_solver]. split; [auto|]. intros [?| ->]; done.
Qed.

Lemma ConstraintsList_elem_of_union a b x :
  x ∈ ConstraintsList.union a b <-> x ∈ a \/ x ∈ b.
Proof.
  unfold ConstraintsList.union. revert a.
  induction b as [|c b IH]; intros a; simpl; [set_solver|].
  rewrite IH, ConstraintsList_elem_of_push. set_solver.
Qed.

Lemma DependenciesList_elem_of_remove l d x :
  x ∈ DependenciesList.remove l d <-> x ∈ l /\ x <> d.
Proof.
  unfold DependenciesList.remove.
  rewrite list_elem_of_In, List.filter_In, <- list_elem_of_In.
  rewrite negb_true_iff. destruct (String.eqb_spec x d); naive_solver.
Qed.

Lemma elem_of_remove_names deps (chs : list UnitVersion) x :
  x ∈ foldl (fun deps u => DependenciesList.remove deps (uv_name u)) deps chs
  <-> x ∈ deps /\ forall u, u ∈ chs -> x <> uv_name u.
Proof.
  revert deps. induction chs as [|u chs IH]; intros deps; simpl.
  - set_solver.
  - rewrite IH, DependenciesList_elem_of_remove. set_solver.
Qed.

Lemma elem_of_uniq_aux seen l x :
  x ∈ uniq_aux seen l <-> x ∈ l /\ x ∉ seen.
Proof.
  revert seen. induction l as [|y l IH]; intros seen; simpl; [set_solver|].
  case_bool_decide as Hy.
  - rewrite IH. set_solver.
  - rewrite elem_of_cons, IH. destruct (decide (x = y)); set_solver.
Qed.

Lemma elem_of_js_union a b x : x ∈ js_union a b <-> x ∈ a \/ x ∈ b.
Proof. unfold js_union, uniq. rewrite elem_of_uniq_aux. set_solver. Qed.

Lemma elem_of_constraints_of (l : list UnitVersion) acc c :
  c ∈ foldl (fun acc u => ConstraintsList.union acc (uv_constraints u)) acc l
  <-> c ∈ acc \/ exists u, u ∈ l /\ c ∈ uv_constraints u.
Proof.
  revert acc. induction l as [|u l IH]; intros acc; simpl; [set_solver|].
  rewrite IH, ConstraintsList_elem_of_union. set_solver.
Qed.

Lemma elem_of_transitiveConstraintsOf vs uv c :
  c ∈ transitiveConstraintsOf vs uv
  <-> c ∈ uv_constraints uv \/ exists w, w ∈ vs /\ c ∈ uv_constraints w.
Proof.
  unfold transitiveConstraintsOf. rewrite elem_of_constraints_of.
  unfold ConstraintsList.empty. setoid_rewrite elem_of_js_union. set_solver.
Qed.

Lemma elem_of_exact_filter (deps : DependenciesList.t) cs c :
  c ∈ List.filter
        (fun c => c_exact c && DependenciesList.contains deps (c_name c)) cs ->
  c ∈ cs /\ c_exact c = true.
Proof.
  rewrite list_elem_of_In, List.filter_In, <- list_elem_of_In.
  intros [? [? _]%andb_true_iff]. done.
Qed.

Lemma elem_of_enqueueAll queue isEnqueued exactDeps x :
  x ∈ (enqueueAll queue isEnqueued exactDeps).1 -> x ∈ queue \/ x ∈ exactDeps.
Proof.
  unfold enqueueAll. revert queue isEnqueued.
  induction exactDeps as [|d ds IH]; intros queue enq; simpl; [auto|].
  case_bool_decide; intros Hx%IH; simpl in *; set_solver.
Qed.

Lemma DependenciesList_elem_of_push l d x :
  x ∈ DependenciesList.push l d <-> x ∈ l \/ x = d.
Proof.
  unfold DependenciesList.push, DependenciesList.contains.
  case_bool_decide; [|set_solver]. split; [auto|]. intros [?| ->]; done.
Qed.

Lemma ConstraintsList_elem_of_fromArray a x :
  x ∈ ConstraintsList.fromArray a <-> x ∈ a.
Proof.
  unfold ConstraintsList.fromArray.
  change (foldl ConstraintsList.push ConstraintsList.empty a)
    with (ConstraintsList.union ConstraintsList.empty a).
  rewrite ConstraintsList_elem_of_union. unfold ConstraintsList.empty.
  set_solver.
Qed.

Lemma NoDup_fmap_eq {A B} (f : A -> B) (l : list A) x y :
  NoDup (f <$> l) -> x ∈ l -> y ∈ l -> f x = f y -> x = y.
Proof.
  induction l as [|z l IH]; simpl; [by intros _ ?%not_elem_of_nil|].
  rewrite NoDup_cons. intros [Hz Hl] [->|Hx]%elem_of_cons [->|Hy]%elem_of_cons E.
  - done.
  - exfalso. apply Hz. rewrite E. apply list_elem_of_fmap. eauto.
  - exfalso. apply Hz. rewrite <- E. apply list_elem_of_fmap. eauto.
  - by apply IH.
Qed.

(** ** More fuel does not change a result *)

Lemma settles_refl {A} (m : outcome A) : settles m m.
Proof. by right. Qed.

Lemma settles_bind {A B} (m m' : outcome A) (f f' : A -> outcome B) :
  settles m m' -> (forall a, settles (f a) (f' a)) ->
  settles (m ≫= f) (m' ≫= f').
Proof.
  intros [->| ->] Hf; [by left|]. destruct m as [a| |]; simpl; [apply Hf|..];
    by right.
Qed.

Lemma settles_foldM {A B} (f f' : B -> A -> outcome B) acc l :
  (forall a x, settles (f a x) (f' a x)) ->
  settles (foldM f acc l) (foldM f' acc l).
Proof.
  intros Hf. revert acc. induction l as [|x l IH]; intros acc; simpl.
  - apply settles_refl.
  - apply settles_bind; [apply Hf|apply IH].
Qed.

Lemma settles_mapM {A B} (f f' : A -> outcome B) l :
  (forall x, settles (f x) (f' x)) -> settles (mapM f l) (mapM f' l).
Proof.
  intros Hf. induction l as [|x l IH]; simpl.
  - apply settles_refl.
  - apply settles_bind; [apply Hf|]. intros y.
    apply settles_bind; [apply IH|]. intros k. apply settles_refl.
Qed.

Lemma settles_result {A} (m m' : outcome A) a :
  settles m m' -> m = Return a -> m' = Return a.
Proof. intros [->| ->]; [done|auto]. Qed.

Lemma settles_thrown {A} (m m' : outcome A) msg :
  settles m m' -> m = Throw msg -> m' = Throw msg.
Proof. intros [->| ->]; [done|auto]. Qed.

Section Properties.

Context `{SemVer}.

(** ** The semver order *)

Lemma semver_compare_refl a : semver_compare a a = Eq.
Proof.
  pose proof (semver_compare_antisym a a) as E.
  destruct (semver_compare a a); simpl in E; congruence.
Qed.

Lemma semver_lte_refl a : semver_lte a a = true.
Proof. unfold semver_lte. by rewrite semver_compare_refl. Qed.

Lemma semver_lt_irrefl a : semver_lt a a = false.
Proof. unfold semver_lt. by rewrite semver_compare_refl. Qed.

Lemma semver_lt_lte a b : semver_lt a b = true -> semver_lte a b = true.
Proof. unfold semver_lt, semver_lte. by destruct (semver_compare a b). Qed.

Lemma semver_not_lt_lte a b : semver_lt a b = false -> semver_lte b a = true.
Proof.
  unfold semver_lt, semver_lte. rewrite (semver_compare_antisym a b).
  by destruct (semver_compare a b).
Qed.

Lemma semver_lte_not_lt a b : semver_lte b a = true -> semver_lt a b = false.
Proof.
  unfold semver_lt, semver_lte. rewrite (semver_compare_antisym a b).
  by destruct (semver_compare a b).
Qed.

Lemma semver_lte_trans a b c :
  semver_lte a b = true -> semver_lte b c = true -> semver_lte a c = true.
Proof.
  unfold semver_lte. intros Hab Hbc.
  pose proof (semver_compare_trans a b c) as T.
  destruct (semver_compare a b), (semver_compare b c), (semver_compare a c);
    try done; exfalso; by apply T.
Qed.

(** ** The maximum of the versions added *)

Lemma maxVersion_snoc l w :
  maxVersion (l ++ [w]) =
  Some (match maxVersion l with
        | None => w
        | Some m => if semver_lt m w then w else m
        end).
Proof. destruct l as [|v l]; simpl; [done|]. by rewrite foldl_app. Qed.

Lemma maxVersion_None l : maxVersion l = None <-> l = [].
Proof. by destruct l. Qed.

Lemma maxVersion_spec l m :
  maxVersion l = Some m ->
  m ∈ l /\ forall w, w ∈ l -> semver_lte w m = true.
Proof.
  revert m. induction l as [|w l IH] using rev_ind; intros m; [done|].
  rewrite maxVersion_snoc. intros [= <-].
  destruct (maxVersion l) as [m0|] eqn:E.
  - destruct (IH m0 eq_refl) as [Hin Hub].
    destruct (semver_lt m0 w) eqn:Hlt.
    + split; [set_solver|]. intros x [Hx| ->%list_elem_of_singleton]%elem_of_app.
      * eapply semver_lte_trans; [by apply Hub|by apply semver_lt_lte].
      * apply semver_lte_refl.
    + split; [set_solver|]. intros x [Hx| ->%list_elem_of_singleton]%elem_of_app.
      * by apply Hub.
      * by apply semver_not_lt_lte.
  - apply maxVersion_None in E as ->. split; [set_solver|].
    intros x ->%list_elem_of_singleton. apply semver_lte_refl.
Qed.

Lemma versionsAdded_snoc n uvs uv :
  versionsAdded n (uvs ++ [uv]) =
  versionsAdded n uvs ++ (if String.eqb (uv_name uv) n then [uv_version uv] else []).
Proof.
  unfold versionsAdded. rewrite List.filter_app, fmap_app. simpl.
  by destruct (String.eqb (uv_name uv) n).
Qed.

Lemma versionsAdded_elem n uvs v :
  v ∈ versionsAdded n uvs <->
  exists uv, uv ∈ uvs /\ uv_name uv = n /\ uv_version uv = v.
Proof.
  unfold versionsAdded. rewrite list_elem_of_fmap. split.
  - intros (uv & -> & Hin). apply list_elem_of_In, List.filter_In in Hin as [Hin E].
    apply String.eqb_eq in E. exists uv. by rewrite list_elem_of_In.
  - intros (uv & Hin & Hn & Hv). exists uv. split; [done|].
    apply list_elem_of_In, List.filter_In. split; [by apply list_elem_of_In|].
    by apply String.eqb_eq.
Qed.

Lemma firstPrinted_snoc k uvs uv :
  firstPrinted k (uvs ++ [uv]) =
  match firstPrinted k uvs with
  | Some first => Some first
  | None => if String.eqb (UnitVersion_toString uv) k then Some uv else None
  end.
Proof.
  unfold firstPrinted. induction uvs as [|x uvs IH]; simpl.
  - done.
  - by destruct (String.eqb (UnitVersion_toString x) k).
Qed.

Lemma registry_snoc uvs uv :
  registry (uvs ++ [uv]) = addUnitVersion (registry uvs) uv.
Proof. unfold registry. by rewrite foldl_app. Qed.

(** ** The registry *)

Lemma addUnitVersion_unitsVersions r uv name :
  unitsVersions (addUnitVersion r uv) !! name
  = if decide (name = uv_name uv) then
      Some (default [] (unitsVersions r !! name)
            ++ match _unitsVersionsMap r !! UnitVersion_toString uv with
               | Some _ => []
               | None => [uv]
               end)
    else unitsVersions r !! name.
Proof.
  unfold addUnitVersion. case_decide as Hn; [subst name|].
  - destruct (unitsVersions r !! uv_name uv) as [l|] eqn:E1; simpl;
      destruct (_unitsVersionsMap r !! UnitVersion_toString uv) eqn:E2; simpl.
    + destruct (_latestVersion r !! uv_name uv); [case_match|]; simpl;
        by rewrite E1, app_nil_r.
    + destruct (_latestVersion r !! uv_name uv); [case_match|]; simpl;
        by rewrite lookup_alter_eq, E1.
    + rewrite lookup_insert_eq, semver_lt_irrefl. simpl.
      by rewrite lookup_insert_eq.
    + rewrite lookup_insert_eq, semver_lt_irrefl. simpl.
      by rewrite lookup_alter_eq, lookup_insert_eq.
  - repeat case_match; simpl;
      rewrite ?lookup_alter_ne, ?lookup_insert_ne by done; done.
Qed.

Lemma addUnitVersion_unitsVersions_None r uv n :
  unitsVersions (addUnitVersion r uv) !! n = None <->
  unitsVersions r !! n = None /\ n <> uv_name uv.
Proof. rewrite addUnitVersion_unitsVersions. case_decide; naive_solver. Qed.

Lemma addUnitVersion_map r uv k :
  _unitsVersionsMap (addUnitVersion r uv) !! k =
  match _unitsVersionsMap r !! k with
  | Some first => Some first
  | None => if String.eqb (UnitVersion_toString uv) k then Some uv else None
  end.
Proof.
  unfold addUnitVersion.
  destruct (String.eqb_spec (UnitVersion_toString uv) k) as [<-|Hne];
  repeat case_match; simpl in *; simplify_map_eq; try done.
Qed.

Lemma addUnitVersion_latest r uv n :
  _latestVersion (addUnitVersion r uv) !! n =
  if String.eqb (uv_name uv) n then
    match unitsVersions r !! n with
    | None => Some (uv_version uv)
    | Some _ =>
        match _latestVersion r !! n with
        | Some latest =>
            Some (if semver_lt latest (uv_version uv) then uv_version uv else latest)
        | None => None
        end
    end
  else _latestVersion r !! n.
Proof.
  unfold addUnitVersion.
  destruct (String.eqb_spec (uv_name uv) n) as [<-|Hne];
  repeat case_match; simpl in *; simplify_map_eq; try done.
  all: try (rewrite semver_lt_irrefl in *; done).
  all: congruence.
Qed.

Lemma addUnitVersion_constraints r uv :
  _constraints (addUnitVersion r uv) = _constraints r.
Proof. unfold addUnitVersion. by repeat case_match. Qed.

Lemma registry_inv uvs :
  (forall n, unitsVersions (registry uvs) !! n = None <-> versionsAdded n uvs = [])
  /\ (forall k, _unitsVersionsMap (registry uvs) !! k = firstPrinted k uvs)
  /\ (forall n, _latestVersion (registry uvs) !! n = maxVersion (versionsAdded n uvs))
  /\ _constraints (registry uvs) = ∅.
Proof.
  induction uvs as [|uv uvs (I1 & I2 & I3 & I4)] using rev_ind.
  { by repeat split. }
  rewrite registry_snoc. repeat split.
  - rewrite addUnitVersion_unitsVersions_None, I1, versionsAdded_snoc.
    destruct (String.eqb_spec (uv_name uv) n) as [<-|Hne].
    + intros [_ ?]; done.
    + intros [-> _]. done.
  - rewrite addUnitVersion_unitsVersions_None, I1, versionsAdded_snoc.
    destruct (String.eqb_spec (uv_name uv) n) as [<-|Hne].
    + by intros [? [=]]%app_eq_nil.
    + intros [? _]%app_eq_nil. split; congruence.
  - intros k. by rewrite addUnitVersion_map, I2, firstPrinted_snoc.
  - intros n. rewrite addUnitVersion_latest, versionsAdded_snoc.
    destruct (String.eqb_spec (uv_name uv) n) as [<-|Hne].
    + rewrite maxVersion_snoc, <- I3.
      destruct (unitsVersions (registry uvs) !! uv_name uv) as [l|] eqn:E.
      * destruct (_latestVersion (registry uvs) !! uv_name uv) eqn:E'; [done|].
        rewrite I3 in E'. apply maxVersion_None, I1 in E'. congruence.
      * apply I1 in E. rewrite I3, E. done.
    + by rewrite app_nil_r.
  - by rewrite addUnitVersion_constraints.
Qed.

Lemma addUnitVersion_id r uv l u m :
  unitsVersions r !! uv_name uv = Some l ->
  _unitsVersionsMap r !! UnitVersion_toString uv = Some u ->
  _latestVersion r !! uv_name uv = Some m ->
  semver_lt m (uv_version uv) = false ->
  addUnitVersion r uv = r.
Proof.
  intros E1 E2 E3 E4. unfold addUnitVersion. rewrite E1. simpl.
  rewrite E2. simpl. by rewrite E3, E4.
Qed.

Lemma noAt_append a b : noAt (a +:+ String "@"%char b) = false.
Proof.
  induction a as [|c a IH]; simpl; [done|].
  rewrite IH. apply andb_false_r.
Qed.

Lemma printed_inj n1 v1 n2 v2 :
  noAt v1 = true -> noAt v2 = true ->
  n1 +:+ "@" +:+ v1 = n2 +:+ "@" +:+ v2 -> n1 = n2 /\ v1 = v2.
Proof.
  intros H1 H2. revert n2. change ("@" +:+ v1) with (String "@"%char v1).
  change ("@" +:+ v2) with (String "@"%char v2).
  induction n1 as [|c n1 IH]; intros [|d n2]; simpl; intros E.
  - by injection E.
  - injection E as <- ->. by rewrite noAt_append in H1.
  - injection E as -> <-. by rewrite noAt_append in H2.
  - injection E as -> E. destruct (IH _ E) as [-> ->]. done.
Qed.

Lemma firstPrinted_Some k uvs first :
  firstPrinted k uvs = Some first ->
  first ∈ uvs /\ UnitVersion_toString first = k.
Proof.
  unfold firstPrinted. intros [Hin E]%List.find_some.
  split; [by apply list_elem_of_In|by apply String.eqb_eq].
Qed.

Lemma firstPrinted_is_Some uvs uv :
  uv ∈ uvs -> is_Some (firstPrinted (UnitVersion_toString uv) uvs).
Proof.
  intros Hin. unfold firstPrinted.
  destruct (List.find _ uvs) eqn:E; [by eexists|].
  eapply List.find_none in E; [|by apply list_elem_of_In].
  by rewrite String.eqb_refl in E.
Qed.

Lemma registered_same_name_version uvs uv0 uv :
  uv0 ∈ uvs -> uv_name uv = uv_name uv0 -> uv_version uv = uv_version uv0 ->
  addUnitVersion (registry uvs) uv = registry uvs.
Proof.
  intros Hin Hn Hv. destruct (registry_inv uvs) as (I1 & I2 & I3 & _).
  assert (Hk : UnitVersion_toString uv = UnitVersion_toString uv0)
    by (unfold UnitVersion_toString; congruence).
  assert (Hv0 : uv_version uv ∈ versionsAdded (uv_name uv) uvs)
    by (apply versionsAdded_elem; exists uv0; done).
  destruct (unitsVersions (registry uvs) !! uv_name uv) as [l|] eqn:E1.
  2:{ apply I1 in E1. rewrite E1 in Hv0. by apply not_elem_of_nil in Hv0. }
  destruct (firstPrinted_is_Some uvs uv0 Hin) as [u E2].
  rewrite <- Hk, <- I2 in E2.
  destruct (maxVersion (versionsAdded (uv_name uv) uvs)) as [m|] eqn:E3.
  2:{ apply maxVersion_None in E3. rewrite E3 in Hv0.
      by apply not_elem_of_nil in Hv0. }
  destruct (maxVersion_spec _ _ E3) as [_ Hub].
  rewrite <- I3 in E3.
  eapply addUnitVersion_id; [done..|].
  apply semver_lte_not_lt. by apply Hub.
Qed.

(** C4. [isSatisfied] of an exact constraint holds iff the unit version's
    version equals the constraint's, whatever its ecv; of an inexact one iff
    the constraint's version is at most the unit version's and the unit
    version's ecv is at most the constraint's version, in the semver
    order. *)
Theorem isSatisfied_spec (c : Constraint) (uv : UnitVersion) :
  if c_exact c
  then (isSatisfied c uv = true <-> uv_version uv = c_version c)
       /\ (forall ecv',
             isSatisfied c {| uv_name := uv_name uv; uv_version := uv_version uv;
                              uv_ecv := ecv';
                              uv_dependencies := uv_dependencies uv;
                              uv_constraints := uv_constraints uv |}
             = isSatisfied c uv)
  else isSatisfied c uv = true <->
       semver_lte (c_version c) (uv_version uv) = true
       /\ semver_lte (uv_ecv uv) (c_version c) = true.
Proof.
  unfold isSatisfied. destruct (c_exact c).
  - split; [|done]. rewrite bool_decide_eq_true. split; congruence.
  - apply andb_true_iff.
Qed.

(** C7. [addUnitVersion] is idempotent on [toString]: on a registry built
    by [addUnitVersion] calls, a second call with a unit version changes
    nothing, and neither does a call whose "name@version" is already
    registered (version strings are semver strings, which have no "@", so
    that the printed form determines name and version); a first insertion
    appends the unit version to
    [unitsVersions[name]] and interns it; and after any sequence of calls
    [_latestVersion[name]] is the maximum of the versions added for that
    name. *)
Theorem addUnitVersion_idempotent_and_latest :
  (forall uvs uv,
     uv ∈ uvs -> addUnitVersion (registry uvs) uv = registry uvs)
  /\ (forall uvs uv,
        Forall (fun u => noAt (uv_version u) = true) (uv :: uvs) ->
        is_Some (_unitsVersionsMap (registry uvs) !! UnitVersion_toString uv) ->
        addUnitVersion (registry uvs) uv = registry uvs)
  /\ (forall r uv,
        _unitsVersionsMap r !! UnitVersion_toString uv = None ->
        unitsVersions (addUnitVersion r uv) !! uv_name uv
        = Some (default [] (unitsVersions r !! uv_name uv) ++ [uv])
        /\ _unitsVersionsMap (addUnitVersion r uv) !! UnitVersion_toString uv
           = Some uv)
  /\ (forall uvs name,
        _latestVersion (registry uvs) !! name
        = maxVersion (versionsAdded name uvs))
  /\ (forall uvs name latest,
        _latestVersion (registry uvs) !! name = Some latest ->
        (exists uv, uv ∈ uvs /\ uv_name uv = name /\ uv_version uv = latest)
        /\ (forall uv, uv ∈ uvs -> uv_name uv = name ->
                       semver_lte (uv_version uv) latest = true))
  /\ (forall uvs uv,
        uv ∈ uvs -> is_Some (_latestVersion (registry uvs) !! uv_name uv)).
Proof.
  split; [|split; [|split; [|split; [|split]]]].
  - intros uvs uv Hin. by eapply registered_same_name_version.
  - intros uvs uv Hvalid [u Hu].
    destruct (registry_inv uvs) as (_ & I2 & _).
    rewrite I2 in Hu. apply firstPrinted_Some in Hu as [Hin Hk].
    apply Forall_cons in Hvalid as [Huv Huvs].
    rewrite Forall_forall in Huvs.
    destruct (printed_inj _ _ _ _ (Huvs _ Hin) Huv Hk) as [Hn Hv].
    by eapply registered_same_name_version.
  - intros r uv Hnew. unfold addUnitVersion.
    destruct (unitsVersions r !! uv_name uv) as [l|] eqn:E1; simpl;
      rewrite Hnew; simpl.
    + destruct (_latestVersion r !! uv_name uv) as [m|]; [case_match|]; simpl;
        by rewrite lookup_alter_eq, E1, lookup_insert_eq.
    + rewrite lookup_insert_eq, semver_lt_irrefl. simpl.
      by rewrite lookup_alter_eq, !lookup_insert_eq.
  - intros uvs name. apply registry_inv.
  - intros uvs name latest Hl.
    destruct (registry_inv uvs) as (_ & _ & I3 & _). rewrite I3 in Hl.
    apply maxVersion_spec in Hl as [Hin Hub]. split.
    + by apply versionsAdded_elem.
    + intros uv Huv Hn. apply Hub, versionsAdded_elem. by exists uv.
  - intros uvs uv Hin.
    destruct (registry_inv uvs) as (_ & _ & I3 & _). rewrite I3.
    destruct (maxVersion _) eqn:E; [by eexists|].
    apply maxVersion_None in E.
    assert (Hv : uv_version uv ∈ versionsAdded (uv_name uv) uvs)
      by (apply versionsAdded_elem; by exists uv).
    rewrite E in Hv. by apply not_elem_of_nil in Hv.
Qed.

(** C9. Adding a unit version with the name and version of one that is
    already registered leaves the registry as it is, the interning map still
    holding the first one registered under that "name@version"; on any
    registry where the name and the printed form are present, only
    [_latestVersion[name]] can be written. *)
Theorem addUnitVersion_first_write_wins :
  (forall uvs uv0 uv,
     uv0 ∈ uvs -> uv_name uv = uv_name uv0 -> uv_version uv = uv_version uv0 ->
     addUnitVersion (registry uvs) uv = registry uvs
     /\ exists first,
          firstPrinted (UnitVersion_toString uv) uvs = Some first
          /\ _unitsVersionsMap (addUnitVersion (registry uvs) uv)
               !! UnitVersion_toString uv = Some first)
  /\ (forall r uv,
        is_Some (unitsVersions r !! uv_name uv) ->
        is_Some (_unitsVersionsMap r !! UnitVersion_toString uv) ->
        unitsVersions (addUnitVersion r uv) = unitsVersions r
        /\ _unitsVersionsMap (addUnitVersion r uv) = _unitsVersionsMap r
        /\ _constraints (addUnitVersion r uv) = _constraints r
        /\ forall name, name <> uv_name uv ->
             _latestVersion (addUnitVersion r uv) !! name
             = _latestVersion r !! name).
Proof.
  split.
  - intros uvs uv0 uv Hin Hn Hv.
    rewrite (registered_same_name_version uvs uv0 uv Hin Hn Hv).
    split; [done|].
    destruct (registry_inv uvs) as (_ & I2 & _). rewrite I2.
    assert (Hk : UnitVersion_toString uv = UnitVersion_toString uv0)
      by (unfold UnitVersion_toString; congruence).
    rewrite Hk. destruct (firstPrinted_is_Some uvs uv0 Hin) as [u Hu].
    by exists u.
  - intros r uv [l E1] [u E2]. unfold addUnitVersion.
    rewrite E1. simpl. rewrite E2. simpl.
    destruct (_latestVersion r !! uv_name uv) as [m|]; [case_match|]; simpl;
      repeat split; try done.
    intros name Hne. by rewrite lookup_insert_ne.
Qed.
(** ** Arrays without repeated entries *)

Lemma uniq_aux_spec l seen :
  NoDup (uniq_aux seen l) /\ forall x, x ∈ uniq_aux seen l -> x ∉ seen.
Proof.
  revert seen. induction l as [|x l IH]; intros seen; simpl.
  - split; [constructor|]. intros x Hx. by apply not_elem_of_nil in Hx.
  - case_bool_decide as Hseen; [apply IH|].
    destruct (IH (seen ++ [x])) as [Hnd Hout]. split.
    + constructor; [|done]. intros Hx. apply Hout in Hx. set_solver.
    + intros y [->|Hy]%elem_of_cons; [done|].
      apply Hout in Hy. set_solver.
Qed.

Lemma js_union_NoDup a b : NoDup (js_union a b).
Proof. apply uniq_aux_spec. Qed.

Lemma filter_NoDup {A} (f : A -> bool) (l : list A) :
  NoDup l -> NoDup (List.filter f l).
Proof.
  induction 1 as [|x l Hx Hl IH]; simpl; [constructor|].
  destruct (f x); [|done]. constructor; [|done].
  rewrite list_elem_of_In, List.filter_In, <- list_elem_of_In. tauto.
Qed.

Lemma bind_Return {A B} (m : outcome A) (f : A -> outcome B) b :
  m ≫= f = Return b -> exists a, m = Return a /\ f a = Return b.
Proof. destruct m; [by eexists|done..]. Qed.

Lemma mapM_Return {A B} (f : A -> outcome B) l states :
  mapM f l = Return states -> Forall2 (fun x s => f x = Return s) l states.
Proof.
  revert states. induction l as [|x l IH]; simpl; intros states E.
  - injection E as <-. constructor.
  - apply bind_Return in E as (y & Ey & E).
    apply bind_Return in E as (k & Ek & E). injection E as <-.
    constructor; [done|by apply IH].
Qed.

Lemma mapM_Return_Forall {A B} (f : A -> outcome B) (Q : B -> Prop) l states :
  (forall x s, f x = Return s -> Q s) ->
  mapM f l = Return states -> Forall Q states.
Proof.
  intros HQ E. apply mapM_Return in E.
  induction E as [|x s l' ss Hx _ IH]; constructor; [by eapply HQ|done].
Qed.

Lemma propagateBody_NoDup fuel r uv deps cs chs st exactDeps :
  propagateBody fuel r uv deps cs chs = Return (st, exactDeps) ->
  NoDup (State.choices st).
Proof.
  unfold propagateBody. intros E.
  apply bind_Return in E as (vs & _ & E).
  apply bind_Return in E as (ds & _ & E).
  apply bind_Return in E as (eds & _ & E).
  injection E as <- _. simpl. apply js_union_NoDup.
Qed.

Lemma propagateLoop_NoDup fuel r queue enq deps cs chs s :
  propagateLoop fuel r queue enq deps cs chs = Return s ->
  (queue = [] -> NoDup chs) ->
  NoDup (State.choices s).
Proof.
  revert queue enq deps cs chs.
  induction fuel as [|fuel IH]; intros [|uv queue] enq deps cs chs; simpl;
    try done.
  - intros [= <-] Hnd. by apply Hnd.
  - intros [= <-] Hnd. by apply Hnd.
  - intros E _. apply bind_Return in E as ([st eds] & Eb & E).
    apply IH in E; [done|]. intros _. by eapply propagateBody_NoDup.
Qed.

Lemma propagateExactTransDeps_NoDup fuel r uv deps cs chs s :
  _propagateExactTransDeps fuel r uv deps cs chs = Return s ->
  NoDup (State.choices s).
Proof. intros E. by eapply propagateLoop_NoDup. Qed.

Lemma startState_NoDup fuel r deps cs chs s :
  startState fuel r deps cs chs = Return s -> NoDup (State.choices s).
Proof.
  unfold startState. intros E.
  apply bind_Return in E as (s0 & E0 & E). injection E as <-. simpl.
  apply filter_NoDup. by eapply propagateExactTransDeps_NoDup.
Qed.

Lemma stateNeighbors_NoDup_valid fuel r st obj :
  _stateNeighbors fuel r st = Return obj ->
  Forall (fun s => NoDup (State.choices s) /\ stateIsValid s = true)
    (neighbors obj)
  /\ forall s, lastInvalidNeighbor obj = Some s -> NoDup (State.choices s).
Proof.
  unfold _stateNeighbors.
  destruct (candidateVersionsOf r st) as [|uv0 cands] eqn:Ec.
  { intros [= <-]. simpl. split; [constructor|done]. }
  intros E. apply bind_Return in E as (states & Em & E).
  assert (Hall : Forall (fun s => NoDup (State.choices s)) states).
  { eapply mapM_Return_Forall; [|exact Em]. intros x s Hx.
    exact (propagateExactTransDeps_NoDup _ _ _ _ _ _ _ Hx). }
  assert (Hvalid : Forall (fun s => NoDup (State.choices s)
                                    /\ stateIsValid s = true)
                     (List.filter stateIsValid states)).
  { apply Forall_forall. intros s Hs.
    apply list_elem_of_In, List.filter_In in Hs as [Hs Hv].
    split; [|done]. rewrite Forall_forall in Hall.
    by apply Hall, list_elem_of_In. }
  destruct (List.filter stateIsValid states) as [|n ns] eqn:En.
  + injection E as <-. simpl. split; [constructor|].
    intros s Hs. apply last_Some_elem_of in Hs.
    apply list_elem_of_In, List.filter_In in Hs as [Hs _].
    rewrite Forall_forall in Hall. by apply Hall, list_elem_of_In.
  + injection E as <-. simpl. split; [done|]. done.
Qed.

(** C3, as amended. The start state is pushed with the key
    [(combine(cost(choices), estimate(state)), 0)]; every state pushed by a
    turn of the loop is keyed by
    [(combine(cost(choices), estimate(state)), -|choices|)]; [pop] takes an
    item of smallest key, and of two keys with the same combined cost the one
    of the longer [choices] is the smaller. *)
Theorem priority_queue_keys :
  (forall sc startState,
     pushStart sc startState = [(startState, (combinedCost sc startState, 0%Z))])
  /\ (forall fuel r sc pq someError pq' someError',
        resolveStep fuel r sc pq someError = Continue pq' someError' ->
        forall state key,
          (state, key) ∈ pq' ->
          (state, key) ∈ pq
          \/ key = (combinedCost sc state,
                    (- Z.of_nat (length (State.choices state)))%Z))
  /\ (forall (pq : PriorityQueue.t State.t) item rest,
        PriorityQueue.pop pq = Some (item, rest) ->
        pq ≡ₚ item :: rest
        /\ forall other, other ∈ pq -> PriorityQueue.leb item.2 other.2 = true)
  /\ (forall cost (more fewer : nat),
        (fewer < more)%nat ->
        PriorityQueue.ltb (cost, (- Z.of_nat more)%Z) (cost, (- Z.of_nat fewer)%Z)
        = true).
Proof.
  split; [done|split; [|split]].
  - intros fuel r sc pq e pq' e' E state key Hin. unfold resolveStep in E.
    destruct (PriorityQueue.pop pq) as [[[cur k] rest]|] eqn:Ep; [|done].
    apply pop_spec in Ep as [Perm _].
    case_bool_decide; [done|].
    destruct (DependenciesList.isEmpty _); [done|].
    destruct (_stateNeighbors fuel r cur) as [obj| |]; [|done..].
    destruct (success obj); simpl in E; injection E as <- <-.
    + rewrite pushNeighbors_spec in Hin.
      apply elem_of_app in Hin as [Hin|Hin].
      * left. rewrite Perm. by right.
      * right. apply list_elem_of_fmap in Hin as (s & [= -> ->] & _). done.
    + left. rewrite Perm. by right.
  - intros pq item rest. apply pop_spec.
  - intros cost more fewer Hlt.
    unfold PriorityQueue.ltb, PriorityQueue.compare. simpl.
    rewrite number_compare_refl.
    destruct (Z.compare_spec (- Z.of_nat more) (- Z.of_nat fewer)); try done; lia.
Qed.

(** C10. [resolve] with [constraints] and [choices] omitted, [null] or
    [undefined] computes what it computes with empty arrays; each of the two
    arguments is read through [|| []]. *)
Theorem resolve_null_arguments fuel r deps options :
  resolve fuel r deps None None options
  = resolve fuel r deps (Some []) (Some []) options
  /\ forall constraints choices,
       resolve fuel r deps constraints choices options
       = resolve fuel r deps (Some (default [] constraints))
           (Some (default [] choices)) options.
Proof.
  split; [reflexivity|]. intros constraints choices.
  by destruct constraints, choices.
Qed.


(** ** Looking up the unit version of a constraint *)

Lemma replace_first_eq_exact name version :
  noEq name = true ->
  replace_first_eq (name +:+ "@" +:+ "=" +:+ version) = name +:+ "@" +:+ version.
Proof.
  intros Hname. induction name as [|c name IH]; simpl in *; [done|].
  apply andb_true_iff in Hname as [Hc Hname].
  apply negb_true_iff in Hc. rewrite Hc, IH by done. reflexivity.
Qed.

Lemma getSatisfyingUnitVersion_exact c r :
  c_exact c = true -> noEq (c_name c) = true ->
  getSatisfyingUnitVersion c r
  = _unitsVersionsMap r !! (c_name c +:+ "@" +:+ c_version c).
Proof.
  intros He Hname. unfold getSatisfyingUnitVersion, Constraint_toString.
  rewrite He. by rewrite replace_first_eq_exact.
Qed.

Lemma getSatisfyingUnitVersion_inexact c r :
  c_exact c = false ->
  getSatisfyingUnitVersion c r
  = match unitsVersions r !! c_name c with
    | Some registered => List.find (isSatisfied c) registered
    | None => None
    end.
Proof. intros He. unfold getSatisfyingUnitVersion. by rewrite He. Qed.

Lemma getSatisfyingUnitVersion_inexact_first c r registered :
  c_exact c = false ->
  unitsVersions r !! c_name c = Some registered ->
  match getSatisfyingUnitVersion c r with
  | Some uv =>
      exists before after,
        registered = before ++ uv :: after
        /\ isSatisfied c uv = true
        /\ Forall (fun u => isSatisfied c u = false) before
  | None => Forall (fun u => isSatisfied c u = false) registered
  end.
Proof.
  intros He Hreg. rewrite getSatisfyingUnitVersion_inexact, Hreg by done.
  clear Hreg. induction registered as [|u l IH]; simpl; [constructor|].
  destruct (isSatisfied c u) eqn:Hu.
  - exists [], l. by repeat split.
  - destruct (List.find (isSatisfied c) l) as [uv|].
    + destruct IH as (before & after & -> & Huv & Hb).
      exists (u :: before), after. repeat split; [done|]. by constructor.
    + by constructor.
Qed.

(** ** Errors of propagation *)

Lemma satisfyingOrThrow_Some r c uv :
  getSatisfyingUnitVersion c r = Some uv -> satisfyingOrThrow r c = Return uv.
Proof. unfold satisfyingOrThrow. by intros ->. Qed.




(** ** Names of the choices *)

(** ** Folds that may throw *)

Lemma foldM_inv {A B} (P : B -> Prop) (f : B -> A -> outcome B) acc l b :
  P acc ->
  (forall a x b', x ∈ l -> P a -> f a x = Return b' -> P b') ->
  foldM f acc l = Return b -> P b.
Proof.
  revert acc. induction l as [|x l IH]; intros acc Hacc Hstep; simpl.
  - by intros [= <-].
  - intros (acc' & Ex & E)%bind_Return. eapply IH; [| |done].
    + eapply Hstep; [left|done..].
    + intros a y b' Hy. apply Hstep. by right.
Qed.

Lemma collect_satisfying r acc l uvs :
  foldM (fun uvs c => uv ← satisfyingOrThrow r c; Return (uvs ++ [uv])) acc l
  = Return uvs ->
  exists found,
    uvs = acc ++ found
    /\ Forall2 (fun c uv => getSatisfyingUnitVersion c r = Some uv) l found.
Proof.
  revert acc. induction l as [|c l IH]; intros acc; simpl.
  - intros [= <-]. exists []. by rewrite app_nil_r.
  - intros (acc' & Ec & E)%bind_Return.
    apply bind_Return in Ec as (uv & Euv & [= <-]).
    apply IH in E as (found & -> & Hf). exists (uv :: found).
    split; [by rewrite <- app_assoc|]. constructor; [|done].
    unfold satisfyingOrThrow in Euv.
    destruct (getSatisfyingUnitVersion c r); by simplify_eq.
Qed.

(** ** Where the choices of a propagated state come from *)

Lemma exactTransitiveConstraints_origin fuel r u E :
  _exactTransitiveConstraints fuel r u = Return E ->
  forall c, c ∈ E ->
    c_exact c = true
    /\ (c ∈ uv_constraints u
        \/ exists c' w, c' ∈ E /\ getSatisfyingUnitVersion c' r = Some w
                        /\ c ∈ uv_constraints w).
Proof.
  revert u E. induction fuel as [|fuel IH]; intros u E; simpl; [done|].
  set (E0 := exactConstraintsIntersection (uv_dependencies u) (uv_constraints u)).
  intros HE.
  apply (foldM_inv (fun acc =>
    (forall c, c ∈ E0 -> c ∈ acc)
    /\ forall c, c ∈ acc ->
      c_exact c = true
      /\ (c ∈ uv_constraints u
          \/ exists c' w, c' ∈ acc /\ getSatisfyingUnitVersion c' r = Some w
                          /\ c ∈ uv_constraints w))) in HE; [by apply HE| |].
  - split; [done|]. intros c [Hc He]%elem_of_exact_filter. auto.
  - intros acc c0 acc' Hc0 [Hsub Hacc] E'.
    apply bind_Return in E' as (w0 & Ew0 & E').
    apply bind_Return in E' as (sub & Esub & [= <-]).
    unfold satisfyingOrThrow in Ew0.
    destruct (getSatisfyingUnitVersion c0 r) as [w|] eqn:Ew; simplify_eq.
    split.
    { intros c Hc. apply ConstraintsList_elem_of_union. auto. }
    intros c [Hc|Hc]%ConstraintsList_elem_of_union.
    + destruct (Hacc c Hc) as [He [Hu|(c' & w & Hc' & Hw & Hcw)]].
      * auto.
      * split; [done|]. right. exists c', w. split; [|done].
        apply ConstraintsList_elem_of_union. auto.
    + destruct (IH _ _ Esub c Hc) as [He [Hu|(c' & w & Hc' & Hw & Hcw)]].
      * split; [done|]. right. exists c0, w0. split; [|done].
        apply ConstraintsList_elem_of_union. auto.
      * split; [done|]. right. exists c', w. split; [|done].
        apply ConstraintsList_elem_of_union. auto.
Qed.

Lemma exactTransitiveDependenciesVersions_spec fuel r u vs :
  exactTransitiveDependenciesVersions fuel r u = Return vs ->
  exists E,
    _exactTransitiveConstraints fuel r u = Return E
    /\ Forall2 (fun c uv => getSatisfyingUnitVersion c r = Some uv) E vs.
Proof.
  unfold exactTransitiveDependenciesVersions.
  intros (E & HE & Hvs)%bind_Return. exists E. split; [done|].
  apply collect_satisfying in Hvs as (found & -> & Hf). done.
Qed.

(** Every exact transitive dependency is pinned by a constraint of the unit
    version or of another exact transitive dependency. *)
Lemma exactTransitiveDependenciesVersions_pinned fuel r u vs :
  exactTransitiveDependenciesVersions fuel r u = Return vs ->
  forall w, w ∈ vs -> pinned r (transitiveConstraintsOf vs u) w.
Proof.
  intros (E & HE & Hvs)%exactTransitiveDependenciesVersions_spec w Hw.
  apply (list_elem_of_lookup_1 vs) in Hw as [i Hi].
  destruct (Forall2_lookup_r _ _ _ _ _ Hvs Hi) as (c & Hc & Hsat).
  apply list_elem_of_lookup_2 in Hc.
  destruct (exactTransitiveConstraints_origin _ _ _ _ HE c Hc)
    as [He [Hu|(c' & w' & Hc' & Hw' & Hcw)]].
  - exists c. split; [|done]. apply elem_of_transitiveConstraintsOf. auto.
  - exists c. split; [|done]. apply elem_of_transitiveConstraintsOf. right.
    exists w'. split; [|done].
    apply (list_elem_of_lookup_1 E) in Hc' as [j Hj].
    destruct (Forall2_lookup_l _ _ _ _ _ Hvs Hj) as (w'' & Hw'' & Hsat').
    assert (w'' = w') as -> by congruence.
    by eapply list_elem_of_lookup_2.
Qed.

Lemma pinned_mono r cs cs' uv :
  (forall c, c ∈ cs -> c ∈ cs') -> pinned r cs uv -> pinned r cs' uv.
Proof. intros Hsub (c & Hc & He & Hs). exists c. auto. Qed.

(** What one turn of the propagation loop does to the state. *)
Lemma propagateBody_spec fuel r u deps cs chs st exactDeps :
  propagateBody fuel r u deps cs chs = Return (st, exactDeps) ->
  (forall c, c ∈ cs -> c ∈ State.constraints st)
  /\ (forall c, c ∈ State.constraints st ->
        c ∈ cs \/ c ∈ uv_constraints u
        \/ exists w, pinned r (State.constraints st) w /\ c ∈ uv_constraints w)
  /\ (forall x, x ∈ State.choices st ->
        x ∈ chs \/ x = u \/ pinned r (State.constraints st) x)
  /\ (forall x, x ∈ chs -> x ∈ State.choices st)
  /\ (forall x, x ∈ State.choices st -> uv_name x ∉ State.dependencies st)
  /\ (forall x, x ∈ exactDeps -> pinned r (State.constraints st) x).
Proof.
  unfold propagateBody. intros E.
  apply bind_Return in E as (vs & Hvs & E).
  apply bind_Return in E as (ds & _ & E).
  apply bind_Return in E as (eds & Heds & [= <- <-]). simpl.
  pose proof (exactTransitiveDependenciesVersions_pinned _ _ _ _ Hvs) as Hpin.
  assert (Hsub : forall c, c ∈ transitiveConstraintsOf vs u ->
                   c ∈ ConstraintsList.union cs (transitiveConstraintsOf vs u)).
  { intros c Hc. apply ConstraintsList_elem_of_union. auto. }
  split; [|split; [|split; [|split; [|split]]]].
  - intros c Hc. apply ConstraintsList_elem_of_union. auto.
  - intros c [Hc|Hc]%ConstraintsList_elem_of_union; [auto|].
    apply elem_of_transitiveConstraintsOf in Hc as [Hc|(w & Hw & Hc)]; [auto|].
    right. right. exists w. split; [|done].
    eapply pinned_mono; [|by apply Hpin]. done.
  - intros x [[Hx| ->%list_elem_of_singleton]%elem_of_app|Hx]%elem_of_js_union;
      [auto..|].
    right. right. eapply pinned_mono; [|by apply Hpin]. done.
  - intros x Hx. apply elem_of_js_union. left. apply elem_of_app. auto.
  - intros x Hx Hin. apply elem_of_remove_names in Hin as [_ Hin].
    by apply (Hin x).
  - intros x Hx. unfold collectExactDeps in Heds.
    apply collect_satisfying in Heds as (found & -> & Hf). simpl in Hx.
    apply (list_elem_of_lookup_1 found) in Hx as [i Hi].
    destruct (Forall2_lookup_r _ _ _ _ _ Hf Hi) as (c & Hc & Hsat).
    apply list_elem_of_lookup_2 in Hc. exists c.
    unfold newExactConstraintsList in Hc.
    apply ConstraintsList_elem_of_union in Hc as [Hc|Hc];
      apply elem_of_exact_filter in Hc as [Hc He].
    + done.
    + split; [|done]. apply Hsub, elem_of_transitiveConstraintsOf. auto.
Qed.

Lemma propagateLoop_spec fuel r u0 (chs0 : list UnitVersion)
  (cs0 : list Constraint) queue isEnqueued deps cs chs s :
  propagateLoop fuel r queue isEnqueued deps cs chs = Return s ->
  (forall q, q ∈ queue -> q = u0 \/ pinned r cs q) ->
  (forall x, x ∈ chs -> x ∈ chs0 \/ x = u0 \/ pinned r cs x) ->
  (queue = [] -> forall x, x ∈ chs -> uv_name x ∉ deps) ->
  (forall c, c ∈ cs ->
     c ∈ cs0 \/ c ∈ uv_constraints u0
     \/ exists w, pinned r cs w /\ c ∈ uv_constraints w) ->
  (forall x, x ∈ State.choices s ->
     x ∈ chs0 \/ x = u0 \/ pinned r (State.constraints s) x)
  /\ (forall x, x ∈ State.choices s -> uv_name x ∉ State.dependencies s)
  /\ (forall c, c ∈ State.constraints s ->
        c ∈ cs0 \/ c ∈ uv_constraints u0
        \/ exists w, pinned r (State.constraints s) w /\ c ∈ uv_constraints w).
Proof.
  revert queue isEnqueued deps cs chs.
  induction fuel as [|fuel IH]; intros [|u queue] enq deps cs chs; simpl;
    try done.
  - intros [= <-] _ Hchs Hdeps Hcs. simpl. auto.
  - intros [= <-] _ Hchs Hdeps Hcs. simpl. auto.
  - intros E Hq Hchs _ Hcs.
    apply bind_Return in E as ([st eds] & Eb & E). simpl in E.
    apply propagateBody_spec in Eb as (B1 & B2 & B3 & _ & B5 & B6).
    assert (Hmono : forall x, pinned r cs x -> pinned r (State.constraints st) x)
      by (intros x; by apply pinned_mono).
    assert (Hu : u = u0 \/ pinned r (State.constraints st) u).
    { destruct (Hq u) as [?|?]; [left|auto..]. }
    eapply IH; [exact E|..].
    + intros q [Hin|Hin]%elem_of_enqueueAll.
      * destruct (Hq q) as [?|?]; [by right|auto..].
      * auto.
    + intros x Hx. destruct (B3 x Hx) as [Hin|[->|Hp]]; [|naive_solver..].
      destruct (Hchs x Hin) as [?|[?|?]]; auto.
    + intros _. exact B5.
    + intros c Hc. destruct (B2 c Hc) as [Hin|[Hin|(w & Hw & Hin)]].
      * destruct (Hcs c Hin) as [?|[?|(w & Hw & Hcw)]]; [auto..|].
        right. right. exists w. auto.
      * destruct Hu as [->|Hp]; [auto|]. right. right. by exists u.
      * right. right. by exists w.
Qed.

(** An exact constraint with well-formed strings is looked up to a unit
    version of its name and version, the interned one. *)
Lemma pinned_sound r c uv :
  wfResolver r -> wfConstraint c -> c_exact c = true ->
  getSatisfyingUnitVersion c r = Some uv ->
  uv_name uv = c_name c /\ uv_version uv = c_version c.
Proof.
  intros Hr [Hname Hversion] He Hs.
  rewrite getSatisfyingUnitVersion_exact in Hs by done.
  pose proof (wf_key r Hr _ _ Hs) as Hk.
  destruct (wf_strings r Hr _ _ Hs) as [Hv _].
  by apply printed_inj in Hk.
Qed.

Lemma pinned_interned r cs uv :
  wfResolver r -> pinned r cs uv -> interned r uv /\ wfUnitVersion uv.
Proof.
  intros Hr (c & _ & He & Hs). unfold getSatisfyingUnitVersion in Hs.
  rewrite He in Hs. split.
  - unfold interned. by rewrite (wf_key r Hr _ _ Hs).
  - by eapply wf_strings.
Qed.

Lemma stateIsValid_satisfied s x c :
  stateIsValid s = true -> x ∈ State.choices s -> c ∈ State.constraints s ->
  c_name c = uv_name x -> isSatisfied c x = true.
Proof.
  unfold stateIsValid, choicesDontViolateConstraints, violated.
  rewrite forallb_forall. intros Hv Hx Hc Hn.
  apply list_elem_of_In, Hv, negb_true_iff in Hx.
  destruct (isSatisfied c x) eqn:Es; [done|].
  assert (existsb (fun c => bool_decide (c_name c = uv_name x)
                            && negb (isSatisfied c x))
            (State.constraints s) = true); [|congruence].
  apply existsb_exists. exists c. split; [by apply list_elem_of_In|].
  by rewrite bool_decide_eq_true_2, Es.
Qed.

(** In a state without violated choice, a choice with the name of a pinned
    choice is that pinned choice. *)
Lemma same_name_as_pinned r s x y :
  wfResolver r -> Forall wfConstraint (State.constraints s) ->
  stateIsValid s = true ->
  x ∈ State.choices s -> interned r x ->
  pinned r (State.constraints s) y ->
  uv_name x = uv_name y -> x = y.
Proof.
  intros Hr Hwf Hv Hx Hix Hy Hn.
  destruct (pinned_interned _ _ _ Hr Hy) as [Hiy _].
  destruct Hy as (c & Hc & He & Hs).
  rewrite Forall_forall in Hwf.
  destruct (pinned_sound r c y Hr (Hwf c Hc) He Hs) as [Hcn Hcv].
  assert (Hsat : isSatisfied c x = true)
    by (eapply stateIsValid_satisfied; [done..|congruence]).
  unfold isSatisfied in Hsat. rewrite He in Hsat.
  apply bool_decide_eq_true in Hsat.
  assert (Hk : UnitVersion_toString x = UnitVersion_toString y)
    by (unfold UnitVersion_toString; congruence).
  unfold interned in Hix, Hiy. rewrite Hk in Hix. congruence.
Qed.

Lemma good_from_origin r s (chs0 : list UnitVersion) :
  wfResolver r -> Forall wfConstraint (State.constraints s) ->
  stateIsValid s = true -> NoDup (State.choices s) ->
  (forall x, x ∈ State.choices s ->
     x ∈ chs0 \/ pinned r (State.constraints s) x) ->
  NoDup (uv_name <$> chs0) -> (forall x, x ∈ chs0 -> interned r x) ->
  (forall x, x ∈ State.choices s -> uv_name x ∉ State.dependencies s) ->
  goodState r s.
Proof.
  intros Hr Hwf Hv Hnd Horigin Hnames Hint Hdeps.
  assert (Hint' : forall x, x ∈ State.choices s -> interned r x).
  { intros x Hx. destruct (Horigin x Hx) as [?|Hp]; [auto|].
    by eapply pinned_interned. }
  split; [|done..].
  apply NoDup_fmap_2_strong; [|done]. intros x y Hx Hy Hn.
  destruct (Horigin y Hy) as [Hy0|Hyp].
  - destruct (Horigin x Hx) as [Hx0|Hxp].
    + by eapply NoDup_fmap_eq.
    + symmetry. eapply same_name_as_pinned; eauto.
  - eapply same_name_as_pinned; eauto.
Qed.

Lemma candidateVersionsOf_listed r st uv :
  wfResolver r -> uv ∈ candidateVersionsOf r st ->
  uv_name uv = candidateNameOf st /\ interned r uv /\ wfUnitVersion uv.
Proof.
  intros Hr Hin. unfold candidateVersionsOf in Hin.
  apply list_elem_of_In, List.filter_In in Hin as [Hin _].
  apply list_elem_of_In in Hin.
  destruct (unitsVersions r !! candidateNameOf st) as [l|] eqn:El; simpl in Hin;
    [|by apply not_elem_of_nil in Hin].
  destruct (wf_listed r Hr _ _ _ El Hin) as [Hn Hi].
  split; [done|]. split; [done|]. by eapply wf_strings.
Qed.

Lemma candidateNameOf_pending st :
  DependenciesList.isEmpty (State.dependencies st) = false ->
  candidateNameOf st ∈ State.dependencies st.
Proof.
  unfold candidateNameOf. destruct (State.dependencies st); [done|].
  intros _. simpl. left.
Qed.

Lemma propagated_constraints_wf r u0 (cs0 : list Constraint) (s : State.t) :
  wfResolver r -> Forall wfConstraint cs0 -> Forall wfConstraint (uv_constraints u0) ->
  (forall c, c ∈ State.constraints s ->
     c ∈ cs0 \/ c ∈ uv_constraints u0
     \/ exists w, pinned r (State.constraints s) w /\ c ∈ uv_constraints w) ->
  Forall wfConstraint (State.constraints s).
Proof.
  intros Hr H0 Hu Horigin. apply Forall_forall. intros c Hc.
  rewrite Forall_forall in H0, Hu.
  destruct (Horigin c Hc) as [?|[?|(w & Hw & Hcw)]]; [auto..|].
  destruct (pinned_interned _ _ _ Hr Hw) as [_ [_ Hwf]].
  rewrite Forall_forall in Hwf. auto.
Qed.

Lemma neighborOf_good fuel r st uv s :
  wfResolver r -> goodState r st ->
  DependenciesList.isEmpty (State.dependencies st) = false ->
  uv ∈ candidateVersionsOf r st ->
  neighborOf fuel r st uv = Return s -> stateIsValid s = true ->
  goodState r s.
Proof.
  intros Hr Hst Hpending Hcand Hs Hvalid.
  destruct (candidateVersionsOf_listed _ _ _ Hr Hcand) as (Hn & Hi & Hwf).
  pose proof (candidateNameOf_pending _ Hpending) as Hcn.
  destruct Hst as [G1 G2 G3 G4].
  unfold neighborOf, _propagateExactTransDeps in Hs.
  pose proof (propagateLoop_NoDup _ _ _ _ _ _ _ _ Hs) as Hnd.
  eapply (propagateLoop_spec _ _ uv (State.choices st ++ [uv])
            (State.constraints st)) in Hs as (O1 & O2 & O3);
    [|set_solver|auto|done|auto].
  eapply (good_from_origin _ _ (State.choices st ++ [uv])); try done.
  - apply (propagated_constraints_wf r uv (State.constraints st));
      [done|exact G4|apply Hwf|exact O3].
  - by apply Hnd.
  - intros x Hx. destruct (O1 x Hx) as [?|[->|?]]; [auto| |auto].
    left. apply elem_of_app. right. left.
  - rewrite fmap_app. apply NoDup_app. split; [done|]. split.
    + intros n Hn' ->%list_elem_of_singleton.
      apply list_elem_of_fmap in Hn' as (x & Hx & Hin).
      apply (G2 x Hin). rewrite <- Hx, Hn. done.
    + apply NoDup_singleton.
  - intros x [Hx| ->%list_elem_of_singleton]%elem_of_app; auto.
Qed.

Lemma stateNeighbors_good fuel r st obj :
  wfResolver r -> goodState r st ->
  DependenciesList.isEmpty (State.dependencies st) = false ->
  _stateNeighbors fuel r st = Return obj ->
  Forall (goodState r) (neighbors obj).
Proof.
  intros Hr Hst Hpending. unfold _stateNeighbors.
  destruct (candidateVersionsOf r st) as [|uv0 cands] eqn:Ec.
  { intros [= <-]. constructor. }
  rewrite <- Ec. intros E. apply bind_Return in E as (states & Em & E).
  apply mapM_Return in Em.
  assert (Hkept : Forall (goodState r) (List.filter stateIsValid states)).
  { apply Forall_forall. intros s Hs.
    apply list_elem_of_In, List.filter_In in Hs as [Hs Hv].
    apply list_elem_of_In, list_elem_of_lookup_1 in Hs as [i Hi].
    destruct (Forall2_lookup_r _ _ _ _ _ Em Hi) as (uv & Huv & Hn).
    eapply neighborOf_good; [done..| |done|done].
    by eapply list_elem_of_lookup_2. }
  destruct (List.filter stateIsValid states); injection E as <-; simpl;
    [constructor|done].
Qed.

Lemma startState_good fuel r deps cs chs s :
  wfResolver r -> Forall wfConstraint cs ->
  NoDup (uv_name <$> chs) -> (forall x, x ∈ chs -> interned r x) ->
  startState fuel r deps cs chs = Return s -> stateIsValid s = true ->
  goodState r s.
Proof.
  intros Hr Hcs Hnames Hint E Hvalid. unfold startState in E.
  apply bind_Return in E as (s0 & E0 & [= <-]).
  unfold _propagateExactTransDeps in E0.
  match type of E0 with
  | propagateLoop _ _ [?u] _ _ _ _ = _ => set (appUV := u) in *
  end.
  pose proof (propagateLoop_NoDup _ _ _ _ _ _ _ _ E0) as Hnd.
  eapply (propagateLoop_spec _ _ appUV chs (ConstraintsList.fromArray cs))
    in E0 as (O1 & O2 & O3); [|set_solver|auto|done|auto].
  assert (Hcs' : Forall wfConstraint (ConstraintsList.fromArray cs)).
  { apply Forall_forall. intros c Hc.
    apply (proj1 (ConstraintsList_elem_of_fromArray _ _)) in Hc.
    rewrite Forall_forall in Hcs. by apply Hcs. }
  eapply (good_from_origin _ _ chs); simpl; try done.
  - apply (propagated_constraints_wf r appUV (ConstraintsList.fromArray cs));
      [done|exact Hcs'|exact Hcs'|exact O3].
  - apply filter_NoDup. by apply Hnd.
  - intros x Hx. apply list_elem_of_In, List.filter_In in Hx as [Hx Ht].
    apply list_elem_of_In in Hx.
    destruct (O1 x Hx) as [?|[->|?]]; [auto| |auto]. done.
  - intros x Hx. apply list_elem_of_In, List.filter_In in Hx as [Hx _].
    apply O2. by apply list_elem_of_In.
Qed.

Lemma addUnitVersion_listed r uv name listed w :
  unitsVersions (addUnitVersion r uv) !! name = Some listed -> w ∈ listed ->
  (exists before, unitsVersions r !! name = Some before /\ w ∈ before)
  \/ (w = uv /\ name = uv_name uv
      /\ _unitsVersionsMap r !! UnitVersion_toString uv = None).
Proof.
  rewrite addUnitVersion_unitsVersions. intros Hl Hw.
  case_decide as Hn; [|eauto].
  injection Hl as <-. apply elem_of_app in Hw as [Hw|Hw].
  - left. destruct (unitsVersions r !! name) as [l|]; simpl in Hw; [eauto|].
    by apply not_elem_of_nil in Hw.
  - right. destruct (_unitsVersionsMap r !! UnitVersion_toString uv);
      [by apply not_elem_of_nil in Hw|].
    by apply list_elem_of_singleton in Hw.
Qed.

Lemma registry_listed uvs name listed w :
  unitsVersions (registry uvs) !! name = Some listed -> w ∈ listed ->
  uv_name w = name /\ interned (registry uvs) w.
Proof.
  revert listed. induction uvs as [|uv uvs IH] using rev_ind; intros listed.
  { unfold registry. simpl. by rewrite lookup_empty. }
  rewrite registry_snoc. intros Hl Hw. unfold interned.
  rewrite addUnitVersion_map.
  destruct (addUnitVersion_listed _ _ _ _ _ Hl Hw)
    as [(before & Hb & Hin)|(-> & -> & Hnew)].
  - destruct (IH _ Hb Hin) as [Hn Hi]. unfold interned in Hi. by rewrite Hi.
  - by rewrite Hnew, String.eqb_refl.
Qed.

(** A registry built by [addUnitVersion] from well-formed unit versions is
    well formed. *)
Lemma registry_wf uvs : Forall wfUnitVersion uvs -> wfResolver (registry uvs).
Proof.
  intros Hwf. destruct (registry_inv uvs) as (_ & I2 & _). split.
  - intros key uv. rewrite I2. by intros [_ ?]%firstPrinted_Some.
  - apply registry_listed.
  - intros key uv. rewrite I2. intros [Hin _]%firstPrinted_Some.
    rewrite Forall_forall in Hwf. by apply Hwf.
Qed.

(** ** Soundness of the search from a valid start state *)

Lemma resolveStep_sound fuel r sc pq someError :
  wfResolver r -> soundQueue r pq ->
  match resolveStep fuel r sc pq someError with
  | Done (Return solution) =>
      exists final,
        goodState r final /\ stateIsValid final = true
        /\ State.dependencies final = [] /\ State.choices final = solution
  | Done _ => True
  | Continue pq' _ => soundQueue r pq'
  end.
Proof.
  intros Hr Hpq. unfold resolveStep.
  destruct (PriorityQueue.pop pq) as [[[cur key] rest]|] eqn:Ep;
    [|by destruct someError].
  apply pop_spec in Ep as [Perm _]. unfold soundQueue in Hpq.
  rewrite Perm in Hpq. apply Forall_cons in Hpq as [[Hgood Hvalid] Hrest].
  simpl in Hgood, Hvalid.
  case_bool_decide; [by destruct someError|].
  destruct (DependenciesList.isEmpty (State.dependencies cur)) eqn:Ed.
  { exists cur. split; [done|]. split; [done|]. split; [|done]. revert Ed.
    by destruct (State.dependencies cur). }
  destruct (_stateNeighbors fuel r cur) as [obj| |] eqn:En; [|done..].
  destruct (success obj); simpl; [|done].
  unfold soundQueue. rewrite pushNeighbors_spec. apply Forall_app. split; [done|].
  pose proof (stateNeighbors_good _ _ _ _ Hr Hgood Ed En) as Hn.
  destruct (stateNeighbors_NoDup_valid _ _ _ _ En) as [Hv _].
  apply Forall_fmap, Forall_forall. intros s Hs. simpl.
  rewrite Forall_forall in Hn, Hv. split; [by apply Hn|by apply Hv].
Qed.

Lemma resolveLoop_sound fuel r sc pq someError solution :
  wfResolver r -> soundQueue r pq ->
  resolveLoop fuel r sc pq someError = Return solution ->
  exists final,
    goodState r final /\ stateIsValid final = true
    /\ State.dependencies final = [] /\ State.choices final = solution.
Proof.
  intros Hr. revert pq someError.
  induction fuel as [|fuel IH]; intros pq e Hpq; simpl; [done|].
  pose proof (resolveStep_sound fuel r sc pq e Hr Hpq) as Hstep.
  destruct (resolveStep fuel r sc pq e) as [[sol| |]|pq' e']; try done.
  - by intros [= <-].
  - by apply IH.
Qed.

(** When the start state has no choice violated by its constraints, what
    [resolve] returns is the choices of a state without dependencies left,
    whose choices have pairwise different names and satisfy all of its
    constraints on them. *)
Theorem resolve_sound_from_valid_start fuel r deps cs chs options start solution :
  wfResolver r -> Forall wfConstraint (default [] cs) ->
  NoDup (uv_name <$> default [] chs) ->
  (forall x, x ∈ default [] chs -> interned r x) ->
  stopAfterFirstPropagation options = false ->
  startState fuel r deps (default [] cs) (default [] chs) = Return start ->
  stateIsValid start = true ->
  resolve fuel r deps cs chs options = Return solution ->
  exists final,
    State.choices final = solution
    /\ State.dependencies final = []
    /\ NoDup (uv_name <$> solution)
    /\ choicesDontViolateConstraints solution (State.constraints final) = true.
Proof.
  intros Hr Hcs Hnames Hint Hstop Hstart Hvalid. unfold resolve.
  rewrite Hstart, Hstop. simpl. intros Hloop.
  apply resolveLoop_sound in Hloop as (final & Hg & Hv & Hd & <-); [|done|].
  - exists final. repeat split; [done| |done]. apply Hg.
  - unfold soundQueue, pushStart, PriorityQueue.push. simpl.
    constructor; [|constructor]. simpl. split; [by eapply startState_good|done].
Qed.

(** ** Fuel *)

Lemma exactTransitiveConstraints_fuel fuel r u :
  settles (_exactTransitiveConstraints fuel r u)
    (_exactTransitiveConstraints (S fuel) r u).
Proof.
  revert u. induction fuel as [|fuel IH]; intros u; [by left|].
  change (_exactTransitiveConstraints (S (S fuel)) r u) with
    (foldM (fun acc c =>
              unitVersion ← satisfyingOrThrow r c;
              sub ← _exactTransitiveConstraints (S fuel) r unitVersion;
              Return (ConstraintsList.union acc sub))
       (exactConstraintsIntersection (uv_dependencies u) (uv_constraints u))
       (exactConstraintsIntersection (uv_dependencies u) (uv_constraints u))).
  change (_exactTransitiveConstraints (S fuel) r u) with
    (foldM (fun acc c =>
              unitVersion ← satisfyingOrThrow r c;
              sub ← _exactTransitiveConstraints fuel r unitVersion;
              Return (ConstraintsList.union acc sub))
       (exactConstraintsIntersection (uv_dependencies u) (uv_constraints u))
       (exactConstraintsIntersection (uv_dependencies u) (uv_constraints u))).
  apply settles_foldM. intros acc c.
  apply settles_bind; [apply settles_refl|]. intros w.
  apply settles_bind; [apply IH|]. intros sub. apply settles_refl.
Qed.

Lemma exactTransitiveDependenciesVersions_fuel fuel r u :
  settles (exactTransitiveDependenciesVersions fuel r u)
    (exactTransitiveDependenciesVersions (S fuel) r u).
Proof.
  apply settles_bind; [apply exactTransitiveConstraints_fuel|].
  intros cs. apply settles_refl.
Qed.

Lemma inexactTransitiveDependencies_fuel fuel r u :
  settles (inexactTransitiveDependencies fuel r u)
    (inexactTransitiveDependencies (S fuel) r u).
Proof.
  apply settles_bind; [apply exactTransitiveConstraints_fuel|].
  intros cs. apply settles_refl.
Qed.

Lemma propagateBody_fuel fuel r u deps cs chs :
  settles (propagateBody fuel r u deps cs chs)
    (propagateBody (S fuel) r u deps cs chs).
Proof.
  apply settles_bind; [apply exactTransitiveDependenciesVersions_fuel|].
  intros vs. apply settles_bind; [apply inexactTransitiveDependencies_fuel|].
  intros ds. apply settles_refl.
Qed.

Lemma propagateLoop_fuel fuel r queue enq deps cs chs :
  settles (propagateLoop fuel r queue enq deps cs chs)
    (propagateLoop (S fuel) r queue enq deps cs chs).
Proof.
  revert queue enq deps cs chs.
  induction fuel as [|fuel IH]; intros [|u queue] enq deps cs chs.
  - by right.
  - by left.
  - by right.
  - cbn [propagateLoop].
    apply settles_bind; [apply propagateBody_fuel|]. intros st. apply IH.
Qed.

Lemma neighborOf_fuel fuel r st uv :
  settles (neighborOf fuel r st uv) (neighborOf (S fuel) r st uv).
Proof. apply propagateLoop_fuel. Qed.

Lemma stateNeighbors_fuel fuel r st :
  settles (_stateNeighbors fuel r st) (_stateNeighbors (S fuel) r st).
Proof.
  unfold _stateNeighbors. destruct (candidateVersionsOf r st) as [|uv cands];
    [apply settles_refl|].
  apply settles_bind; [|intros; apply settles_refl].
  apply settles_mapM. intros x. apply neighborOf_fuel.
Qed.

Lemma resolveStep_fuel fuel r sc pq e :
  settlesStep (resolveStep fuel r sc pq e) (resolveStep (S fuel) r sc pq e).
Proof.
  unfold resolveStep.
  destruct (PriorityQueue.pop pq) as [[[cur key] rest]|];
    [|constructor; apply settles_refl].
  case_bool_decide; [constructor; apply settles_refl|].
  destruct (DependenciesList.isEmpty _); [constructor; apply settles_refl|].
  destruct (stateNeighbors_fuel fuel r cur) as [->| ->]; [apply settles_out|].
  destruct (_stateNeighbors fuel r cur) as [obj| |];
    [|constructor; apply settles_refl..].
  destruct (negb (success obj)); constructor.
Qed.

Lemma resolveLoop_fuel fuel r sc pq e :
  settles (resolveLoop fuel r sc pq e) (resolveLoop (S fuel) r sc pq e).
Proof.
  revert pq e. induction fuel as [|fuel IH]; intros pq e; [by left|].
  cbn [resolveLoop].
  destruct (resolveStep_fuel fuel r sc pq e) as [res res' Hres| |pq' e'].
  - done.
  - by left.
  - apply IH.
Qed.

Lemma startState_fuel fuel r deps cs chs :
  settles (startState fuel r deps cs chs) (startState (S fuel) r deps cs chs).
Proof.
  apply settles_bind; [apply propagateLoop_fuel|]. intros s. apply settles_refl.
Qed.

Lemma resolve_fuel fuel r deps cs chs options :
  settles (resolve fuel r deps cs chs options)
    (resolve (S fuel) r deps cs chs options).
Proof.
  apply settles_bind; [apply startState_fuel|]. intros s.
  destruct (stopAfterFirstPropagation options); [apply settles_refl|].
  apply resolveLoop_fuel.
Qed.

(** A result of [resolve] is its result on any larger fuel. *)
Lemma resolve_more_fuel fuel fuel' r deps cs chs options :
  fuel <= fuel' ->
  settles (resolve fuel r deps cs chs options)
    (resolve fuel' r deps cs chs options).
Proof.
  induction 1 as [|fuel' _ IH]; [apply settles_refl|].
  destruct IH as [->|E]; [by left|].
  destruct (resolve_fuel fuel' r deps cs chs options) as [E'|E'].
  - left. congruence.
  - right. congruence.
Qed.


(** ** The registry after a sequence of registrations *)

Lemma firstRegistrations_snoc uvs uv :
  firstRegistrations (uvs ++ [uv]) =
  match firstPrinted (UnitVersion_toString uv) (firstRegistrations uvs) with
  | Some _ => firstRegistrations uvs
  | None => firstRegistrations uvs ++ [uv]
  end.
Proof. unfold firstRegistrations. by rewrite foldl_app. Qed.

Lemma firstPrinted_firstRegistrations k uvs :
  firstPrinted k (firstRegistrations uvs) = firstPrinted k uvs.
Proof.
  induction uvs as [|uv uvs IH] using rev_ind; [done|].
  rewrite firstRegistrations_snoc, firstPrinted_snoc.
  destruct (firstPrinted (UnitVersion_toString uv) (firstRegistrations uvs))
    as [w|] eqn:E.
  - rewrite IH. destruct (firstPrinted k uvs) as [x|] eqn:Ek; [done|].
    destruct (String.eqb_spec (UnitVersion_toString uv) k) as [<-|]; [|done].
    rewrite IH in E. congruence.
  - by rewrite firstPrinted_snoc, IH.
Qed.

Lemma registeredUnder_snoc name uvs uv :
  registeredUnder name (uvs ++ [uv]) =
  registeredUnder name uvs
  ++ (if String.eqb (uv_name uv) name then
        match firstPrinted (UnitVersion_toString uv) uvs with
        | Some _ => []
        | None => [uv]
        end
      else []).
Proof.
  unfold registeredUnder. rewrite firstRegistrations_snoc.
  rewrite firstPrinted_firstRegistrations.
  destruct (firstPrinted (UnitVersion_toString uv) uvs).
  - destruct (String.eqb (uv_name uv) name); by rewrite app_nil_r.
  - rewrite List.filter_app. simpl. by destruct (String.eqb (uv_name uv) name).
Qed.

Lemma firstRegistrations_subset uvs w :
  w ∈ firstRegistrations uvs -> w ∈ uvs.
Proof.
  induction uvs as [|uv uvs IH] using rev_ind; [done|].
  rewrite firstRegistrations_snoc.
  destruct (firstPrinted _ (firstRegistrations uvs)); set_solver.
Qed.

Lemma registeredUnder_nil name uvs :
  versionsAdded name uvs = [] -> registeredUnder name uvs = [].
Proof.
  intros Hnone. unfold registeredUnder.
  destruct (List.filter _ (firstRegistrations uvs)) as [|w l] eqn:Ef; [done|].
  assert (Hw : w ∈ List.filter (fun u => String.eqb (uv_name u) name)
                     (firstRegistrations uvs)) by (rewrite Ef; left).
  apply list_elem_of_In, List.filter_In in Hw as [Hw Hn].
  apply String.eqb_eq in Hn. apply list_elem_of_In, firstRegistrations_subset in Hw.
  assert (Hv : uv_version w ∈ versionsAdded name uvs)
    by (apply versionsAdded_elem; by exists w).
  rewrite Hnone in Hv. by apply not_elem_of_nil in Hv.
Qed.

Lemma registry_unitsVersions uvs name :
  unitsVersions (registry uvs) !! name =
  match versionsAdded name uvs with
  | [] => None
  | _ => Some (registeredUnder name uvs)
  end.
Proof.
  induction uvs as [|uv uvs IH] using rev_ind.
  { unfold registry. simpl. by rewrite lookup_empty. }
  destruct (registry_inv uvs) as (_ & I2 & _).
  rewrite registry_snoc, addUnitVersion_unitsVersions, IH, I2.
  rewrite versionsAdded_snoc, registeredUnder_snoc.
  case_decide as Hn.
  - subst name. rewrite String.eqb_refl.
    destruct (versionsAdded (uv_name uv) uvs) as [|v vs] eqn:Ev; simpl.
    + by rewrite (registeredUnder_nil _ _ Ev).
    + done.
  - destruct (String.eqb_spec (uv_name uv) name) as [?|_]; [congruence|].
    by rewrite !app_nil_r.
Qed.

Lemma elem_of_registeredUnder name uvs w :
  w ∈ registeredUnder name uvs <->
  uv_name w = name /\ firstPrinted (UnitVersion_toString w) uvs = Some w.
Proof.
  unfold registeredUnder.
  rewrite list_elem_of_In, List.filter_In, <- list_elem_of_In, String.eqb_eq.
  rewrite <- (firstPrinted_firstRegistrations _ uvs).
  assert (w ∈ firstRegistrations uvs <->
          firstPrinted (UnitVersion_toString w) (firstRegistrations uvs) = Some w);
    [|tauto].
  induction uvs as [|uv uvs IH] using rev_ind; [set_solver|].
  rewrite firstRegistrations_snoc.
  destruct (firstPrinted (UnitVersion_toString uv) (firstRegistrations uvs))
    as [x|] eqn:E; [done|].
  rewrite firstPrinted_snoc, elem_of_app, list_elem_of_singleton, IH.
  destruct (firstPrinted (UnitVersion_toString w) (firstRegistrations uvs))
    as [y|] eqn:Ey.
  - split; [intros [?| ->]; [done|congruence]|auto].
  - destruct (String.eqb_spec (UnitVersion_toString uv) (UnitVersion_toString w));
      split; try naive_solver.
Qed.

Lemma registeredUnder_NoDup name uvs :
  NoDup (UnitVersion_toString <$> registeredUnder name uvs).
Proof.
  apply NoDup_fmap_2_strong.
  - intros x y [_ Hx]%elem_of_registeredUnder [_ Hy]%elem_of_registeredUnder E.
    rewrite E in Hx. congruence.
  - unfold registeredUnder. apply filter_NoDup.
    induction uvs as [|uv uvs IH] using rev_ind; [constructor|].
    rewrite firstRegistrations_snoc.
    destruct (firstPrinted (UnitVersion_toString uv) (firstRegistrations uvs))
      as [x|] eqn:E; [done|].
    apply NoDup_app. split; [done|]. split; [|apply NoDup_singleton].
    intros w Hw ->%list_elem_of_singleton.
    eapply List.find_none in E; [|by apply list_elem_of_In].
    by rewrite String.eqb_refl in E.
Qed.

Lemma filter_sublist {A} (f : A -> bool) (l : list A) :
  sublist (List.filter f l) l.
Proof.
  induction l as [|x l IH]; simpl; [constructor|].
  destruct (f x); by constructor.
Qed.

Lemma Resolver_eq (r r' : Resolver) :
  unitsVersions r = unitsVersions r' ->
  _unitsVersionsMap r = _unitsVersionsMap r' ->
  _latestVersion r = _latestVersion r' ->
  _constraints r = _constraints r' ->
  r = r'.
Proof. destruct r, r'; simpl. by intros -> -> -> ->. Qed.


Lemma firstRegistrations_sublist uvs : sublist (firstRegistrations uvs) uvs.
Proof.
  induction uvs as [|uv uvs IH] using rev_ind; [constructor|].
  rewrite firstRegistrations_snoc.
  destruct (firstPrinted _ (firstRegistrations uvs)).
  - by apply sublist_inserts_r.
  - by apply sublist_app.
Qed.

(** X1. After any sequence of [addUnitVersion] calls, [unitsVersions] has
    an entry for a name exactly when a unit version of that name was added,
    and the entry lists the unit versions of that name that are interned in
    [_unitsVersionsMap], in the order of their first registration: a
    sub-sequence of the calls, no two entries with the same printed form. *)
Theorem unitsVersions_registration_order uvs name :
  unitsVersions (registry uvs) !! name
  = match versionsAdded name uvs with
    | [] => None
    | _ => Some (registeredUnder name uvs)
    end
  /\ sublist (registeredUnder name uvs) uvs
  /\ NoDup (UnitVersion_toString <$> registeredUnder name uvs)
  /\ forall w,
       w ∈ registeredUnder name uvs <->
       uv_name w = name
       /\ _unitsVersionsMap (registry uvs) !! UnitVersion_toString w = Some w.
Proof.
  split; [apply registry_unitsVersions|]. split.
  { etrans; [apply filter_sublist|apply firstRegistrations_sublist]. }
  split; [apply registeredUnder_NoDup|].
  intros w. destruct (registry_inv uvs) as (_ & I2 & _). rewrite I2.
  apply elem_of_registeredUnder.
Qed.

(** X2. For a unit version added to the resolver whose name has no "=",
    the exact constraint on its name and version is looked up to the first
    unit version added with the same printed form; when no added version has
    an "@", that one has the same name and version. *)
Theorem exact_constraint_finds_registered uvs uv :
  uv ∈ uvs -> noEq (uv_name uv) = true ->
  exists first,
    getSatisfyingUnitVersion
      {| c_name := uv_name uv; c_exact := true; c_version := uv_version uv |}
      (registry uvs) = Some first
    /\ firstPrinted (UnitVersion_toString uv) uvs = Some first
    /\ UnitVersion_toString first = UnitVersion_toString uv
    /\ (Forall (fun u => noAt (uv_version u) = true) uvs ->
        uv_name first = uv_name uv /\ uv_version first = uv_version uv).
Proof.
  intros Hin Hname. destruct (firstPrinted_is_Some uvs uv Hin) as [first Hf].
  exists first. destruct (registry_inv uvs) as (_ & I2 & _).
  rewrite getSatisfyingUnitVersion_exact by done. simpl.
  split; [by rewrite I2|]. split; [done|].
  apply firstPrinted_Some in Hf as [Hfin Hk]. split; [done|].
  intros Hvalid. rewrite Forall_forall in Hvalid.
  by apply printed_inj in Hk; [|apply Hvalid..].
Qed.

(** X3. On a well-formed resolver a unit version that
    [getSatisfyingUnitVersion] returns has the name of the constraint,
    satisfies it and is the interned object; an exact constraint is to have
    well-formed strings. *)
Theorem getSatisfyingUnitVersion_sound r c w :
  wfResolver r -> (c_exact c = true -> wfConstraint c) ->
  getSatisfyingUnitVersion c r = Some w ->
  uv_name w = c_name c /\ isSatisfied c w = true /\ interned r w.
Proof.
  intros Hr Hc Hs. destruct (c_exact c) eqn:He.
  - destruct (pinned_sound r c w Hr (Hc eq_refl) He Hs) as [Hn Hv].
    split; [done|]. split.
    + unfold isSatisfied. rewrite He. by apply bool_decide_eq_true.
    + eapply (pinned_interned r [c]); [done|]. exists c.
      split; [left|done].
  - rewrite getSatisfyingUnitVersion_inexact in Hs by done.
    destruct (unitsVersions r !! c_name c) as [l|] eqn:El; [|done].
    apply List.find_some in Hs as [Hin Hsat].
    destruct (wf_listed r Hr _ _ w El) as [Hn Hi];
      [by apply list_elem_of_In|done].
Qed.

(** X4. [_latestVersion] has an entry for a name exactly when
    [unitsVersions] has one, and, when no added version has an "@", the
    latest version is the version of a unit version listed under the name. *)
Theorem latestVersion_of_listed uvs name :
  (is_Some (_latestVersion (registry uvs) !! name)
   <-> is_Some (unitsVersions (registry uvs) !! name))
  /\ (Forall (fun u => noAt (uv_version u) = true) uvs ->
      forall latest,
        _latestVersion (registry uvs) !! name = Some latest ->
        exists listed w,
          unitsVersions (registry uvs) !! name = Some listed
          /\ w ∈ listed /\ uv_version w = latest).
Proof.
  destruct (registry_inv uvs) as (I1 & I2 & I3 & _).
  split.
  - rewrite I3, registry_unitsVersions.
    destruct (versionsAdded name uvs); simpl; split; intros [? ?]; by eauto.
  - intros Hvalid latest Hl. rewrite I3 in Hl.
    apply maxVersion_spec in Hl as [Hin _].
    rewrite registry_unitsVersions.
    destruct (versionsAdded name uvs) as [|v vs] eqn:Ev;
      [by apply not_elem_of_nil in Hin|].
    rewrite <- Ev in Hin. apply versionsAdded_elem in Hin as (uv & Huv & Hn & Hv).
    destruct (firstPrinted_is_Some uvs uv Huv) as [w Hw].
    exists (registeredUnder name uvs), w. split; [done|].
    pose proof (firstPrinted_Some _ _ _ Hw) as [Hwin Hk].
    rewrite Forall_forall in Hvalid.
    pose proof (printed_inj _ _ _ _ (Hvalid _ Hwin) (Hvalid _ Huv) Hk)
      as [Hwn Hwv].
    split; [|congruence]. apply elem_of_registeredUnder.
    split; [congruence|]. by rewrite Hk.
Qed.

Lemma addUnitVersion_map_other r uv uv' :
  UnitVersion_toString uv <> UnitVersion_toString uv' ->
  _unitsVersionsMap (addUnitVersion r uv) !! UnitVersion_toString uv'
  = _unitsVersionsMap r !! UnitVersion_toString uv'.
Proof.
  intros Hne. rewrite addUnitVersion_map.
  destruct (_unitsVersionsMap r !! UnitVersion_toString uv'); [done|].
  by destruct (String.eqb_spec (UnitVersion_toString uv) (UnitVersion_toString uv')).
Qed.

Lemma addUnitVersion_commute r u1 u2 :
  uv_name u1 <> uv_name u2 ->
  UnitVersion_toString u1 <> UnitVersion_toString u2 ->
  addUnitVersion (addUnitVersion r u1) u2 = addUnitVersion (addUnitVersion r u2) u1.
Proof.
  intros Hn Hk. apply Resolver_eq.
  - apply map_eq. intros k. rewrite !addUnitVersion_unitsVersions.
    rewrite !addUnitVersion_map_other by done.
    repeat case_decide; congruence.
  - apply map_eq. intros k. rewrite !addUnitVersion_map.
    destruct (_unitsVersionsMap r !! k); [done|].
    destruct (String.eqb_spec (UnitVersion_toString u1) k),
      (String.eqb_spec (UnitVersion_toString u2) k); congruence.
  - apply map_eq. intros k. rewrite !addUnitVersion_latest.
    rewrite !addUnitVersion_unitsVersions.
    destruct (String.eqb_spec (uv_name u1) k), (String.eqb_spec (uv_name u2) k);
      repeat case_decide; try congruence.
  - by rewrite !addUnitVersion_constraints.
Qed.

(** ** The transitive exact constraints of a unit version *)

Lemma DependenciesList_elem_of_union a b x :
  x ∈ DependenciesList.union a b <-> x ∈ a \/ x ∈ b.
Proof.
  unfold DependenciesList.union. revert a.
  induction b as [|c b IH]; intros a; simpl; [set_solver|].
  rewrite IH, DependenciesList_elem_of_push. set_solver.
Qed.

Lemma elem_of_exact_filter_iff (deps : DependenciesList.t) cs c :
  c ∈ List.filter
        (fun c => c_exact c && DependenciesList.contains deps (c_name c)) cs
  <-> c ∈ cs /\ c_exact c = true /\ c_name c ∈ deps.
Proof.
  rewrite list_elem_of_In, List.filter_In, <- list_elem_of_In, andb_true_iff.
  unfold DependenciesList.contains. rewrite bool_decide_eq_true. tauto.
Qed.


Lemma satisfyingOrThrow_Return r c w :
  satisfyingOrThrow r c = Return w -> getSatisfyingUnitVersion c r = Some w.
Proof.
  unfold satisfyingOrThrow. destruct (getSatisfyingUnitVersion c r); by intros [=->].
Qed.

(** The set computed by [_exactTransitiveConstraints]. *)
Lemma exactTransitiveConstraints_full fuel r u E :
  _exactTransitiveConstraints fuel r u = Return E ->
  (forall c,
     c ∈ exactConstraintsIntersection (uv_dependencies u) (uv_constraints u) ->
     c ∈ E)
  /\ (forall c, c ∈ E ->
        c_exact c = true
        /\ is_Some (getSatisfyingUnitVersion c r)
        /\ exists w, (w = u \/ pinned r E w)
                     /\ c ∈ uv_constraints w /\ c_name c ∈ uv_dependencies w)
  /\ (forall c w c',
        c ∈ E -> getSatisfyingUnitVersion c r = Some w ->
        c' ∈ exactConstraintsIntersection (uv_dependencies w) (uv_constraints w) ->
        c' ∈ E).
Proof.
  revert u E. induction fuel as [|fuel IH]; intros u E; simpl; [done|].
  set (E0 := exactConstraintsIntersection (uv_dependencies u) (uv_constraints u)).
  intros HE.
  (* every constraint of E0 has a unit version whose closure is in E *)
  assert (Hfold : forall l acc,
    foldM (fun acc c =>
             unitVersion ← satisfyingOrThrow r c;
             sub ← _exactTransitiveConstraints fuel r unitVersion;
             Return (ConstraintsList.union acc sub)) acc l = Return E ->
    (forall c, c ∈ acc -> c ∈ E)
    /\ (forall c, c ∈ l ->
          exists w sub, getSatisfyingUnitVersion c r = Some w
                        /\ _exactTransitiveConstraints fuel r w = Return sub
                        /\ forall c', c' ∈ sub -> c' ∈ E)
    /\ (forall c, c ∈ E ->
          c ∈ acc
          \/ exists c0 w sub, c0 ∈ l /\ getSatisfyingUnitVersion c0 r = Some w
                              /\ _exactTransitiveConstraints fuel r w = Return sub
                              /\ c ∈ sub)).
  { clear HE. induction l as [|c0 l IHl]; intros acc; simpl.
    - intros [= <-]. split; [done|]. split; [by intros c ?%not_elem_of_nil|auto].
    - intros (acc' & E' & Hrest)%bind_Return.
      apply bind_Return in E' as (w & Hw%satisfyingOrThrow_Return & E').
      apply bind_Return in E' as (sub & Hsub & [= <-]).
      destruct (IHl _ Hrest) as (A1 & A2 & A3). split; [|split].
      + intros c Hc. apply A1, ConstraintsList_elem_of_union. auto.
      + intros c [->|Hc]%elem_of_cons; [|by apply A2].
        exists w, sub. split; [done|]. split; [done|].
        intros c' Hc'. apply A1, ConstraintsList_elem_of_union. auto.
      + intros c Hc. destruct (A3 c Hc) as [Hacc|(c1 & w1 & s1 & Hc1 & ?)].
        * apply ConstraintsList_elem_of_union in Hacc as [?|?]; [auto|].
          right. exists c0, w, sub. split; [left|done].
        * right. exists c1, w1, s1. split; [by right|done]. }
  destruct (Hfold _ _ HE) as (A1 & A2 & A3).
  split; [exact A1|]. split.
  - intros c Hc. destruct (A3 c Hc) as [Hc0|(c0 & w & sub & Hc0 & Hw & Hsub & Hcs)].
    + pose proof Hc0 as (Hcu & He & Hn)%elem_of_exact_filter_iff.
      split; [done|]. split.
      * destruct (A2 c Hc0) as (w & ? & -> & _). by eexists.
      * exists u. auto.
    + destruct (IH _ _ Hsub) as (_ & B2 & _).
      destruct (B2 c Hcs) as (He & Hsat & w' & Hw' & Hcw & Hnw).
      split; [done|]. split; [done|]. exists w'. split; [|done]. right.
      destruct (A2 c0 Hc0) as (w0 & sub0 & Hw0 & Hsub0 & Hin0).
      assert (w0 = w) as -> by congruence.
      assert (sub0 = sub) as -> by congruence.
      destruct Hw' as [->|Hp].
      * exists c0. split; [by apply A1|]. split; [|done].
        by apply elem_of_exact_filter_iff in Hc0 as (_ & ? & _).
      * eapply pinned_mono; [|exact Hp]. done.
  - intros c w c' Hc Hw Hc'.
    destruct (A3 c Hc) as [Hc0|(c0 & w0 & sub & Hc0 & Hw0 & Hsub & Hcs)].
    + destruct (A2 c Hc0) as (w1 & sub & Hw1 & Hsub & Hin).
      assert (w1 = w) as -> by congruence.
      apply Hin. destruct fuel as [|fuel']; [done|].
      destruct (IH _ _ Hsub) as (B1 & _). by apply B1.
    + destruct (A2 c0 Hc0) as (w1 & sub1 & Hw1 & Hsub1 & Hin).
      assert (w1 = w0) as -> by congruence.
      assert (sub1 = sub) as -> by congruence.
      apply Hin. destruct (IH _ _ Hsub) as (_ & _ & B3). by eapply B3.
Qed.

Lemma elem_of_remove_constraint_names deps (cs : list Constraint) x :
  x ∈ foldl (fun deps c => DependenciesList.remove deps (c_name c)) deps cs
  <-> x ∈ deps /\ forall c, c ∈ cs -> x <> c_name c.
Proof.
  revert deps. induction cs as [|c cs IH]; intros deps; simpl.
  - set_solver.
  - rewrite IH, DependenciesList_elem_of_remove. set_solver.
Qed.


(** A fold over constraints that all have a unit version returns. *)
Lemma foldM_satisfying {B} (g : B -> UnitVersion -> B) r acc l :
  Forall (fun c => is_Some (getSatisfyingUnitVersion c r)) l ->
  exists b,
    foldM (fun acc c => uv ← satisfyingOrThrow r c; Return (g acc uv)) acc l
    = Return b.
Proof.
  intros Hl. revert acc. induction Hl as [|c l [w Hw] _ IH]; intros acc; simpl.
  - by eexists.
  - rewrite (satisfyingOrThrow_Some _ _ _ Hw). simpl. apply IH.
Qed.

Lemma union_dependencies_of r acc l deps :
  foldM (fun deps c =>
           unitVersion ← satisfyingOrThrow r c;
           Return (DependenciesList.union deps (uv_dependencies unitVersion)))
    acc l = Return deps ->
  forall x,
    x ∈ deps <->
    x ∈ acc \/ exists c w, c ∈ l /\ getSatisfyingUnitVersion c r = Some w
                           /\ x ∈ uv_dependencies w.
Proof.
  revert acc. induction l as [|c l IH]; intros acc; simpl.
  - intros [= <-] x. split; [auto|]. intros [?|(c & w & Hc & _)]; [done|].
    by apply not_elem_of_nil in Hc.
  - intros (acc' & E' & Hrest)%bind_Return x.
    apply bind_Return in E' as (w & Hw%satisfyingOrThrow_Return & [= <-]).
    rewrite (IH _ Hrest), DependenciesList_elem_of_union. split.
    + intros [[?|?]|(c' & w' & Hc' & ?)]; [auto| |].
      * right. exists c, w. split; [left|done].
      * right. exists c', w'. split; [by right|done].
    + intros [?|(c' & w' & [->|Hc']%elem_of_cons & Hw' & Hx)]; [auto| |].
      * left. right. congruence.
      * right. by exists c', w'.
Qed.

Lemma exactTransitiveConstraints_resolvable fuel r u E :
  _exactTransitiveConstraints fuel r u = Return E ->
  Forall (fun c => is_Some (getSatisfyingUnitVersion c r)) E.
Proof.
  intros HE. apply Forall_forall. intros c Hc.
  destruct (exactTransitiveConstraints_full _ _ _ _ HE) as (_ & B2 & _).
  by destruct (B2 c Hc) as (_ & ? & _).
Qed.

Lemma exactTransitiveDependenciesVersions_returns fuel r u E :
  _exactTransitiveConstraints fuel r u = Return E ->
  exists versions,
    exactTransitiveDependenciesVersions fuel r u = Return versions
    /\ Forall2 (fun c w => getSatisfyingUnitVersion c r = Some w) E versions.
Proof.
  intros HE.
  destruct (foldM_satisfying (fun uvs uv => uvs ++ [uv]) r [] E
              (exactTransitiveConstraints_resolvable _ _ _ _ HE)) as [vs Hvs].
  exists vs. unfold exactTransitiveDependenciesVersions. rewrite HE. simpl.
  split; [done|]. by apply collect_satisfying in Hvs as (found & -> & ?).
Qed.

Lemma inexactTransitiveDependencies_returns fuel r u E :
  _exactTransitiveConstraints fuel r u = Return E ->
  exists deps,
    inexactTransitiveDependencies fuel r u = Return deps
    /\ forall x,
         x ∈ deps <->
         (x ∈ uv_dependencies u
          \/ exists c w, c ∈ E /\ getSatisfyingUnitVersion c r = Some w
                         /\ x ∈ uv_dependencies w)
         /\ forall c, c ∈ E -> x <> c_name c.
Proof.
  intros HE.
  destruct (foldM_satisfying
              (fun deps uv => DependenciesList.union deps (uv_dependencies uv))
              r (uv_dependencies u) E
              (exactTransitiveConstraints_resolvable _ _ _ _ HE)) as [ds Hds].
  eexists. unfold inexactTransitiveDependencies. rewrite HE. simpl.
  rewrite Hds. simpl. split; [done|]. intros x.
  rewrite elem_of_remove_constraint_names.
  by rewrite (union_dependencies_of _ _ _ _ Hds).
Qed.

(** X10. When [_exactTransitiveConstraints] returns,
    [exactTransitiveDependenciesVersions] returns the unit versions of its
    constraints, one for each in their order, and
    [inexactTransitiveDependencies] returns the dependencies of the unit
    version and of those unit versions that are not the name of one of the
    constraints. *)
Theorem transitive_dependencies_return_together fuel r u E :
  _exactTransitiveConstraints fuel r u = Return E ->
  (exists versions,
     exactTransitiveDependenciesVersions fuel r u = Return versions
     /\ Forall2 (fun c w => getSatisfyingUnitVersion c r = Some w) E versions)
  /\ (exists deps,
        inexactTransitiveDependencies fuel r u = Return deps
        /\ forall x,
             x ∈ deps <->
             (x ∈ uv_dependencies u
              \/ exists c w, c ∈ E /\ getSatisfyingUnitVersion c r = Some w
                             /\ x ∈ uv_dependencies w)
             /\ forall c, c ∈ E -> x <> c_name c).
Proof.
  intros HE. split.
  - by apply exactTransitiveDependenciesVersions_returns.
  - by apply inexactTransitiveDependencies_returns.
Qed.

(** X11. On a set of unit versions closed under "the unit version of my
    first exact constraint on a dependency of mine" (a cycle of exact
    pins), [_exactTransitiveConstraints], the two functions built on it and
    the propagation run out of any fuel: the recursion does not end. *)
Theorem exact_pin_cycle_never_returns (P : UnitVersion -> Prop) r :
  (forall u, P u ->
     exists c rest w,
       exactConstraintsIntersection (uv_dependencies u) (uv_constraints u)
       = c :: rest
       /\ getSatisfyingUnitVersion c r = Some w /\ P w) ->
  forall fuel u, P u ->
    _exactTransitiveConstraints fuel r u = OutOfFuel
    /\ exactTransitiveDependenciesVersions fuel r u = OutOfFuel
    /\ inexactTransitiveDependencies fuel r u = OutOfFuel
    /\ forall dependencies constraints choices,
         _propagateExactTransDeps fuel r u dependencies constraints choices
         = OutOfFuel.
Proof.
  intros Hcycle.
  assert (Hetc : forall fuel u, P u ->
            _exactTransitiveConstraints fuel r u = OutOfFuel).
  { induction fuel as [|fuel IH]; intros u Hu; [done|]. simpl.
    destruct (Hcycle u Hu) as (c & rest & w & -> & Hw & HPw). simpl.
    rewrite (satisfyingOrThrow_Some _ _ _ Hw). simpl. by rewrite (IH w HPw). }
  intros fuel u Hu. split; [by apply Hetc|].
  split; [unfold exactTransitiveDependenciesVersions; by rewrite Hetc|].
  split; [unfold inexactTransitiveDependencies; by rewrite Hetc|].
  intros deps cs chs. unfold _propagateExactTransDeps.
  destruct fuel as [|fuel]; [done|]. simpl. unfold propagateBody.
  unfold exactTransitiveDependenciesVersions. by rewrite Hetc.
Qed.

(** X7. [addDependency] throws "Dependency already exists -- <name>"
    exactly when the name is among the dependencies; otherwise it appends
    the name, keeps the list free of repeats, and a second call with the
    name throws. *)
Theorem addDependency_rejects_repeats uv name :
  match addDependency uv name with
  | Return uv' =>
      (name ∉ uv_dependencies uv)
      /\ uv' = ({| uv_name := uv_name uv; uv_version := uv_version uv;
                   uv_ecv := uv_ecv uv;
                   uv_dependencies := uv_dependencies uv ++ [name];
                   uv_constraints := uv_constraints uv |})
      /\ (NoDup (uv_dependencies uv) -> NoDup (uv_dependencies uv'))
      /\ addDependency uv' name = Throw ("Dependency already exists -- " +:+ name)
  | Throw msg =>
      (name ∈ uv_dependencies uv)
      /\ msg = "Dependency already exists -- " +:+ name
  | OutOfFuel => False
  end.
Proof.
  unfold addDependency, DependenciesList.contains, DependenciesList.push,
    DependenciesList.contains.
  case_bool_decide as Hin; [by split|]. simpl.
  split; [done|]. split; [done|]. split.
  - intros Hnd. apply NoDup_app. split; [done|].
    split; [|apply NoDup_singleton]. by intros x Hx ->%list_elem_of_singleton.
  - rewrite bool_decide_eq_true_2; [done|]. set_solver.
Qed.

(** X8. [addConstraint] throws "Constraint already exists -- <c>" exactly
    when the constraint is among the constraints; otherwise it appends it,
    keeps the list free of repeats, and a second call with it throws. *)
Theorem addConstraint_rejects_repeats uv c :
  match addConstraint uv c with
  | Return uv' =>
      (c ∉ uv_constraints uv)
      /\ uv' = ({| uv_name := uv_name uv; uv_version := uv_version uv;
                   uv_ecv := uv_ecv uv;
                   uv_dependencies := uv_dependencies uv;
                   uv_constraints := uv_constraints uv ++ [c] |})
      /\ (NoDup (uv_constraints uv) -> NoDup (uv_constraints uv'))
      /\ addConstraint uv' c
         = Throw ("Constraint already exists -- " +:+ Constraint_toString c)
  | Throw msg =>
      (c ∈ uv_constraints uv)
      /\ msg = "Constraint already exists -- " +:+ Constraint_toString c
  | OutOfFuel => False
  end.
Proof.
  unfold addConstraint, ConstraintsList.contains, ConstraintsList.push,
    ConstraintsList.contains.
  case_bool_decide as Hin; [by split|]. simpl.
  split; [done|]. split; [done|]. split.
  - intros Hnd. apply NoDup_app. split; [done|].
    split; [|apply NoDup_singleton]. by intros x Hx ->%list_elem_of_singleton.
  - rewrite bool_decide_eq_true_2; [done|]. set_solver.
Qed.

(** ** What a propagation keeps, adds and throws *)

Lemma propagateBody_unfold fuel r u deps cs chs st exactDeps :
  propagateBody fuel r u deps cs chs = Return (st, exactDeps) ->
  exists E vs ds,
    _exactTransitiveConstraints fuel r u = Return E
    /\ Forall2 (fun c w => getSatisfyingUnitVersion c r = Some w) E vs
    /\ (forall x,
          x ∈ ds <->
          (x ∈ uv_dependencies u
           \/ exists c w, c ∈ E /\ getSatisfyingUnitVersion c r = Some w
                          /\ x ∈ uv_dependencies w)
          /\ forall c, c ∈ E -> x <> c_name c)
    /\ State.constraints st
       = ConstraintsList.union cs (transitiveConstraintsOf vs u)
    /\ State.choices st = js_union (chs ++ [u]) vs
    /\ State.dependencies st
       = foldl (fun deps w => DependenciesList.remove deps (uv_name w))
           (DependenciesList.union deps ds) (State.choices st)
    /\ Forall2 (fun c w => getSatisfyingUnitVersion c r = Some w)
         (newExactConstraintsList u (State.constraints st)) exactDeps.
Proof.
  unfold propagateBody. intros E.
  apply bind_Return in E as (vs & Hvs & E).
  apply bind_Return in E as (ds & Hds & E).
  apply bind_Return in E as (eds & Heds & [= <- <-]). simpl.
  destruct (exactTransitiveDependenciesVersions_spec _ _ _ _ Hvs)
    as (E & HE & Hall).
  destruct (inexactTransitiveDependencies_returns _ _ _ _ HE)
    as (ds' & Hds' & Hchar).
  assert (ds' = ds) as -> by congruence.
  exists E, vs, ds.
  split; [done|]. split; [done|]. split; [exact Hchar|].
  split; [done|]. split; [done|]. split; [done|].
  unfold collectExactDeps in Heds.
  apply collect_satisfying in Heds as (found & Hfound & Hall').
  simpl in Hfound. by subst found.
Qed.

Lemma Forall2_sat_l r (E : list Constraint) vs c :
  Forall2 (fun c w => getSatisfyingUnitVersion c r = Some w) E vs ->
  c ∈ E -> exists w, getSatisfyingUnitVersion c r = Some w /\ w ∈ vs.
Proof.
  intros Hall [i Hi]%list_elem_of_lookup_1.
  destruct (Forall2_lookup_l _ _ _ _ _ Hall Hi) as (w & Hw & Hs).
  exists w. split; [done|]. by eapply list_elem_of_lookup_2.
Qed.

Lemma Forall2_sat_r r (E : list Constraint) vs w :
  Forall2 (fun c w => getSatisfyingUnitVersion c r = Some w) E vs ->
  w ∈ vs -> exists c, c ∈ E /\ getSatisfyingUnitVersion c r = Some w.
Proof.
  intros Hall [i Hi]%list_elem_of_lookup_1.
  destruct (Forall2_lookup_r _ _ _ _ _ Hall Hi) as (c & Hc & Hs).
  exists c. split; [|done]. by eapply list_elem_of_lookup_2.
Qed.

Lemma propagateBody_grows fuel r u deps cs chs st exactDeps :
  propagateBody fuel r u deps cs chs = Return (st, exactDeps) ->
  u ∈ State.choices st
  /\ (forall x, x ∈ chs -> x ∈ State.choices st)
  /\ (forall c, c ∈ cs -> c ∈ State.constraints st)
  /\ (forall c, c ∈ uv_constraints u -> c ∈ State.constraints st)
  /\ (forall c, c ∈ State.constraints st ->
        c ∈ cs \/ exists w, w ∈ State.choices st /\ c ∈ uv_constraints w)
  /\ (forall x, x ∈ State.dependencies st ->
        x ∈ deps \/ exists w, w ∈ State.choices st /\ x ∈ uv_dependencies w)
  /\ (forall x, settledIn r deps cs chs x -> settled r st x)
  /\ (forall x w, w = u \/ (w ∈ State.choices st /\ w ∉ chs) ->
        x ∈ uv_dependencies w -> settled r st x)
  /\ (forall c w, w ∈ State.choices st -> w ∉ chs ->
        c ∈ uv_constraints w -> c ∈ State.constraints st).
Proof.
  intros Hb.
  destruct (propagateBody_unfold _ _ _ _ _ _ _ _ Hb)
    as (E & vs & ds & HE & Hvs & Hds & Hcs & Hchs & Hdeps & _).
  assert (Hu : u ∈ State.choices st).
  { rewrite Hchs. apply elem_of_js_union. left. set_solver. }
  assert (Hold : forall x, x ∈ chs -> x ∈ State.choices st).
  { intros x Hx. rewrite Hchs. apply elem_of_js_union. left. set_solver. }
  assert (Hvsin : forall w, w ∈ vs -> w ∈ State.choices st).
  { intros w Hw. rewrite Hchs. apply elem_of_js_union. auto. }
  assert (Hcsin : forall c, c ∈ cs -> c ∈ State.constraints st).
  { intros c Hc. rewrite Hcs. apply ConstraintsList_elem_of_union. auto. }
  assert (HEin : forall c, c ∈ E -> c ∈ State.constraints st).
  { intros c Hc. rewrite Hcs. apply ConstraintsList_elem_of_union. right.
    apply elem_of_transitiveConstraintsOf.
    destruct (exactTransitiveConstraints_origin _ _ _ _ HE c Hc)
      as [_ [?|(c' & w & Hc' & Hw & Hcw)]]; [auto|].
    right. exists w. split; [|done].
    destruct (Forall2_sat_l _ _ _ _ Hvs Hc') as (w' & Hw' & Hin). congruence. }
  assert (Hdep : forall x, x ∈ DependenciesList.union deps ds -> settled r st x).
  { intros x Hx. unfold settled, settledIn.
    destruct (decide (x ∈ uv_name <$> State.choices st)) as [Hn|Hn].
    - apply list_elem_of_fmap in Hn as (w & -> & Hw). right. left. by exists w.
    - left. rewrite Hdeps. apply elem_of_remove_names. split; [done|].
      intros w Hw ->. apply Hn, list_elem_of_fmap. by exists w. }
  assert (Hnew : forall x,
            x ∈ uv_dependencies u
            \/ (exists c w, c ∈ E /\ getSatisfyingUnitVersion c r = Some w
                            /\ x ∈ uv_dependencies w) ->
            settled r st x).
  { intros x Hx.
    destruct (decide (x ∈ c_name <$> E)) as [Hpin|Hpin].
    - apply list_elem_of_fmap in Hpin as (c & -> & Hc).
      destruct (Forall2_sat_l _ _ _ _ Hvs Hc) as (w & Hw & Hin).
      right. right. exists c, w. split; [by apply HEin|].
      split; [|split; [done|split; [done|by apply Hvsin]]].
      by destruct (exactTransitiveConstraints_origin _ _ _ _ HE c Hc).
    - apply Hdep, DependenciesList_elem_of_union. right. apply Hds.
      split; [done|]. intros c Hc ->. apply Hpin, list_elem_of_fmap. by exists c. }
  split; [done|]. split; [done|]. split; [done|]. split.
  { intros c Hc. rewrite Hcs. apply ConstraintsList_elem_of_union. right.
    apply elem_of_transitiveConstraintsOf. auto. }
  split.
  { intros c Hc. rewrite Hcs in Hc.
    apply ConstraintsList_elem_of_union in Hc as [?|Hc]; [auto|].
    apply elem_of_transitiveConstraintsOf in Hc as [?|(w & Hw & ?)]; right.
    - by exists u.
    - exists w. auto. }
  split.
  { intros x Hx. rewrite Hdeps in Hx. apply elem_of_remove_names in Hx as [Hx _].
    apply DependenciesList_elem_of_union in Hx as [?|Hx]; [auto|]. right.
    apply Hds in Hx as [[?|(c & w & Hc & Hw & Hxw)] _].
    - by exists u.
    - exists w. split; [|done]. apply Hvsin.
      destruct (Forall2_sat_l _ _ _ _ Hvs Hc) as (w' & Hw' & Hin). congruence. }
  split.
  { intros x [Hx|[(w & Hw & Hn)|(c & w & Hc & He & Hn & Hw & Hin)]].
    - apply Hdep, DependenciesList_elem_of_union. auto.
    - right. left. exists w. auto.
    - right. right. exists c, w. auto 10. }
  split.
  { intros x w [->|[Hw Hnew']] Hx.
    - apply Hnew. auto.
    - rewrite Hchs in Hw.
      apply elem_of_js_union in Hw as [[?| ->%list_elem_of_singleton]%elem_of_app|Hw];
        [done|apply Hnew; auto|].
      destruct (Forall2_sat_r _ _ _ _ Hvs Hw) as (c & Hc & Hs).
      apply Hnew. right. by exists c, w. }
  intros c w Hw Hnew' Hc. rewrite Hcs. apply ConstraintsList_elem_of_union.
  right. apply elem_of_transitiveConstraintsOf. rewrite Hchs in Hw.
  apply elem_of_js_union in Hw as [[?| ->%list_elem_of_singleton]%elem_of_app|Hw];
    [done|auto|]. right. by exists w.
Qed.

Lemma enqueueAll_keeps queue isEnqueued exactDeps (x : UnitVersion) :
  x ∈ queue -> x ∈ (enqueueAll queue isEnqueued exactDeps).1.
Proof.
  unfold enqueueAll. revert queue isEnqueued.
  induction exactDeps as [|d ds IH]; intros queue enq Hx; simpl; [done|].
  case_bool_decide; apply IH; simpl; set_solver.
Qed.

Lemma bind_Throw {A B} (m : outcome A) (f : A -> outcome B) msg :
  m ≫= f = Throw msg ->
  m = Throw msg \/ exists a, m = Return a /\ f a = Throw msg.
Proof. destruct m; simpl; [eauto| |done]. intros [= <-]. auto. Qed.

Lemma foldM_Throw {A B} (f : B -> A -> outcome B) acc l msg :
  foldM f acc l = Throw msg -> exists a x, x ∈ l /\ f a x = Throw msg.
Proof.
  revert acc. induction l as [|x l IH]; intros acc; simpl; [done|].
  intros [E|(b & E & (a & y & Hy & Ey)%IH)]%bind_Throw.
  - exists acc, x. split; [left|done].
  - exists a, y. split; [by right|done].
Qed.


Lemma satisfyingOrThrow_Throw r c msg :
  satisfyingOrThrow r c = Throw msg ->
  getSatisfyingUnitVersion c r = None /\ msg = noUnitVersionMsg c.
Proof.
  unfold satisfyingOrThrow.
  destruct (getSatisfyingUnitVersion c r); [done|]. by intros [= <-].
Qed.

Lemma exactTransitiveConstraints_Throw fuel r u msg :
  _exactTransitiveConstraints fuel r u = Throw msg ->
  exists c, c_exact c = true /\ getSatisfyingUnitVersion c r = None
            /\ msg = noUnitVersionMsg c.
Proof.
  revert u. induction fuel as [|fuel IH]; intros u; simpl; [done|].
  intros (a & c & Hc & E)%foldM_Throw.
  apply elem_of_exact_filter in Hc as [_ He].
  apply bind_Throw in E as [E|(w & Hw & E)].
  - apply satisfyingOrThrow_Throw in E as [? ?]. by exists c.
  - apply bind_Throw in E as [E|(sub & _ & E)]; [by eapply IH|done].
Qed.

Lemma collect_Throw {B} (g : B -> UnitVersion -> B) r acc (l : list Constraint) msg :
  foldM (fun b c => uv ← satisfyingOrThrow r c; Return (g b uv)) acc l = Throw msg ->
  exists c, c ∈ l /\ getSatisfyingUnitVersion c r = None
            /\ msg = noUnitVersionMsg c.
Proof.
  intros (a & c & Hc & E)%foldM_Throw. exists c. split; [done|].
  apply bind_Throw in E as [E|(w & _ & E)]; [|done].
  by apply satisfyingOrThrow_Throw.
Qed.

Lemma propagateBody_Throw fuel r u deps cs chs msg :
  propagateBody fuel r u deps cs chs = Throw msg ->
  exists c, c_exact c = true /\ getSatisfyingUnitVersion c r = None
            /\ msg = noUnitVersionMsg c.
Proof.
  unfold propagateBody. intros E.
  apply bind_Throw in E as [E|(vs & Hvs & E)].
  { unfold exactTransitiveDependenciesVersions in E.
    apply bind_Throw in E as [E|(E0 & HE & E)];
      [by eapply exactTransitiveConstraints_Throw|].
    apply (collect_Throw (fun uvs uv => uvs ++ [uv])) in E as (c & Hc & ? & ?).
    exists c. split; [|done].
    by destruct (exactTransitiveConstraints_origin _ _ _ _ HE c Hc). }
  apply bind_Throw in E as [E|(ds & Hds & E)].
  { unfold inexactTransitiveDependencies in E.
    apply bind_Throw in E as [E|(E0 & HE & E)];
      [by eapply exactTransitiveConstraints_Throw|].
    apply bind_Throw in E as [E|(? & _ & E)]; [|done].
    apply (collect_Throw
             (fun deps uv => DependenciesList.union deps (uv_dependencies uv)))
      in E as (c & Hc & ? & ?).
    exists c. split; [|done].
    by destruct (exactTransitiveConstraints_origin _ _ _ _ HE c Hc). }
  apply bind_Throw in E as [E|(? & _ & E)]; [|done].
  unfold collectExactDeps in E.
  apply (collect_Throw (fun uvs uv => uvs ++ [uv])) in E as (c & Hc & ? & ?).
  exists c. split; [|done].
  unfold newExactConstraintsList in Hc.
  apply ConstraintsList_elem_of_union in Hc
    as [Hc|Hc]; by apply elem_of_exact_filter in Hc as [_ ?].
Qed.

Lemma propagateLoop_Throw fuel r queue enq deps cs chs msg :
  propagateLoop fuel r queue enq deps cs chs = Throw msg ->
  exists c, c_exact c = true /\ getSatisfyingUnitVersion c r = None
            /\ msg = noUnitVersionMsg c.
Proof.
  revert queue enq deps cs chs.
  induction fuel as [|fuel IH]; intros [|u queue] enq deps cs chs; simpl;
    try done.
  intros [E|([st eds] & _ & E)]%bind_Throw.
  - by eapply propagateBody_Throw.
  - by eapply IH.
Qed.

Lemma propagateLoop_grows fuel r queue enq deps cs chs s :
  propagateLoop fuel r queue enq deps cs chs = Return s ->
  (forall x, x ∈ chs -> x ∈ State.choices s)
  /\ (forall c, c ∈ cs -> c ∈ State.constraints s)
  /\ (forall q, q ∈ queue ->
        q ∈ State.choices s
        /\ (forall c, c ∈ uv_constraints q -> c ∈ State.constraints s)
        /\ forall x, x ∈ uv_dependencies q -> settled r s x)
  /\ (forall c, c ∈ State.constraints s ->
        c ∈ cs \/ exists w, w ∈ State.choices s /\ c ∈ uv_constraints w)
  /\ (forall x, x ∈ State.dependencies s ->
        x ∈ deps \/ exists w, w ∈ State.choices s /\ x ∈ uv_dependencies w)
  /\ (forall x, settledIn r deps cs chs x -> settled r s x)
  /\ (forall w, w ∈ State.choices s -> w ∉ chs ->
        (forall x, x ∈ uv_dependencies w -> settled r s x)
        /\ forall c, c ∈ uv_constraints w -> c ∈ State.constraints s).
Proof.
  revert queue enq deps cs chs s.
  induction fuel as [|fuel IH]; intros [|u queue] enq deps cs chs s; simpl;
    try done.
  - intros [= <-]. simpl. split; [done|]. split; [done|].
    split; [by intros ? ?%elem_of_nil|]. split; [auto|]. split; [auto|].
    split; [done|]. done.
  - intros [= <-]. simpl. split; [done|]. split; [done|].
    split; [by intros ? ?%elem_of_nil|]. split; [auto|]. split; [auto|].
    split; [done|]. done.
  - intros E. apply bind_Return in E as ([st eds] & Eb & E). simpl in E.
    apply propagateBody_grows in Eb
      as (B1 & B2 & B3 & B4 & B5 & B6 & B7 & B8 & B9).
    apply IH in E as (L1 & L2 & L3 & L4 & L5 & L6 & L7).
    split; [auto|]. split; [auto|]. split.
    { intros q [->|Hq]%elem_of_cons.
      - split; [auto|]. split; [auto|]. intros x Hx. apply L6. fold (settled r st x).
        eapply B8; [by left|done].
      - apply L3. by apply enqueueAll_keeps. }
    split.
    { intros c Hc. destruct (L4 c Hc) as [Hst|?]; [|auto].
      destruct (B5 c Hst) as [?|(w & Hw & Hcw)]; [auto|].
      right. exists w. auto. }
    split.
    { intros x Hx. destruct (L5 x Hx) as [Hst|?]; [|auto].
      destruct (B6 x Hst) as [?|(w & Hw & Hcw)]; [auto|].
      right. exists w. auto. }
    split.
    { intros x Hx. apply L6. by apply B7. }
    intros w Hw Hnew.
    destruct (decide (w ∈ State.choices st)) as [Hst|Hst].
    + split.
      * intros x Hx. apply L6. eapply B8; [right|]; done.
      * intros c Hc. eapply L2, B9; done.
    + by apply L7.
Qed.

(** X13. A propagation that returns only extends what it was given: the
    dequeued unit version and the passed choices are choices, the passed
    constraints and those of the unit version are constraints, no chosen name
    is left pending, and every constraint and pending dependency of the
    result was passed in or belongs to a choice of the result. *)
Theorem propagation_extends_state fuel r uv deps cs chs s :
  _propagateExactTransDeps fuel r uv deps cs chs = Return s ->
  (forall x, x = uv \/ x ∈ chs -> x ∈ State.choices s)
  /\ (forall c, c ∈ cs \/ c ∈ uv_constraints uv -> c ∈ State.constraints s)
  /\ (forall x, x ∈ State.choices s -> uv_name x ∉ State.dependencies s)
  /\ (forall c, c ∈ State.constraints s ->
        c ∈ cs \/ exists w, w ∈ State.choices s /\ c ∈ uv_constraints w)
  /\ (forall x, x ∈ State.dependencies s ->
        x ∈ deps \/ exists w, w ∈ State.choices s /\ x ∈ uv_dependencies w).
Proof.
  intros E. pose proof E as Hspec.
  apply (propagateLoop_spec _ _ uv chs cs) in Hspec as (_ & Hnot & _);
    [| set_solver | | done | auto].
  2:{ intros x Hx. auto. }
  apply propagateLoop_grows in E as (L1 & L2 & L3 & L4 & L5 & _).
  destruct (L3 uv) as (Q1 & Q2 & _); [set_solver|].
  split; [by intros x [->|?]; auto|].
  split; [intros c [?|?]; auto|]. done.
Qed.

(** X14. A propagation that returns drops no dependency: every
    dependency passed in, and every dependency of the dequeued unit version
    and of each choice it added, is in the result pending, or the name of a
    choice, or the name of an exact constraint of the result whose unit
    version is a choice. The constraints of the added choices are
    constraints of the result. *)
Theorem propagation_settles_dependencies fuel r uv deps cs chs s :
  _propagateExactTransDeps fuel r uv deps cs chs = Return s ->
  (forall x, x ∈ deps -> settled r s x)
  /\ (forall w, w ∈ State.choices s -> w = uv \/ w ∉ chs ->
        (forall x, x ∈ uv_dependencies w -> settled r s x)
        /\ (forall c, c ∈ uv_constraints w -> c ∈ State.constraints s)).
Proof.
  intros E.
  apply propagateLoop_grows in E as (_ & _ & L3 & _ & _ & L6 & L7).
  split; [intros x Hx; apply L6; by left|].
  intros w Hw [->|Hnew]; [|by apply L7].
  destruct (L3 uv) as (_ & ? & ?); [set_solver|done].
Qed.

(** X15. The only error a propagation throws is that of an exact
    constraint without a unit version in the resolver. *)
Theorem propagation_throws_only_unresolved_pin fuel r uv deps cs chs msg :
  _propagateExactTransDeps fuel r uv deps cs chs = Throw msg ->
  exists c, c_exact c = true /\ getSatisfyingUnitVersion c r = None
            /\ msg = noUnitVersionMsg c.
Proof. apply propagateLoop_Throw. Qed.

(** ** Neighbour expansion *)

Lemma filter_nil_Forall {A} (f : A -> bool) l :
  List.filter f l = [] -> Forall (fun x => f x = false) l.
Proof.
  induction l as [|x l IH]; simpl; [constructor|].
  destruct (f x) eqn:E; [done|]. constructor; auto.
Qed.

Lemma filter_all {A} (f : A -> bool) l :
  Forall (fun x => f x = true) l -> List.filter f l = l.
Proof. induction 1 as [|x l Hx _ IH]; simpl; [done|]. by rewrite Hx, IH. Qed.

Lemma Forall2_last {A B} (R : A -> B -> Prop) l k y :
  Forall2 R l k -> last k = Some y -> exists x, last l = Some x /\ R x y.
Proof.
  induction 1 as [|a b l k Hab Hlk IH]; [done|].
  destruct Hlk as [|a' b' l' k' Hab' Hlk'].
  - simpl. intros [= <-]. by exists a.
  - rewrite !last_cons_cons. exact IH.
Qed.


Lemma elem_of_candidateVersionsOf r st uv :
  uv ∈ candidateVersionsOf r st <->
  uv ∈ default [] (unitsVersions r !! candidateNameOf st)
  /\ violated (State.constraints st) uv = false.
Proof.
  unfold candidateVersionsOf.
  rewrite list_elem_of_In, List.filter_In, <- list_elem_of_In, negb_true_iff.
  done.
Qed.

Lemma stateNeighbors_unfold fuel r st obj :
  _stateNeighbors fuel r st = Return obj ->
  (candidateVersionsOf r st = []
   /\ obj = {| success := false;
               failureMsg :=
                 Some ("Cannot choose satisfying versions of package -- "
                       +:+ candidateNameOf st);
               neighbors := []; triedUnitVersions := None;
               lastInvalidNeighbor := None |})
  \/ exists states,
       candidateVersionsOf r st <> []
       /\ Forall2 (fun uv n => neighborOf fuel r st uv = Return n)
            (candidateVersionsOf r st) states
       /\ ((List.filter stateIsValid states = []
            /\ obj = {| success := false;
                        failureMsg :=
                          Some ("None of the versions unit produces a sensible result -- "
                                +:+ candidateNameOf st);
                        neighbors := [];
                        triedUnitVersions := Some (candidateVersionsOf r st);
                        lastInvalidNeighbor :=
                          last (List.filter (fun s => negb (stateIsValid s))
                                  states) |})
           \/ (List.filter stateIsValid states <> []
               /\ obj = {| success := true; failureMsg := None;
                           neighbors := List.filter stateIsValid states;
                           triedUnitVersions := None;
                           lastInvalidNeighbor := None |})).
Proof.
  unfold _stateNeighbors.
  destruct (candidateVersionsOf r st) as [|uv0 cands] eqn:Ec.
  { intros [= <-]. by left. }
  intros E. apply bind_Return in E as (states & Em & E).
  apply mapM_Return in Em. right. exists states.
  split; [done|]. split; [done|].
  destruct (List.filter stateIsValid states) as [|n ns] eqn:En;
    injection E as <-; [by left|by right].
Qed.

Lemma neighborOf_extends fuel r st uv n :
  neighborOf fuel r st uv = Return n ->
  uv ∈ State.choices n
  /\ (forall x, x ∈ State.choices st -> x ∈ State.choices n)
  /\ (forall c, c ∈ State.constraints st \/ c ∈ uv_constraints uv ->
        c ∈ State.constraints n)
  /\ (forall x, x ∈ State.choices n -> uv_name x ∉ State.dependencies n)
  /\ (forall x, x ∈ State.dependencies n ->
        (x ∈ State.dependencies st /\ x <> candidateNameOf st)
        \/ exists w, w ∈ State.choices n /\ x ∈ uv_dependencies w).
Proof.
  unfold neighborOf. intros E. pose proof E as Hspec.
  apply (propagateLoop_spec _ _ uv (State.choices st ++ [uv])
           (State.constraints st)) in Hspec as (_ & Hnot & _);
    [| set_solver | | done | auto].
  2:{ intros x Hx. auto. }
  apply propagateLoop_grows in E as (L1 & L2 & L3 & L4 & L5 & _).
  destruct (L3 uv) as (Q1 & Q2 & _); [set_solver|].
  split; [done|]. split; [intros x Hx; apply L1; set_solver|].
  split; [intros c [?|?]; auto|]. split; [done|].
  intros x Hx. destruct (L5 x Hx) as [Hd|?]; [|auto].
  left. by apply DependenciesList_elem_of_remove in Hd.
Qed.

(** X18. The neighbours [_stateNeighbors] returns are, in the order of
    the candidates, the valid states propagated from the unit versions that
    are listed under the name of the first pending dependency and not
    violated by the state's constraints. Each of them keeps the choices and
    the constraints of the state, has the candidate among its choices and
    has no chosen name pending. The call succeeds exactly when there is
    one. *)
Theorem stateNeighbors_are_valid_extensions fuel r st obj :
  _stateNeighbors fuel r st = Return obj ->
  (success obj = true <-> neighbors obj <> [])
  /\ (exists states,
        Forall2 (fun uv n => neighborOf fuel r st uv = Return n)
          (candidateVersionsOf r st) states
        /\ neighbors obj = List.filter stateIsValid states)
  /\ forall n, n ∈ neighbors obj ->
       stateIsValid n = true
       /\ exists uv,
            uv ∈ default [] (unitsVersions r !! candidateNameOf st)
            /\ violated (State.constraints st) uv = false
            /\ neighborOf fuel r st uv = Return n
            /\ uv ∈ State.choices n
            /\ (forall x, x ∈ State.choices st -> x ∈ State.choices n)
            /\ (forall c, c ∈ State.constraints st -> c ∈ State.constraints n)
            /\ (forall x, x ∈ State.choices n ->
                  uv_name x ∉ State.dependencies n).
Proof.
  intros E.
  apply stateNeighbors_unfold in E
    as [[Ec ->]|(states & Hne & Hall & [[En ->]|[En ->]])]; simpl.
  - split; [done|]. split; [|by intros n ?%elem_of_nil].
    exists []. rewrite Ec. split; [constructor|done].
  - split; [done|]. split; [|by intros n ?%elem_of_nil]. by exists states.
  - split; [done|]. split; [by exists states|].
    intros n Hn. apply list_elem_of_In, List.filter_In in Hn as [Hn Hv].
    split; [done|].
    apply list_elem_of_In, list_elem_of_lookup_1 in Hn as [i Hi].
    destruct (Forall2_lookup_r _ _ _ _ _ Hall Hi) as (uv & Huv & Hnb).
    apply list_elem_of_lookup_2, elem_of_candidateVersionsOf in Huv as [? ?].
    destruct (neighborOf_extends _ _ _ _ _ Hnb) as (N1 & N2 & N3 & N4 & _).
    exists uv. split; [done|]. split; [done|]. split; [done|].
    split; [done|]. split; [done|]. split; [|done]. auto.
Qed.

(** X19. When [_stateNeighbors] returns a failure there are no
    neighbours, and either no listed unit version of the pending name passes
    the state's constraints (message "Cannot choose satisfying versions of
    package -- <name>", nothing else reported), or every candidate gives an
    invalid state: then the message is "None of the versions unit produces a
    sensible result -- <name>", [triedUnitVersions] is the list of candidates
    and [lastInvalidNeighbor] is the invalid state of the last candidate. *)
Theorem stateNeighbors_failure_report fuel r st obj :
  _stateNeighbors fuel r st = Return obj -> success obj = false ->
  neighbors obj = []
  /\ ((candidateVersionsOf r st = []
       /\ failureMsg obj
          = Some ("Cannot choose satisfying versions of package -- "
                  +:+ candidateNameOf st)
       /\ triedUnitVersions obj = None /\ lastInvalidNeighbor obj = None)
      \/ (exists uv n,
            last (candidateVersionsOf r st) = Some uv
            /\ neighborOf fuel r st uv = Return n
            /\ stateIsValid n = false
            /\ lastInvalidNeighbor obj = Some n
            /\ triedUnitVersions obj = Some (candidateVersionsOf r st)
            /\ failureMsg obj
               = Some ("None of the versions unit produces a sensible result -- "
                       +:+ candidateNameOf st)
            /\ forall uv' n', uv' ∈ candidateVersionsOf r st ->
                 neighborOf fuel r st uv' = Return n' ->
                 stateIsValid n' = false)).
Proof.
  intros E.
  apply stateNeighbors_unfold in E
    as [[Ec ->]|(states & Hne & Hall & [[En ->]|[En ->]])]; simpl; [| |done].
  - intros _. split; [done|]. by left.
  - intros _. split; [done|]. right.
    apply filter_nil_Forall in En.
    assert (Hinv : List.filter (fun s => negb (stateIsValid s)) states = states).
    { apply filter_all. eapply Forall_impl; [exact En|].
      intros s Hs. simpl in Hs. by rewrite Hs. }
    rewrite Hinv.
    destruct (last states) as [n|] eqn:El.
    2:{ apply last_None in El. subst states.
        apply Forall2_nil_inv_r in Hall. done. }
    destruct (Forall2_last _ _ _ _ Hall El) as (uv & Hlast & Hn).
    exists uv, n. split; [done|]. split; [done|]. split.
    { rewrite Forall_forall in En. apply En. by eapply last_Some_elem_of. }
    split; [done|]. split; [done|]. split; [done|].
    intros uv' n' [i Hi]%list_elem_of_lookup_1 Hn'.
    destruct (Forall2_lookup_l _ _ _ _ _ Hall Hi) as (n'' & Hn'' & E'').
    assert (n'' = n') as -> by congruence.
    rewrite Forall_forall in En. apply En. by eapply list_elem_of_lookup_2.
Qed.



Lemma stateNeighbors_Forall (P : State.t -> Prop) fuel r st obj :
  (forall uv n, uv ∈ candidateVersionsOf r st ->
     neighborOf fuel r st uv = Return n -> stateIsValid n = true -> P n) ->
  _stateNeighbors fuel r st = Return obj ->
  Forall P (neighbors obj).
Proof.
  intros HP E.
  apply stateNeighbors_unfold in E
    as [[Ec ->]|(states & Hne & Hall & [[En ->]|[En ->]])]; simpl;
    [constructor..|].
  apply Forall_forall. intros n Hn.
  apply list_elem_of_In, List.filter_In in Hn as [Hn Hv].
  apply list_elem_of_In, list_elem_of_lookup_1 in Hn as [i Hi].
  destruct (Forall2_lookup_r _ _ _ _ _ Hall Hi) as (uv & Huv & Hnb).
  eapply HP; [|done..]. by eapply list_elem_of_lookup_2.
Qed.

(** ** Invariants of the search *)




Lemma resolveLoop_invariant (P : State.t -> Prop) fuel r sc pq e solution :
  (forall fuel' st obj,
     P st -> DependenciesList.isEmpty (State.dependencies st) = false ->
     _stateNeighbors fuel' r st = Return obj -> Forall P (neighbors obj)) ->
  Forall (fun item => P item.1) pq ->
  resolveLoop fuel r sc pq e = Return solution ->
  exists final,
    P final /\ State.dependencies final = [] /\ State.choices final = solution.
Proof.
  intros Hstep. revert pq e.
  induction fuel as [|fuel IH]; intros pq e Hpq; simpl; [done|].
  unfold resolveStep.
  destruct (PriorityQueue.pop pq) as [[[cur key] rest]|] eqn:Ep;
    [|by destruct e].
  apply pop_spec in Ep as [Perm _].
  rewrite Perm in Hpq. apply Forall_cons in Hpq as [Hcur Hrest]. simpl in Hcur.
  case_bool_decide; [by destruct e|].
  destruct (DependenciesList.isEmpty (State.dependencies cur)) eqn:Ed.
  { intros [= <-]. exists cur. split; [done|]. split; [|done]. revert Ed.
    by destruct (State.dependencies cur). }
  destruct (_stateNeighbors fuel r cur) as [obj| |] eqn:En; [|done..].
  destruct (success obj); simpl; [|by apply IH].
  apply IH. rewrite pushNeighbors_spec. apply Forall_app. split; [done|].
  apply Forall_fmap. simpl. by eapply Hstep.
Qed.





(** ** The errors of [resolve] *)



Lemma success_neighbors fuel r st obj :
  _stateNeighbors fuel r st = Return obj -> success obj = true ->
  neighbors obj <> [].
Proof.
  intros E.
  by apply stateNeighbors_unfold in E
    as [[Ec ->]|(states & Hne & Hall & [[En ->]|[En ->]])].
Qed.



Lemma startState_Throw fuel r deps cs chs msg :
  startState fuel r deps cs chs = Throw msg ->
  exists c, c_exact c = true /\ getSatisfyingUnitVersion c r = None
            /\ msg = noUnitVersionMsg c.
Proof.
  unfold startState. intros [E|(s0 & _ & E)]%bind_Throw; [|done].
  by eapply propagateLoop_Throw.
Qed.



(** X22. When the sum of cost and estimate of the start state is
    [Infinity], [resolve] gives up at once, also when the start state has no
    dependency left. *)
Theorem resolve_gives_up_on_infinite_start fuel r deps cs chs options start :
  stopAfterFirstPropagation options = false ->
  startState fuel r deps (default [] cs) (default [] chs) = Return start ->
  number_add
    (default defaultCostFunction (costFunction options) (State.choices start)
       {| rootDependencies := deps |})
    (default defaultEstimateCostFunction (estimateCostFunction options) start
       {| rootDependencies := deps |})
  = Infinity ->
  resolve fuel r deps cs chs options = Throw "Couldn't resolve, I am sorry".
Proof.
  intros Hstop Hstart Hinf. unfold resolve. rewrite Hstart, Hstop. simpl.
  destruct fuel as [|fuel]; [done|]. simpl. unfold resolveStep. simpl.
  by rewrite bool_decide_eq_true_2.
Qed.

(** ** What [resolve] returns *)



Lemma startState_keeps fuel r deps cs chs s (x : UnitVersion) :
  startState fuel r deps cs chs = Return s ->
  x ∈ chs -> uv_name x <> "target" -> x ∈ State.choices s.
Proof.
  unfold startState. intros E Hx Hn.
  apply bind_Return in E as (s0 & E0 & [= <-]).
  unfold _propagateExactTransDeps in E0.
  apply propagateLoop_grows in E0 as (L1 & _). simpl.
  apply list_elem_of_In, List.filter_In. split; [by apply list_elem_of_In, L1|].
  by apply negb_true_iff, String.eqb_neq.
Qed.

Lemma startState_no_target fuel r deps cs chs s (x : UnitVersion) :
  startState fuel r deps cs chs = Return s ->
  x ∈ State.choices s -> uv_name x <> "target".
Proof.
  unfold startState. intros E.
  apply bind_Return in E as (s0 & E0 & [= <-]). simpl.
  intros [_ Hx]%list_elem_of_In%List.filter_In.
  by apply negb_true_iff, String.eqb_neq in Hx.
Qed.

(** X23. What [resolve] returns contains every passed choice that is not
    named "target". *)
Theorem resolve_keeps_passed_choices fuel r deps cs chs options solution :
  resolve fuel r deps cs chs options = Return solution ->
  forall x, x ∈ default [] chs -> uv_name x <> "target" -> x ∈ solution.
Proof.
  unfold resolve. intros E x Hx Hn.
  apply bind_Return in E as (start & Hstart & E).
  pose proof (startState_keeps _ _ _ _ _ _ _ Hstart Hx Hn) as Hin.
  destruct (stopAfterFirstPropagation options); [by injection E as <-|].
  revert E. intros E.
  apply (resolveLoop_invariant (fun s => x ∈ State.choices s)) in E
    as (final & Hf & _ & <-); [done| |].
  - intros fuel' st obj Hst _. apply stateNeighbors_Forall.
    intros uv n _ Hn' _.
    destruct (neighborOf_extends _ _ _ _ _ Hn') as (_ & N2 & _). auto.
  - unfold pushStart, PriorityQueue.push. simpl. by constructor.
Qed.



(** X26. With [stopAfterFirstPropagation], [resolve] returns after the
    first propagation: the passed choices and unit versions of exact
    constraints, without repeats and without a unit version named "target";
    the only error is that of an exact constraint without a unit version. *)
Theorem resolve_first_propagation fuel r deps cs chs options :
  stopAfterFirstPropagation options = true ->
  match resolve fuel r deps cs chs options with
  | Return solution =>
      NoDup solution
      /\ (forall x, x ∈ solution -> uv_name x <> "target")
      /\ (forall x, x ∈ default [] chs -> uv_name x <> "target" -> x ∈ solution)
      /\ (forall x, x ∈ solution ->
            x ∈ default [] chs
            \/ exists c, c_exact c = true
                         /\ getSatisfyingUnitVersion c r = Some x)
  | Throw msg =>
      exists c, c_exact c = true /\ getSatisfyingUnitVersion c r = None
                /\ msg = noUnitVersionMsg c
  | OutOfFuel => True
  end.
Proof.
  intros Hstop. unfold resolve. rewrite Hstop.
  destruct (startState fuel r deps (default [] cs) (default [] chs))
    as [start|msg|] eqn:Hstart; simpl; [| |done].
  2:{ by eapply startState_Throw. }
  split; [by eapply startState_NoDup|].
  split; [intros x Hx; by eapply startState_no_target|].
  split; [intros x Hx Hn; by eapply startState_keeps|].
  intros x Hx. unfold startState in Hstart.
  apply bind_Return in Hstart as (s0 & E0 & [= <-]). simpl in Hx.
  apply list_elem_of_In, List.filter_In in Hx as [Hx Ht].
  apply list_elem_of_In in Hx.
  unfold _propagateExactTransDeps in E0.
  match type of E0 with
  | propagateLoop _ _ [?u] _ _ _ _ = _ => set (appUV := u) in *
  end.
  eapply (propagateLoop_spec _ _ appUV (default [] chs)
            (ConstraintsList.fromArray (default [] cs)))
    in E0 as (O1 & _); [|set_solver|auto|done|auto].
  destruct (O1 x Hx) as [?|[->|(c & _ & ? & ?)]]; [auto|done|].
  right. by exists c.
Qed.

(** ** Termination *)

Lemma bind_not_OutOfFuel {A B} (m : outcome A) (f : A -> outcome B) :
  m <> OutOfFuel -> (forall a, m = Return a -> f a <> OutOfFuel) ->
  m ≫= f <> OutOfFuel.
Proof. destruct m; simpl; [auto|done|done]. Qed.

Lemma foldM_not_OutOfFuel {A B} (f : B -> A -> outcome B) acc l :
  (forall a x, x ∈ l -> f a x <> OutOfFuel) -> foldM f acc l <> OutOfFuel.
Proof.
  revert acc. induction l as [|x l IH]; intros acc Hf; simpl; [done|].
  apply bind_not_OutOfFuel.
  - apply Hf. left.
  - intros b _. apply IH. intros a y Hy. apply Hf. by right.
Qed.

Lemma enqueueAll_measure (U : gset string) queue enq eds :
  (forall d : UnitVersion, d ∈ eds -> uv_name d ∈ U) ->
  length (enqueueAll queue enq eds).1 + size (U ∖ (enqueueAll queue enq eds).2)
  <= length queue + size (U ∖ enq).
Proof.
  unfold enqueueAll. revert queue enq.
  induction eds as [|d eds IH]; intros queue enq HU; simpl; [done|].
  assert (HU' : forall d : UnitVersion, d ∈ eds -> uv_name d ∈ U).
  { intros d' Hd'. apply HU. by right. }
  case_bool_decide as Hin; [by apply IH|].
  etrans; [by apply IH|]. simpl. rewrite length_app. simpl.
  assert (Hsplit : U ∖ enq = {[uv_name d]} ∪ U ∖ ({[uv_name d]} ∪ enq)).
  { apply set_eq. intros x. destruct (decide (x = uv_name d)) as [->|Hne].
    - split; [set_solver|]. intros _. apply elem_of_difference.
      split; [apply HU; left|done].
    - set_solver. }
  rewrite Hsplit.
  rewrite (size_union (C:=gset string) {[uv_name d]}) by set_solver.
  rewrite size_singleton. lia.
Qed.


Lemma satisfyingOrThrow_not_OutOfFuel r c :
  satisfyingOrThrow r c <> OutOfFuel.
Proof.
  unfold satisfyingOrThrow. by destruct (getSatisfyingUnitVersion c r).
Qed.

Section RankedPins.
Variable r : Resolver.
Variable rank : UnitVersion -> nat.
Hypothesis rank_decreases : forall u c w,
  c ∈ exactConstraintsIntersection (uv_dependencies u) (uv_constraints u) ->
  getSatisfyingUnitVersion c r = Some w -> rank w < rank u.

Lemma exactTransitiveConstraints_ends fuel u :
  rank u < fuel -> _exactTransitiveConstraints fuel r u <> OutOfFuel.
Proof.
  revert u. induction fuel as [|fuel IH]; intros u Hu; [lia|]. simpl.
  apply foldM_not_OutOfFuel. intros a c Hc.
  apply bind_not_OutOfFuel; [apply satisfyingOrThrow_not_OutOfFuel|].
  intros w Hw%satisfyingOrThrow_Return.
  apply bind_not_OutOfFuel; [|done].
  apply IH. pose proof (rank_decreases u c w Hc Hw). lia.
Qed.

Lemma collect_not_OutOfFuel {B} (g : B -> UnitVersion -> B) acc
  (l : list Constraint) :
  foldM (fun b c => uv ← satisfyingOrThrow r c; Return (g b uv)) acc l
  <> OutOfFuel.
Proof.
  apply foldM_not_OutOfFuel. intros a c _.
  apply bind_not_OutOfFuel; [apply satisfyingOrThrow_not_OutOfFuel|done].
Qed.

Lemma propagateBody_ends fuel u deps cs chs :
  rank u < fuel -> propagateBody fuel r u deps cs chs <> OutOfFuel.
Proof.
  intros Hu. pose proof (exactTransitiveConstraints_ends fuel u Hu) as He.
  unfold propagateBody. apply bind_not_OutOfFuel.
  { unfold exactTransitiveDependenciesVersions.
    apply bind_not_OutOfFuel; [done|]. intros E _.
    apply (collect_not_OutOfFuel (fun uvs uv => uvs ++ [uv])). }
  intros vs _. apply bind_not_OutOfFuel.
  { unfold inexactTransitiveDependencies.
    apply bind_not_OutOfFuel; [done|]. intros E _.
    apply bind_not_OutOfFuel; [|done].
    apply (collect_not_OutOfFuel
             (fun deps uv => DependenciesList.union deps (uv_dependencies uv))). }
  intros ds _. apply bind_not_OutOfFuel; [|done].
  apply (collect_not_OutOfFuel (fun uvs uv => uvs ++ [uv])).
Qed.

Variable U : gset string.
Variable R : nat.
Hypothesis rank_bounded : forall u, rank u < R.
Hypothesis names_in_U : forall c w,
  c_exact c = true -> getSatisfyingUnitVersion c r = Some w -> uv_name w ∈ U.

Lemma propagateLoop_ends n fuel queue enq deps cs chs :
  length queue + size (U ∖ enq) <= n -> R + n <= fuel ->
  propagateLoop fuel r queue enq deps cs chs <> OutOfFuel.
Proof.
  revert fuel queue enq deps cs chs.
  induction n as [|n IH]; intros fuel [|u queue] enq deps cs chs Hn Hfuel;
    try (by destruct fuel); simpl in Hn; [lia|].
  destruct fuel as [|fuel]; [lia|]. simpl.
  apply bind_not_OutOfFuel.
  { apply propagateBody_ends. pose proof (rank_bounded u). lia. }
  intros [st eds] Hb. simpl. apply IH; [|lia].
  etrans; [apply enqueueAll_measure|lia].
  intros d Hd.
  destruct (propagateBody_unfold _ _ _ _ _ _ _ _ Hb)
    as (_ & _ & _ & _ & _ & _ & _ & _ & _ & Hall).
  destruct (Forall2_sat_r _ _ _ _ Hall Hd) as (c & Hc & Hs).
  eapply names_in_U; [|done].
  unfold newExactConstraintsList in Hc.
  apply ConstraintsList_elem_of_union in Hc
    as [Hc|Hc]; by apply elem_of_exact_filter in Hc as [_ ?].
Qed.
End RankedPins.

(** X12. When the unit versions are ranked so that the unit version of
    each exact constraint a unit version has on one of its dependencies has
    a smaller rank, [_exactTransitiveConstraints] ends: with more fuel than
    the rank of the unit version it returns or throws. *)
Theorem exactTransitiveConstraints_terminates r (rank : UnitVersion -> nat)
  fuel u :
  (forall u c w,
     c ∈ exactConstraintsIntersection (uv_dependencies u) (uv_constraints u) ->
     getSatisfyingUnitVersion c r = Some w -> rank w < rank u) ->
  rank u < fuel ->
  _exactTransitiveConstraints fuel r u <> OutOfFuel.
Proof. intros Hrank. by apply exactTransitiveConstraints_ends. Qed.

(** X16. With such a rank below [R] and the names of the unit versions of
    exact constraints in a set [U], the propagation ends within
    [R + 1 + size U] units of fuel: it dequeues at most one unit version per
    name. *)
Theorem propagation_terminates r (rank : UnitVersion -> nat) (U : gset string)
  R fuel uv deps cs chs :
  (forall u c w,
     c ∈ exactConstraintsIntersection (uv_dependencies u) (uv_constraints u) ->
     getSatisfyingUnitVersion c r = Some w -> rank w < rank u) ->
  (forall u, rank u < R) ->
  (forall c w, c_exact c = true -> getSatisfyingUnitVersion c r = Some w ->
     uv_name w ∈ U) ->
  R + 1 + size U <= fuel ->
  _propagateExactTransDeps fuel r uv deps cs chs <> OutOfFuel.
Proof.
  intros Hrank Hbound HU Hfuel. unfold _propagateExactTransDeps.
  apply (propagateLoop_ends r rank Hrank U R Hbound HU (1 + size U)); [|lia].
  simpl. apply le_n_S, subseteq_size. set_solver.
Qed.

Lemma searchSize_mono B k k' : k <= k' -> searchSize B k <= searchSize B k'.
Proof.
  intros Hk. induction Hk as [|k' _ IH]; [done|]. simpl.
  etrans; [exact IH|]. clear IH. induction k' as [|k' IH]; simpl; nia.
Qed.

Lemma searchSize_pos B k : 1 <= searchSize B k.
Proof. destruct k; simpl; lia. Qed.

Lemma stdlib_filter_length {A} (f : A -> bool) l :
  length (List.filter f l) <= length l.
Proof. induction l as [|x l IH]; simpl; [done|]. destruct (f x); simpl; lia. Qed.

Lemma mapM_not_OutOfFuel {A B} (f : A -> outcome B) l :
  (forall x, x ∈ l -> f x <> OutOfFuel) -> mapM f l <> OutOfFuel.
Proof.
  induction l as [|x l IH]; intros Hf; simpl; [done|].
  apply bind_not_OutOfFuel; [apply Hf; left|]. intros y _.
  apply bind_not_OutOfFuel; [|done]. apply IH. intros z Hz. apply Hf. by right.
Qed.

Lemma sum_list_with_bound {A} (f : A -> nat) l b :
  Forall (fun x => f x <= b) l -> sum_list_with f l <= length l * b.
Proof. induction 1 as [|x l Hx _ IH]; simpl; lia. Qed.

Lemma NoDup_names_length (U : gset string) (chs : list UnitVersion) :
  NoDup (uv_name <$> chs) -> (forall x, x ∈ chs -> uv_name x ∈ U) ->
  length chs <= size U.
Proof.
  intros Hnd HU. rewrite <- (length_fmap uv_name).
  unfold size, set_size. simpl. apply submseteq_length, NoDup_submseteq; [done|].
  intros x (w & -> & Hw)%list_elem_of_fmap. apply elem_of_elements. auto.
Qed.


Section RankedSearch.
Variable r : Resolver.
Variable rank : UnitVersion -> nat.
Variable U : gset string.
Variables R B : nat.
Hypothesis wf_r : wfResolver r.
Hypothesis rank_decreases : forall u c w,
  c ∈ exactConstraintsIntersection (uv_dependencies u) (uv_constraints u) ->
  getSatisfyingUnitVersion c r = Some w -> rank w < rank u.
Hypothesis rank_bounded : forall u, rank u < R.
Hypothesis names_in_U : forall w, interned r w -> uv_name w ∈ U.
Hypothesis listed_bounded : forall name listed,
  unitsVersions r !! name = Some listed -> length listed <= B.

Lemma exact_names_in_U c w :
  c_exact c = true -> getSatisfyingUnitVersion c r = Some w -> uv_name w ∈ U.
Proof.
  intros He Hs. apply names_in_U. unfold getSatisfyingUnitVersion in Hs.
  rewrite He in Hs. unfold interned. by rewrite (wf_key r wf_r _ _ Hs).
Qed.

Lemma stateNeighbors_ends fuel st :
  R + 1 + size U <= fuel -> _stateNeighbors fuel r st <> OutOfFuel.
Proof.
  intros Hfuel. unfold _stateNeighbors.
  destruct (candidateVersionsOf r st) as [|uv0 cands]; [done|].
  apply bind_not_OutOfFuel.
  - apply mapM_not_OutOfFuel. intros uv _. unfold neighborOf.
    unfold _propagateExactTransDeps.
    apply (propagateLoop_ends r rank rank_decreases U R rank_bounded
             exact_names_in_U (1 + size U)); [|lia].
    simpl. apply le_n_S, subseteq_size. set_solver.
  - intros states _. by destruct (List.filter stateIsValid states).
Qed.

Lemma neighbors_length fuel st obj :
  _stateNeighbors fuel r st = Return obj -> length (neighbors obj) <= B.
Proof.
  intros E.
  apply stateNeighbors_unfold in E
    as [[Ec ->]|(states & Hne & Hall & [[En ->]|[En ->]])]; simpl; [lia..|].
  etrans; [apply stdlib_filter_length|].
  rewrite <- (Forall2_length _ _ _ Hall). unfold candidateVersionsOf.
  etrans; [apply stdlib_filter_length|].
  destruct (unitsVersions r !! candidateNameOf st) as [l|] eqn:El; simpl; [|lia].
  by eapply listed_bounded.
Qed.

Lemma good_length st : goodState r st -> length (State.choices st) <= size U.
Proof.
  intros Hg. apply NoDup_names_length; [apply Hg|].
  intros x Hx. by apply names_in_U, Hg.
Qed.

Lemma neighbor_longer fuel st uv n :
  goodState r st ->
  DependenciesList.isEmpty (State.dependencies st) = false ->
  uv ∈ candidateVersionsOf r st ->
  neighborOf fuel r st uv = Return n ->
  S (length (State.choices st)) <= length (State.choices n).
Proof.
  intros Hg Hpending Hcand Hn.
  destruct (candidateVersionsOf_listed _ _ _ wf_r Hcand) as (Hname & _).
  destruct (neighborOf_extends _ _ _ _ _ Hn) as (N1 & N2 & _).
  assert (Hnew : uv ∉ State.choices st).
  { intros Hin. apply (good_dependencies _ _ Hg) in Hin. apply Hin.
    rewrite Hname. by apply candidateNameOf_pending. }
  change (S (length (State.choices st)))
    with (length (uv :: State.choices st)).
  apply submseteq_length, NoDup_submseteq.
  - constructor; [done|]. eapply NoDup_fmap_1, Hg.
  - intros x [->|Hx]%elem_of_cons; auto.
Qed.


Lemma resolveLoop_ends m fuel sc pq e :
  soundQueue r pq -> sum_list_with (stateWeight B U) pq <= m ->
  R + 2 + size U + m <= fuel ->
  resolveLoop fuel r sc pq e <> OutOfFuel.
Proof.
  revert fuel pq e.
  induction m as [|m IH]; intros fuel pq e Hpq Hm Hfuel;
    (destruct fuel as [|fuel]; [lia|]); simpl; unfold resolveStep.
  - destruct pq as [|item pq]; [by destruct e|].
    simpl in Hm. pose proof (searchSize_pos B
      (size U - length (State.choices item.1))). unfold stateWeight in Hm. lia.
  - destruct (PriorityQueue.pop pq) as [[[cur key] rest]|] eqn:Ep;
      [|by destruct e].
    apply pop_spec in Ep as [Perm _]. unfold soundQueue in Hpq.
    rewrite Perm in Hpq, Hm.
    apply Forall_cons in Hpq as [[Hgood Hvalid] Hrest].
    simpl in Hgood, Hvalid, Hm. unfold stateWeight at 1 in Hm. simpl in Hm.
    case_bool_decide; [by destruct e|].
    destruct (DependenciesList.isEmpty (State.dependencies cur)) eqn:Ed;
      [done|].
    pose proof (stateNeighbors_ends fuel cur) as Hends.
    destruct (_stateNeighbors fuel r cur) as [obj| |] eqn:En;
      [|done|exfalso; apply Hends; [lia|done]].
    pose proof (searchSize_pos B (size U - length (State.choices cur))).
    destruct (success obj) eqn:Es; simpl; (apply IH; [| |lia]);
      [| |done|lia].
    + unfold soundQueue. rewrite pushNeighbors_spec. apply Forall_app.
      split; [done|].
      pose proof (stateNeighbors_good _ _ _ _ wf_r Hgood Ed En) as Hn.
      destruct (stateNeighbors_NoDup_valid _ _ _ _ En) as [Hv _].
      apply Forall_fmap, Forall_forall. intros s Hs. simpl.
      rewrite Forall_forall in Hn, Hv. split; [by apply Hn|by apply Hv].
    + rewrite pushNeighbors_spec, sum_list_with_app.
      pose proof (stateNeighbors_good _ _ _ _ wf_r Hgood Ed En) as Hn.
      pose proof (neighbors_length _ _ _ En) as Hlen.
      assert (Hlonger : Forall (fun n => S (length (State.choices cur))
                                         <= length (State.choices n)
                                         /\ length (State.choices n) <= size U)
                          (neighbors obj)).
      { eapply Forall_impl;
          [apply Forall_and; split;
           [exact Hn|
            apply (stateNeighbors_Forall
                     (fun n => S (length (State.choices cur))
                               <= length (State.choices n)) _ _ _ _)
              with (2 := En)]|].
        - intros uv n Hcand Hnb _. by eapply neighbor_longer.
        - intros n [Hgn Hl]. simpl in *. split; [done|]. by apply good_length. }
      pose proof (success_neighbors _ _ _ _ En Es) as Hne.
      destruct (size U - length (State.choices cur)) as [|k] eqn:Ek.
      { destruct (neighbors obj) as [|n ns]; [done|].
        apply Forall_cons in Hlonger as [[? ?] _]. lia. }
      simpl in Hm.
      assert (Hsum : sum_list_with (stateWeight B U)
                       ((fun state =>
                           (state, (combinedCost sc state,
                                    (- Z.of_nat (length (State.choices state)))%Z)))
                          <$> neighbors obj)
                     <= length (neighbors obj) * searchSize B k).
      { etrans; [apply (sum_list_with_bound _ _ (searchSize B k))|].
        - apply Forall_fmap. eapply Forall_impl; [exact Hlonger|].
          intros n [Hl1 Hl2]. simpl. unfold stateWeight. simpl.
          apply searchSize_mono. lia.
        - by rewrite length_fmap. }
      nia.
Qed.
End RankedSearch.

Lemma size_list_to_set_le (l : list string) :
  size (list_to_set l : gset string) <= length l.
Proof.
  induction l as [|x l IH]; simpl; [done|].
  rewrite (size_union_alt (C:=gset string) {[x]}), size_singleton.
  assert (Hsub : list_to_set l ∖ {[x]} ⊆ (list_to_set l : gset string))
    by set_solver.
  apply subseteq_size in Hsub. simpl in *. lia.
Qed.


Lemma interned_registered uvs w : interned (registry uvs) w -> w ∈ uvs.
Proof.
  unfold interned. destruct (registry_inv uvs) as (_ & I2 & _). rewrite I2.
  by intros [? _]%firstPrinted_Some.
Qed.

Lemma registry_listed_length uvs name listed :
  unitsVersions (registry uvs) !! name = Some listed ->
  length listed <= length uvs.
Proof.
  rewrite registry_unitsVersions.
  destruct (versionsAdded name uvs); [done|]. intros [= <-].
  unfold registeredUnder. etrans; [apply stdlib_filter_length|].
  apply sublist_length, firstRegistrations_sublist.
Qed.

Lemma startState_ends r (rank : UnitVersion -> nat) (U : gset string) R fuel
  deps cs chs :
  (forall u c w,
     c ∈ exactConstraintsIntersection (uv_dependencies u) (uv_constraints u) ->
     getSatisfyingUnitVersion c r = Some w -> rank w < rank u) ->
  (forall u, rank u < R) ->
  (forall c w, c_exact c = true -> getSatisfyingUnitVersion c r = Some w ->
     uv_name w ∈ U) ->
  R + 1 + size U <= fuel ->
  startState fuel r deps cs chs <> OutOfFuel.
Proof.
  intros Hrank Hbound HU Hfuel. unfold startState.
  apply bind_not_OutOfFuel; [|done]. unfold _propagateExactTransDeps.
  apply (propagateLoop_ends r rank Hrank U R Hbound HU (1 + size U)); [|lia].
  simpl. apply le_n_S, subseteq_size. set_solver.
Qed.

(** X27. On a registry built by [addUnitVersion] from [n] well-formed
    unit versions whose exact constraints are ranked below [R], a [resolve]
    whose start state has no violated choice ends: within
    [R + 2 + n + searchSize n n] units of fuel it returns or throws. *)
Theorem resolve_terminates uvs (rank : UnitVersion -> nat) R fuel
  deps cs chs options :
  Forall wfUnitVersion uvs ->
  (forall u c w,
     c ∈ exactConstraintsIntersection (uv_dependencies u) (uv_constraints u) ->
     getSatisfyingUnitVersion c (registry uvs) = Some w -> rank w < rank u) ->
  (forall u, rank u < R) ->
  Forall wfConstraint (default [] cs) ->
  NoDup (uv_name <$> default [] chs) ->
  (forall x, x ∈ default [] chs -> interned (registry uvs) x) ->
  (forall start,
     startState fuel (registry uvs) deps (default [] cs) (default [] chs)
     = Return start -> stateIsValid start = true) ->
  R + 2 + length uvs + searchSize (length uvs) (length uvs) <= fuel ->
  resolve fuel (registry uvs) deps cs chs options <> OutOfFuel.
Proof.
  intros Hwf Hrank Hbound Hcs Hnames Hint Hvalid Hfuel.
  pose proof (registry_wf _ Hwf) as Hr.
  set (U := list_to_set (uv_name <$> uvs) : gset string).
  assert (HU : forall w, interned (registry uvs) w -> uv_name w ∈ U).
  { intros w Hw%interned_registered. apply elem_of_list_to_set.
    apply list_elem_of_fmap. by exists w. }
  assert (Hsize : size U <= length uvs).
  { etrans; [apply size_list_to_set_le|]. by rewrite length_fmap. }
  unfold resolve. apply bind_not_OutOfFuel.
  - apply (startState_ends _ rank U R); [done|done| |lia].
    by apply exact_names_in_U.
  - intros start Hstart. destruct (stopAfterFirstPropagation options); [done|].
    apply (resolveLoop_ends (registry uvs) rank U R (length uvs) Hr Hrank Hbound
             HU (registry_listed_length uvs)
             (searchSize (length uvs) (length uvs))); [| |lia].
    + unfold soundQueue, pushStart, PriorityQueue.push. simpl.
      constructor; [|constructor]. simpl.
      split; [|by apply Hvalid].
      exact (startState_good _ _ _ _ _ _ Hr Hcs Hnames Hint Hstart
               (Hvalid _ Hstart)).
    + unfold pushStart, PriorityQueue.push. simpl. unfold stateWeight. simpl.
      rewrite Nat.add_0_r. apply searchSize_mono. lia.
Qed.

(** ** Printed forms, registration order, violated choices *)

(** X5. Unit versions of different names (versions without "@") can be
    registered in either order: the resolver is the same. *)
Theorem addUnitVersion_order_of_names r u1 u2 :
  uv_name u1 <> uv_name u2 ->
  noAt (uv_version u1) = true -> noAt (uv_version u2) = true ->
  addUnitVersion (addUnitVersion r u1) u2
  = addUnitVersion (addUnitVersion r u2) u1.
Proof.
  intros Hn H1 H2. apply addUnitVersion_commute; [done|].
  intros Hk. by apply printed_inj in Hk as [? _].
Qed.

(** X9. What [_exactTransitiveConstraints] returns holds the exact
    constraints the unit version has on its own dependencies, and with a
    constraint those of the unit version it is looked up to; each member is
    exact, has a unit version in the resolver, and is a constraint that the
    unit version or the unit version of a member has on one of its own
    dependencies. *)
Theorem exactTransitiveConstraints_closure fuel r u E :
  _exactTransitiveConstraints fuel r u = Return E ->
  (forall c,
     c ∈ exactConstraintsIntersection (uv_dependencies u) (uv_constraints u) ->
     c ∈ E)
  /\ (forall c, c ∈ E ->
        c_exact c = true
        /\ is_Some (getSatisfyingUnitVersion c r)
        /\ exists w, (w = u \/ pinned r E w)
                     /\ c ∈ uv_constraints w /\ c_name c ∈ uv_dependencies w)
  /\ (forall c w c',
        c ∈ E -> getSatisfyingUnitVersion c r = Some w ->
        c' ∈ exactConstraintsIntersection (uv_dependencies w) (uv_constraints w) ->
        c' ∈ E).
Proof. apply exactTransitiveConstraints_full. Qed.

(** X6. The printed forms identify unit versions up to name and version,
    and constraints altogether, for versions that have no "@" and do not
    start with "=". *)
Theorem toString_injective :
  (forall u1 u2,
     noAt (uv_version u1) = true -> noAt (uv_version u2) = true ->
     UnitVersion_toString u1 = UnitVersion_toString u2 ->
     uv_name u1 = uv_name u2 /\ uv_version u1 = uv_version u2)
  /\ (forall c1 c2,
        noAt (c_version c1) = true -> noAt (c_version c2) = true ->
        (forall rest, c_version c1 <> String "="%char rest) ->
        (forall rest, c_version c2 <> String "="%char rest) ->
        Constraint_toString c1 = Constraint_toString c2 -> c1 = c2).
Proof.
  split.
  - intros u1 u2 H1 H2 E. by apply printed_inj in E.
  - intros [n1 e1 v1] [n2 e2 v2]. unfold Constraint_toString.
    cbn [c_name c_exact c_version]. intros H1 H2 L1 L2 E.
    apply (printed_inj n1 ((if e1 then "=" else EmptyString) +:+ v1)
             n2 ((if e2 then "=" else EmptyString) +:+ v2)) in E.
    + destruct E as [-> E]. destruct e1, e2.
      * change (String "="%char v1 = String "="%char v2) in E. congruence.
      * change (String "="%char v1 = v2) in E. by destruct (L2 _ (eq_sym E)).
      * change (v1 = String "="%char v2) in E. by destruct (L1 _ E).
      * change (v1 = v2) in E. by subst.
    + by destruct e1.
    + by destruct e2.
Qed.

Lemma violated_mono (cs cs' : ConstraintsList.t) x :
  (forall c, c ∈ cs -> c ∈ cs') -> violated cs x = true -> violated cs' x = true.
Proof.
  unfold violated. rewrite !existsb_exists. intros Hsub (c & Hc & Hv).
  exists c. split; [|done]. apply list_elem_of_In, Hsub. by apply list_elem_of_In.
Qed.

(** X17. Choices violated by constraints stay violated however the
    choices and the constraints are extended:
    [choicesDontViolateConstraints] that fails on some choices and
    constraints fails on all larger ones. *)
Theorem invalid_choices_stay_invalid
  (chs chs' : list UnitVersion) (cs cs' : ConstraintsList.t) :
  (forall x, x ∈ chs -> x ∈ chs') -> (forall c, c ∈ cs -> c ∈ cs') ->
  choicesDontViolateConstraints chs cs = false ->
  choicesDontViolateConstraints chs' cs' = false.
Proof.
  unfold choicesDontViolateConstraints. intros Hchs Hcs Hv.
  apply not_true_is_false. intros Hv'. rewrite forallb_forall in Hv'.
  apply not_true_iff_false in Hv. apply Hv, forallb_forall.
  intros x Hx. apply negb_true_iff.
  destruct (violated cs x) eqn:E; [|done].
  apply (violated_mono _ cs') in E; [|done].
  apply list_elem_of_In, Hchs, list_elem_of_In, Hv' in Hx. by rewrite E in Hx.
Qed.

End Properties.

(** * The resolver on the example registries *)

#[local] Existing Instance Dotted.semver.
Import Example.

(** C1, on the registry [conflicting]. The root pins A@=1.0.0 and C@=1.0.0,
    A@1.0.0 pins B@=1.0.0 and C@1.0.0 pins B@=2.0.0: the start state has no
    dependency left and [resolve] returns its choices, with two unit versions
    of B, each violating the constraint that forced the other. *)
Theorem resolve_returns_conflicting_choices :
  (forall fuel,
     10 <= fuel ->
     resolve fuel conflicting ["A"; "C"]
       (Some [exactly "A" "1.0.0"; exactly "C" "1.0.0"]) None noOptions
     = Return [A_pins_B1; C_pins_B2; B1; B2])
  /\ startState 10 conflicting ["A"; "C"]
       [exactly "A" "1.0.0"; exactly "C" "1.0.0"] []
     = Return {| State.dependencies := [];
                 State.constraints :=
                   [exactly "A" "1.0.0"; exactly "C" "1.0.0";
                    exactly "B" "1.0.0"; exactly "B" "2.0.0"];
                 State.choices := [A_pins_B1; C_pins_B2; B1; B2] |}
  /\ uv_name B1 = uv_name B2 /\ B1 <> B2
  /\ isSatisfied (exactly "B" "2.0.0") B1 = false
  /\ isSatisfied (exactly "B" "1.0.0") B2 = false.
Proof.
  split.
  - intros fuel Hfuel.
    eapply settles_result; [by apply resolve_more_fuel|].
    vm_compute. reflexivity.
  - repeat split; try (vm_compute; reflexivity). discriminate.
Qed.

Lemma resolve_returns_conflicting_choices_witness :
  resolve 20 conflicting ["A"; "C"]
    (Some [exactly "A" "1.0.0"; exactly "C" "1.0.0"]) None noOptions
  = Return [A_pins_B1; C_pins_B2; B1; B2].
Proof. apply (proj1 resolve_returns_conflicting_choices). lia. Defined.


(** With A pinned at the root the start state has one choice and is pushed
    with 0, not -1, as second component of its key. *)
Lemma start_state_key_ignores_choices :
  exists s,
    startState 10 twoVersions ["A"] [exactly "A" "1.0.0"] [] = Return s
    /\ State.choices s = [A1]
    /\ pushStart (defaultSearch ["A"]) s = [(s, (Finite 0, 0%Z))]
    /\ (Finite 0, 0%Z)
       <> (combinedCost (defaultSearch ["A"]) s,
           (- Z.of_nat (length (State.choices s)))%Z).
Proof.
  eexists. split; [vm_compute; reflexivity|]. repeat split. discriminate.
Qed.

(** C6, on the registry [oddNames]. The unit version "a=b"@1.0.0 is
    interned under "a=b@1.0.0", but the exact constraint on it looks up
    "ab@=1.0.0", the "=" of the name being the first one [replace] finds,
    and gets nothing. *)
Theorem exact_lookup_misses_name_with_equals_sign :
  _unitsVersionsMap oddNames !! "a=b@1.0.0" = Some oddlyNamed
  /\ Constraint_toString (exactly "a=b" "1.0.0") = "a=b@=1.0.0"
  /\ replace_first_eq (Constraint_toString (exactly "a=b" "1.0.0")) = "ab@=1.0.0"
  /\ getSatisfyingUnitVersion (exactly "a=b" "1.0.0") oddNames = None.
Proof. repeat split; vm_compute; reflexivity. Qed.

(** The root pins B@=1.2.3, which is not registered, and A@1.0.0 depends
    on B: [resolve] throws although the candidate A@2.0.0 needs no B. *)
Example missing_exact_unit_version_aborts_resolve :
  (forall fuel,
     10 <= fuel ->
     resolve fuel missingB ["A"] (Some [exactly "B" "1.2.3"]) None noOptions
     = Throw "No unit version was found for the constraint -- B@=1.2.3")
  /\ resolve 10 (@registry Dotted.semver [A2]) ["A"]
       (Some [exactly "B" "1.2.3"]) None noOptions
     = Return [A2].
Proof.
  split.
  - intros fuel Hfuel.
    eapply settles_thrown; [by apply resolve_more_fuel|].
    vm_compute. reflexivity.
  - vm_compute. reflexivity.
Qed.


Lemma isSatisfied_spec_witness :
  isSatisfied (exactly "A" "1.0.0") A1' = true
  /\ isSatisfied (atLeast "A" "1.0.0") A11 = true.
Proof.
  split.
  - apply (proj1 (isSatisfied_spec (exactly "A" "1.0.0") A1')). reflexivity.
  - apply (isSatisfied_spec (atLeast "A" "1.0.0") A11). split; reflexivity.
Defined.

Lemma addUnitVersion_idempotent_and_latest_witness :
  addUnitVersion twoVersions A2 = twoVersions
  /\ addUnitVersion twoVersions A1' = twoVersions.
Proof.
  split.
  - apply (proj1 addUnitVersion_idempotent_and_latest [A1; A2] A2).
    right. left.
  - apply (proj1 (proj2 addUnitVersion_idempotent_and_latest) [A1; A2] A1').
    + repeat constructor.
    + vm_compute. by eexists.
Defined.

Lemma addUnitVersion_first_write_wins_witness :
  addUnitVersion twoVersions A1' = twoVersions
  /\ exists first,
       firstPrinted (UnitVersion_toString A1') [A1; A2] = Some first
       /\ _unitsVersionsMap (addUnitVersion twoVersions A1')
            !! UnitVersion_toString A1' = Some first.
Proof.
  apply (proj1 addUnitVersion_first_write_wins [A1; A2] A1 A1').
  - left.
  - reflexivity.
  - reflexivity.
Defined.



Lemma priority_queue_keys_witness :
  PriorityQueue.ltb (Finite 0, (- Z.of_nat 2)%Z) (Finite 0, (- Z.of_nat 1)%Z)
  = true.
Proof.
  apply (proj2 (proj2 (proj2 priority_queue_keys))). lia.
Defined.

(** On [twoVersions] with A pinned at the root the start state is valid, and
    the search is sound. *)
Example resolve_sound_on_two_versions :
  exists final,
    State.choices final = [A1]
    /\ State.dependencies final = []
    /\ NoDup (uv_name <$> [A1])
    /\ choicesDontViolateConstraints [A1] (State.constraints final) = true.
Proof.
  eapply (resolve_sound_from_valid_start 10 twoVersions ["A"]
            (Some [exactly "A" "1.0.0"]) None noOptions).
  - apply registry_wf. repeat constructor.
  - repeat constructor.
  - constructor.
  - intros x Hx. by apply not_elem_of_nil in Hx.
  - reflexivity.
  - vm_compute. reflexivity.
  - vm_compute. reflexivity.
  - vm_compute. reflexivity.
Qed.

(** ** Instances of the further properties *)

Lemma pickThenPin_wf : wfResolver pickThenPin.
Proof. apply registry_wf. repeat constructor. Qed.

Lemma pinRank_decreases u c w :
  c ∈ exactConstraintsIntersection (uv_dependencies u) (uv_constraints u) ->
  getSatisfyingUnitVersion c pickThenPin = Some w -> pinRank w < pinRank u.
Proof.
  intros Hc Hs.
  pose proof Hc as (Hcu & He & Hn)%elem_of_exact_filter_iff.
  assert (Hw : w ∈ [B2; B1; A_pins_B1]).
  { apply interned_registered. unfold getSatisfyingUnitVersion in Hs.
    rewrite He in Hs. unfold interned.
    by rewrite (wf_key _ pickThenPin_wf _ _ Hs). }
  assert (Hu : u ∉ [B1; B2]).
  { intros Hin. apply elem_of_cons in Hin as [->|Hin]; [by inversion Hcu|].
    apply list_elem_of_singleton in Hin as ->. by inversion Hcu. }
  unfold pinRank at 2. rewrite bool_decide_eq_false_2 by done.
  apply elem_of_cons in Hw as [->|Hw].
  { change (pinRank B2) with 0. case_bool_decide; lia. }
  apply elem_of_cons in Hw as [->|Hw].
  { change (pinRank B1) with 0. case_bool_decide; lia. }
  apply list_elem_of_singleton in Hw as ->.
  change (pinRank A_pins_B1) with 1.
  case_bool_decide as Hua; [|lia].
  subst u. apply list_elem_of_singleton in Hc as ->. vm_compute in Hs. done.
Qed.

Lemma pinRank_bounded u : pinRank u < 3.
Proof. unfold pinRank. repeat case_bool_decide; lia. Qed.

Lemma exact_constraint_finds_registered_witness :
  A1' ∈ [A1; A1'; A2]
  /\ exists first,
       getSatisfyingUnitVersion (exactly "A" "1.0.0") (registry [A1; A1'; A2])
       = Some first
       /\ first = A1.
Proof.
  assert (Hin : A1' ∈ [A1; A1'; A2]) by (right; left).
  split; [exact Hin|].
  destruct (exact_constraint_finds_registered [A1; A1'; A2] A1' Hin eq_refl)
    as (first & Hs & Hf & _).
  exists first. split; [exact Hs|]. vm_compute in Hf.
  injection Hf as <-. reflexivity.
Defined.

Lemma getSatisfyingUnitVersion_sound_witness :
  uv_name A1 = "A" /\ isSatisfied (atLeast "A" "1.0.0") A1 = true
  /\ interned twoVersions A1.
Proof.
  apply (getSatisfyingUnitVersion_sound twoVersions (atLeast "A" "1.0.0") A1).
  - apply registry_wf. repeat constructor.
  - intros [=].
  - vm_compute. reflexivity.
Defined.

Lemma latestVersion_of_listed_witness :
  exists listed w,
    unitsVersions (registry [A1; A2]) !! "A" = Some listed
    /\ w ∈ listed /\ uv_version w = "2.0.0".
Proof.
  apply (proj2 (latestVersion_of_listed [A1; A2] "A")).
  - repeat constructor.
  - vm_compute. reflexivity.
Defined.

Lemma addUnitVersion_order_of_names_witness :
  addUnitVersion (addUnitVersion newResolver A1) B1
  = addUnitVersion (addUnitVersion newResolver B1) A1.
Proof.
  apply addUnitVersion_order_of_names; [discriminate|reflexivity..].
Defined.

Lemma toString_injective_witness :
  uv_name A1 = uv_name A1' /\ uv_version A1 = uv_version A1'.
Proof. apply (proj1 toString_injective A1 A1'); reflexivity. Defined.

Lemma exactTransitiveConstraints_closure_witness :
  _exactTransitiveConstraints 5 pickThenPin A_pins_B1
  = Return [exactly "B" "1.0.0"]
  /\ forall c, c ∈ [exactly "B" "1.0.0"] ->
       c_exact c = true
       /\ is_Some (getSatisfyingUnitVersion c pickThenPin)
       /\ exists w, (w = A_pins_B1 \/ pinned pickThenPin [exactly "B" "1.0.0"] w)
                    /\ c ∈ uv_constraints w /\ c_name c ∈ uv_dependencies w.
Proof.
  assert (E : _exactTransitiveConstraints 5 pickThenPin A_pins_B1
              = Return [exactly "B" "1.0.0"]) by (vm_compute; reflexivity).
  split; [exact E|].
  exact (proj1 (proj2 (exactTransitiveConstraints_closure _ _ _ _ E))).
Defined.

Lemma transitive_dependencies_return_together_witness :
  (exists versions,
     exactTransitiveDependenciesVersions 5 pickThenPin A_pins_B1
     = Return versions
     /\ Forall2 (fun c w => getSatisfyingUnitVersion c pickThenPin = Some w)
          [exactly "B" "1.0.0"] versions)
  /\ exists deps,
       inexactTransitiveDependencies 5 pickThenPin A_pins_B1 = Return deps
       /\ forall x,
            x ∈ deps <->
            (x ∈ uv_dependencies A_pins_B1
             \/ exists c w, c ∈ [exactly "B" "1.0.0"]
                            /\ getSatisfyingUnitVersion c pickThenPin = Some w
                            /\ x ∈ uv_dependencies w)
            /\ forall c, c ∈ [exactly "B" "1.0.0"] -> x <> c_name c.
Proof.
  apply (transitive_dependencies_return_together 5 pickThenPin A_pins_B1).
  vm_compute. reflexivity.
Defined.

Lemma exact_pin_cycle_never_returns_witness :
  _exactTransitiveConstraints 100 cyclic X_pins_Y = OutOfFuel
  /\ exactTransitiveDependenciesVersions 100 cyclic X_pins_Y = OutOfFuel
  /\ inexactTransitiveDependencies 100 cyclic X_pins_Y = OutOfFuel
  /\ forall dependencies constraints choices,
       _propagateExactTransDeps 100 cyclic X_pins_Y dependencies constraints
         choices = OutOfFuel.
Proof.
  apply (exact_pin_cycle_never_returns (fun u => u = X_pins_Y \/ u = Y_pins_X)
           cyclic); [|by left].
  intros u [->| ->].
  - exists (exactly "Y" "1.0.0"), [], Y_pins_X.
    split; [reflexivity|]. split; [vm_compute; reflexivity|by right].
  - exists (exactly "X" "1.0.0"), [], X_pins_Y.
    split; [reflexivity|]. split; [vm_compute; reflexivity|by left].
Defined.

Lemma exactTransitiveConstraints_terminates_witness :
  pinRank A_pins_B1 < 2
  /\ _exactTransitiveConstraints 2 pickThenPin A_pins_B1 <> OutOfFuel.
Proof.
  assert (Hr : pinRank A_pins_B1 < 2) by (vm_compute; lia).
  split; [exact Hr|].
  exact (exactTransitiveConstraints_terminates pickThenPin pinRank 2 A_pins_B1
           pinRank_decreases Hr).
Defined.

Lemma propagation_extends_state_witness :
  exists s,
    _propagateExactTransDeps 10 pickThenPin A_pins_B1 ["C"] [] [] = Return s
    /\ (forall x, x = A_pins_B1 \/ x ∈ [] -> x ∈ State.choices s)
    /\ (forall c, c ∈ [] \/ c ∈ uv_constraints A_pins_B1 ->
          c ∈ State.constraints s)
    /\ (forall x, x ∈ State.choices s -> uv_name x ∉ State.dependencies s)
    /\ (forall c, c ∈ State.constraints s ->
          c ∈ [] \/ exists w, w ∈ State.choices s /\ c ∈ uv_constraints w)
    /\ (forall x, x ∈ State.dependencies s ->
          x ∈ ["C"] \/ exists w, w ∈ State.choices s /\ x ∈ uv_dependencies w).
Proof.
  eexists. split; [vm_compute; reflexivity|].
  apply (propagation_extends_state 10 pickThenPin A_pins_B1 ["C"] [] []).
  vm_compute. reflexivity.
Defined.

Lemma propagation_settles_dependencies_witness :
  exists s,
    _propagateExactTransDeps 10 pickThenPin A_pins_B1 ["C"] [] [] = Return s
    /\ (forall x, x ∈ ["C"] -> settled pickThenPin s x)
    /\ (forall w, w ∈ State.choices s -> w = A_pins_B1 \/ w ∉ [] ->
          (forall x, x ∈ uv_dependencies w -> settled pickThenPin s x)
          /\ (forall c, c ∈ uv_constraints w -> c ∈ State.constraints s)).
Proof.
  eexists. split; [vm_compute; reflexivity|].
  apply (propagation_settles_dependencies 10 pickThenPin A_pins_B1 ["C"] [] []).
  vm_compute. reflexivity.
Defined.

Lemma propagation_throws_only_unresolved_pin_witness :
  exists c,
    c_exact c = true
    /\ getSatisfyingUnitVersion c (registry [A_pins_B1]) = None
    /\ "No unit version was found for the constraint -- B@=1.0.0"
       = noUnitVersionMsg c.
Proof.
  apply (propagation_throws_only_unresolved_pin 10 (registry [A_pins_B1])
           A_pins_B1 [] [] []).
  vm_compute. reflexivity.
Defined.

Lemma pickThenPin_names c w :
  c_exact c = true -> getSatisfyingUnitVersion c pickThenPin = Some w ->
  uv_name w ∈ ({["A"; "B"]} : gset string).
Proof.
  intros He Hs.
  assert (Hw : w ∈ [B2; B1; A_pins_B1]).
  { apply interned_registered. unfold getSatisfyingUnitVersion in Hs.
    rewrite He in Hs. unfold interned.
    by rewrite (wf_key _ pickThenPin_wf _ _ Hs). }
  apply elem_of_cons in Hw as [->|Hw]; [set_solver|].
  apply elem_of_cons in Hw as [->|Hw]; [set_solver|].
  apply list_elem_of_singleton in Hw as ->. set_solver.
Qed.

Lemma propagation_terminates_witness :
  3 + 1 + size ({["A"; "B"]} : gset string) <= 6
  /\ _propagateExactTransDeps 6 pickThenPin A_pins_B1 [] [] [] <> OutOfFuel.
Proof.
  assert (Hfuel : 3 + 1 + size ({["A"; "B"]} : gset string) <= 6)
    by (vm_compute; lia).
  split; [exact Hfuel|].
  exact (propagation_terminates pickThenPin pinRank {["A"; "B"]} 3 6 A_pins_B1
           [] [] [] pinRank_decreases pinRank_bounded pickThenPin_names Hfuel).
Defined.

Lemma invalid_choices_stay_invalid_witness :
  choicesDontViolateConstraints [B1; B2]
    [exactly "B" "2.0.0"; exactly "B" "1.0.0"] = false.
Proof.
  apply (invalid_choices_stay_invalid [B1] [B1; B2] [exactly "B" "2.0.0"]
           [exactly "B" "2.0.0"; exactly "B" "1.0.0"]).
  - intros x ->%list_elem_of_singleton. left.
  - intros c ->%list_elem_of_singleton. left.
  - reflexivity.
Defined.

Lemma stateNeighbors_are_valid_extensions_witness :
  exists obj,
    _stateNeighbors 10 twoVersions pendingA = Return obj
    /\ (success obj = true <-> neighbors obj <> [])
    /\ (exists states,
          Forall2 (fun uv n => neighborOf 10 twoVersions pendingA uv = Return n)
            (candidateVersionsOf twoVersions pendingA) states
          /\ neighbors obj = List.filter stateIsValid states)
    /\ forall n, n ∈ neighbors obj ->
         stateIsValid n = true
         /\ exists uv,
              uv ∈ default [] (unitsVersions twoVersions
                                !! candidateNameOf pendingA)
              /\ violated (State.constraints pendingA) uv = false
              /\ neighborOf 10 twoVersions pendingA uv = Return n
              /\ uv ∈ State.choices n
              /\ (forall x, x ∈ State.choices pendingA -> x ∈ State.choices n)
              /\ (forall c, c ∈ State.constraints pendingA ->
                    c ∈ State.constraints n)
              /\ (forall x, x ∈ State.choices n ->
                    uv_name x ∉ State.dependencies n).
Proof.
  eexists. split; [vm_compute; reflexivity|].
  apply (stateNeighbors_are_valid_extensions 10 twoVersions pendingA).
  vm_compute. reflexivity.
Defined.

Lemma stateNeighbors_failure_report_witness :
  exists obj uv n,
    _stateNeighbors 10 pickThenPin pendingA_pinnedB2 = Return obj
    /\ last (candidateVersionsOf pickThenPin pendingA_pinnedB2) = Some uv
    /\ neighborOf 10 pickThenPin pendingA_pinnedB2 uv = Return n
    /\ stateIsValid n = false
    /\ lastInvalidNeighbor obj = Some n
    /\ triedUnitVersions obj = Some [A_pins_B1]
    /\ failureMsg obj
       = Some "None of the versions unit produces a sensible result -- A".
Proof.
  eexists.
  destruct (stateNeighbors_failure_report 10 pickThenPin pendingA_pinnedB2 _
              ltac:(vm_compute; reflexivity) eq_refl)
    as [_ [(Hc & _)|(uv & n & H1 & H2 & H3 & H4 & H5 & H6 & _)]].
  - vm_compute in Hc. discriminate Hc.
  - exists uv, n. split; [vm_compute; reflexivity|].
    split; [exact H1|]. split; [exact H2|]. split; [exact H3|].
    split; [exact H4|]. split; [exact H5|exact H6].
Defined.



Lemma resolve_gives_up_on_infinite_start_witness :
  resolve 10 twoVersions ["A"] (Some [exactly "A" "1.0.0"]) None infiniteCost
  = Throw "Couldn't resolve, I am sorry".
Proof.
  eapply (resolve_gives_up_on_infinite_start 10 twoVersions ["A"]
            (Some [exactly "A" "1.0.0"]) None infiniteCost).
  - reflexivity.
  - vm_compute. reflexivity.
  - reflexivity.
Defined.

Lemma resolve_keeps_passed_choices_witness :
  exists solution,
    resolve 10 twoVersions ["A"] None (Some [A2]) noOptions = Return solution
    /\ A2 ∈ solution.
Proof.
  eexists. split; [vm_compute; reflexivity|].
  apply (resolve_keeps_passed_choices 10 twoVersions ["A"] None (Some [A2])
           noOptions).
  - vm_compute. reflexivity.
  - left.
  - discriminate.
Defined.



Lemma resolve_first_propagation_witness :
  match resolve 10 pickThenPin ["A"] (Some [exactly "A" "1.0.0"]) None
          firstPropagationOnly with
  | Return solution =>
      NoDup solution
      /\ (forall x, x ∈ solution -> uv_name x <> "target")
      /\ (forall x, x ∈ default [] None -> uv_name x <> "target" ->
            x ∈ solution)
      /\ (forall x, x ∈ solution ->
            x ∈ default [] None
            \/ exists c, c_exact c = true
                         /\ getSatisfyingUnitVersion c pickThenPin = Some x)
  | Throw msg =>
      exists c, c_exact c = true
                /\ getSatisfyingUnitVersion c pickThenPin = None
                /\ msg = noUnitVersionMsg c
  | OutOfFuel => True
  end.
Proof.
  exact (resolve_first_propagation 10 pickThenPin ["A"]
           (Some [exactly "A" "1.0.0"]) None firstPropagationOnly eq_refl).
Defined.

Lemma resolve_terminates_witness :
  3 + 2 + length [B2; B1; A_pins_B1] + searchSize 3 3 <= 48
  /\ resolve 48 pickThenPin ["A"] None None noOptions <> OutOfFuel.
Proof.
  assert (Hfuel : 3 + 2 + length [B2; B1; A_pins_B1] + searchSize 3 3 <= 48)
    by (vm_compute; lia).
  split; [exact Hfuel|].
  apply (resolve_terminates [B2; B1; A_pins_B1] pinRank 3 48 ["A"] None None
           noOptions).
  - repeat constructor.
  - exact pinRank_decreases.
  - exact pinRank_bounded.
  - constructor.
  - constructor.
  - intros x Hx. by apply elem_of_nil in Hx.
  - intros start Hs. vm_compute in Hs. injection Hs as <-. reflexivity.
  - exact Hfuel.
Defined.
